(** * SREF library: the search front end and the ranking service

    A shallow embedding of [static/js/app.js] (class [SREFSearch] and the
    global handlers around it) together with the ranking service that the
    front end talks to.  The service side ([/search], [/similar], [/tags])
    is not part of the JavaScript sources; its definitions are taken from
    the written specification and are marked as such.

    Conventions.
    - A JavaScript string is the list of its UTF-16 code units ([Js.str]).
    - An array is a [list]; indexed reads and writes use stdpp's lookup
      and insert, and an access outside the array is an explicit [None].
    - A method of [SREFSearch] is a computation in the monad [M]: it
      threads the object's fields and the visible page state, and may
      throw.  A mutation made before a throw stays, as in JavaScript.
    - [fetch] is an oracle from requests to replies; every call is logged
      in the ghost field [requests].
    - An [async] method is run to completion as one step.
    - The carousel of a card, the image modal and the carousel timers
      have models of their own ([Carousel], [Modal], [Timers]), next to
      the state of the [SREFSearch] object; a timer that runs is an event.
    - The copy button has a model of its own ([Copy]), in which the
      clipboard either is missing, accepts the text or refuses it.
    - Console output is not recorded. *)

From Stdlib Require Import String Ascii DecimalString NArith ZArith Lia Reals Lra.
From stdpp Require Import list functions sorting gmap.

Set Default Proof Using "Type".

(* ===================================================================== *)
(** * JavaScript strings *)
(* ===================================================================== *)

Module Js.

(** A UTF-16 code unit. *)
Definition char := N.
Definition str := list char.

(** A literal: the code units of an ASCII string. *)
Definition lit (s : string) : str :=
  List.map N_of_ascii (list_ascii_of_string s).
Arguments lit s%_string : simpl never.

(** The decimal digits of an integer, as in a template literal. *)
Definition of_Z (z : Z) : str :=
  lit (DecimalString.NilEmpty.string_of_int (Z.to_int z)).

(** [Math.ceil(a / b)] for integers [a] and [b <> 0]; the quotient of
    two array-sized integers is rounded to a double without crossing
    an integer, so the ceiling is the exact one. *)
Definition ceil_div (a b : Z) : Z := (- ((- a) / b))%Z.

(** ECMAScript LineTerminator: LF, CR, LS, PS. *)
Definition is_line_terminator (c : char) : bool :=
  ((c =? 10) || (c =? 13) || (c =? 8232) || (c =? 8233))%N.

(** ECMAScript WhiteSpace: TAB, VT, FF, ZWNBSP and the Unicode class Zs
    (SP, NBSP, U+1680, U+2000..U+200A, U+202F, U+205F, U+3000). *)
Definition is_white_space (c : char) : bool :=
  ((c =? 9) || (c =? 11) || (c =? 12) || (c =? 65279)
   || (c =? 32) || (c =? 160) || (c =? 5760)
   || ((8192 <=? c) && (c <=? 8202))
   || (c =? 8239) || (c =? 8287) || (c =? 12288))%N.

(** What [String.prototype.trim] strips: WhiteSpace and LineTerminator. *)
Definition is_trimmed_char (c : char) : bool :=
  is_white_space c || is_line_terminator c.

Fixpoint trimStart (s : str) : str :=
  match s with
  | [] => []
  | c :: s' => if is_trimmed_char c then trimStart s' else s
  end.

Definition trimEnd (s : str) : str := reverse (trimStart (reverse s)).

(** [s.trim()] *)
Definition trim (s : str) : str := trimEnd (trimStart s).

(** [s.split(sep)] for a separator of one code unit.  The result always
    has at least one element: splitting the empty string gives [[""]]. *)
Fixpoint split (sep : char) (s : str) : list str :=
  match s with
  | [] => [[]]
  | c :: s' =>
      if (c =? sep)%N then [] :: split sep s'
      else match split sep s' with
           | w :: ws => (c :: w) :: ws
           | [] => [[c]]
           end
  end.

(** [a[0]]: [None] stands for [undefined]. *)
Definition first {A} (a : list A) : option A := a !! 0.

(** Relative index of [Array.prototype.slice]: a negative index counts
    from the end, and the result is clamped to [0 .. len]. *)
Definition relative_index (len k : Z) : Z :=
  (if k <? 0 then Z.max (len + k) 0 else Z.min k len)%Z.

(** [a.slice(start, end)] *)
Definition slice {A} (a : list A) (start end_ : Z) : list A :=
  let len := Z.of_nat (length a) in
  let k := relative_index len start in
  let final := relative_index len end_ in
  take (Z.to_nat (final - k)) (drop (Z.to_nat k) a).

(** [x || y] on strings: the empty string is falsy. *)
Definition or_else (x : option str) (y : str) : str :=
  match x with
  | Some (c :: s) => c :: s
  | _ => y
  end.

(** If [p] is a prefix of [s], what follows it. *)
Fixpoint strip_prefix (p s : str) : option str :=
  match p, s with
  | [], _ => Some s
  | a :: p', b :: s' => if (a =? b)%N then strip_prefix p' s' else None
  | _ :: _, [] => None
  end.

(** The longest prefix of code units that [.] matches (no [s] flag:
    everything but a line terminator). *)
Fixpoint dot_plus (s : str) : str :=
  match s with
  | [] => []
  | c :: s' => if is_line_terminator c then [] else c :: dot_plus s'
  end.

(** [p] occurs in [s]. *)
Fixpoint includes (p s : str) : bool :=
  match strip_prefix p s with
  | Some _ => true
  | None => match s with
            | [] => false
            | _ :: s' => includes p s'
            end
  end.

End Js.

Abbreviation str := Js.str.

(* ===================================================================== *)
(** * Tag extraction ([SREFSearch.extractTags]) *)
(* ===================================================================== *)

Definition key_themes_label : str := Js.lit "Key themes: ".

(** An attempt of [/Key themes: (.+)/] at the start of [s]: the label,
    then a greedy, non-empty run of [.]; the result is capture group 1. *)
Definition key_themes_here (s : str) : option str :=
  match Js.strip_prefix key_themes_label s with
  | Some rest =>
      match Js.dot_plus rest with
      | [] => None
      | c :: cap => Some (c :: cap)
      end
  | None => None
  end.

(** [summary.match(/Key themes: (.+)/)]: the leftmost position where the
    attempt succeeds; [None] is [null]. *)
Fixpoint match_key_themes (s : str) : option str :=
  match key_themes_here s with
  | Some cap => Some cap
  | None => match s with
            | [] => None
            | _ :: s' => match_key_themes s'
            end
  end.

Definition comma : Js.char := 44%N.
Definition space : Js.char := 32%N.

(** [tag.trim().split(" ")[0]] *)
Definition first_word (tag : str) : str :=
  default [] (Js.first (Js.split space (Js.trim tag))).

Definition default_tags : list str := [Js.lit "visual"; Js.lit "style"].

Definition extractTags (summary : str) : list str :=
  match match_key_themes summary with
  | Some m1 =>
      Js.slice
        (filter (λ tag : str, 2 < length tag)
           (first_word <$> Js.split comma m1))
        0 5
  | None => default_tags
  end.

(* ===================================================================== *)
(** * The state of the page and of the [SREFSearch] object *)
(* ===================================================================== *)

(** One entry of a ranked result list, as the service sends it. *)
Record Result := mkResult {
  sref_code : str;
  similarity : R;
  summary : str;
  thumbnails : list str
}.

(** A result card: the result, the rank handed to [createResultCard] and
    the tag spans made from the summary. *)
Record Card := mkCard {
  card_result : Result;
  card_rank : Z;
  card_tags : list str
}.

(** The content of the results container. *)
Inductive Container :=
| Blank
| NoResults (message : str)
| Cards (cards : list Card).

(** Elements that carry the class [hidden], buttons, and text nodes. *)
Inductive Elem := loadingIndicator | resultsSection | errorMessage | pagination.
Inductive Button := prevButton | nextButton.
Inductive Text := resultsTitle | errorText | paginationInfo.

#[global] Instance Elem_eq_dec : EqDecision Elem.
Proof. solve_decision. Defined.
#[global] Instance Button_eq_dec : EqDecision Button.
Proof. solve_decision. Defined.
#[global] Instance Text_eq_dec : EqDecision Text.
Proof. solve_decision. Defined.

(** The visible page. *)
Record Page := mkPage {
  searchInput : str;                (* searchInput.value *)
  hidden : Elem → bool;             (* classList contains "hidden" *)
  disabled : Button → bool;
  textContent : Text → str;
  resultsContainer : Container;
  exampleTags : list str            (* the example-tag spans *)
}.

Record Request := mkRequest {
  url : str;
  payload : option str              (* the one field of the JSON body *)
}.

(** The fields of the object, the page, and the log of [fetch] calls. *)
Record State := mkState {
  currentPage : Z;
  resultsPerPage : Z;
  allResults : list Result;
  currentResults : list Result;
  availableTags : list str;
  displayedTags : list str;
  page : Page;
  requests : list Request
}.

Definition set_searchInput (v : str) (p : Page) : Page :=
  mkPage v (hidden p) (disabled p) (textContent p) (resultsContainer p) (exampleTags p).
Definition set_hidden (e : Elem) (b : bool) (p : Page) : Page :=
  mkPage (searchInput p) (<[e := b]> (hidden p)) (disabled p) (textContent p)
         (resultsContainer p) (exampleTags p).
Definition set_disabled (x : Button) (b : bool) (p : Page) : Page :=
  mkPage (searchInput p) (hidden p) (<[x := b]> (disabled p)) (textContent p)
         (resultsContainer p) (exampleTags p).
Definition set_textContent (t : Text) (v : str) (p : Page) : Page :=
  mkPage (searchInput p) (hidden p) (disabled p) (<[t := v]> (textContent p))
         (resultsContainer p) (exampleTags p).
Definition set_resultsContainer (c : Container) (p : Page) : Page :=
  mkPage (searchInput p) (hidden p) (disabled p) (textContent p) c (exampleTags p).
Definition set_exampleTags (l : list str) (p : Page) : Page :=
  mkPage (searchInput p) (hidden p) (disabled p) (textContent p) (resultsContainer p) l.

Definition set_currentPage (v : Z) (s : State) : State :=
  mkState v (resultsPerPage s) (allResults s) (currentResults s)
          (availableTags s) (displayedTags s) (page s) (requests s).
Definition set_allResults (v : list Result) (s : State) : State :=
  mkState (currentPage s) (resultsPerPage s) v (currentResults s)
          (availableTags s) (displayedTags s) (page s) (requests s).
Definition set_currentResults (v : list Result) (s : State) : State :=
  mkState (currentPage s) (resultsPerPage s) (allResults s) v
          (availableTags s) (displayedTags s) (page s) (requests s).
Definition set_availableTags (v : list str) (s : State) : State :=
  mkState (currentPage s) (resultsPerPage s) (allResults s) (currentResults s)
          v (displayedTags s) (page s) (requests s).
Definition set_displayedTags (v : list str) (s : State) : State :=
  mkState (currentPage s) (resultsPerPage s) (allResults s) (currentResults s)
          (availableTags s) v (page s) (requests s).
Definition on_page (f : Page → Page) (s : State) : State :=
  mkState (currentPage s) (resultsPerPage s) (allResults s) (currentResults s)
          (availableTags s) (displayedTags s) (f (page s)) (requests s).
Definition log_request (rq : Request) (s : State) : State :=
  mkState (currentPage s) (resultsPerPage s) (allResults s) (currentResults s)
          (availableTags s) (displayedTags s) (page s) (requests s ++ [rq]).

(* ===================================================================== *)
(** * Computations: state and exceptions *)
(* ===================================================================== *)

Inductive Outcome (A : Type) :=
| Normal (a : A)
| Thrown (message : str).
Arguments Normal {A} a.
Arguments Thrown {A} message.

Definition M (A : Type) : Type := State → State * Outcome A.

#[global] Instance M_ret : MRet M := λ A a s, (s, Normal a).
#[global] Instance M_bind : MBind M := λ A B f m s,
  match m s with
  | (s', Normal a) => f a s'
  | (s', Thrown e) => (s', Thrown e)
  end.

Definition throw {A} (message : str) : M A := λ s, (s, Thrown message).
Definition get : M State := λ s, (s, Normal s).
Definition modify (f : State → State) : M unit := λ s, (f s, Normal tt).
Definition lift {A} (o : Outcome A) : M A := λ s, (s, o).

(** [try { body } catch (error) { handler(error.message) }] *)
Definition try_catch {A} (body : M A) (handler : str → M A) : M A := λ s,
  match body s with
  | (s', Normal a) => (s', Normal a)
  | (s', Thrown e) => handler e s'
  end.

(** [try { body } finally { final }] *)
Definition try_finally {A} (body : M A) (final : M unit) : M A := λ s,
  match body s with
  | (s', o) =>
      match final s' with
      | (s'', Normal _) => (s'', o)
      | (s'', Thrown e) => (s'', Thrown e)
      end
  end.

(** The state a computation ends in. *)
Definition exec {A} (m : M A) (s : State) : State := (m s).1.
Definition outcome {A} (m : M A) (s : State) : Outcome A := (m s).2.

(* ===================================================================== *)
(** * The network *)
(* ===================================================================== *)

(** A parsed JSON body: the optional [error] field and the rest. *)
Record Data (D : Type) := mkData {
  error : option str;
  content : D
}.
Arguments mkData {D} error content.
Arguments error {D} d.
Arguments content {D} d.

(** What [fetch] resolves to: [response.ok], and what [response.json()]
    settles to. *)
Record Response (D : Type) := mkResponse {
  ok : bool;
  body : Outcome (Data D)
}.
Arguments mkResponse {D} ok body.
Arguments ok {D} r.
Arguments body {D} r.

(** The body of a successful [/search] reply.  A reply with [ok] set is
    taken to carry the [results] array, as the interface promises. *)
Record SearchData := mkSearchData {
  query : str;
  results : list Result
}.

Record SimilarData := mkSimilarData {
  reference_sref : str;
  similar_results : list Result
}.

(** The [tags] field of a [/tags] reply: an array, or anything else
    (absent, [null], a number, a string, an object). *)
Inductive TagsField :=
| TagsArray (tags : list str)
| TagsOther.

(** The three end points; a rejected [fetch] is [Thrown]. *)
Record Network := mkNetwork {
  post_search : str → Outcome (Response SearchData);
  post_similar : str → Outcome (Response SimilarData);
  get_tags : Outcome (Response TagsField)
}.

Definition fetch {D} (rq : Request) (reply : Outcome (Response D)) : M (Response D) :=
  modify (log_request rq) ;; lift reply.

Definition json {D} (response : Response D) : M (Data D) := lift (body response).

(* ===================================================================== *)
(** * The methods of [SREFSearch] *)
(* ===================================================================== *)

(** The page before any script has run: markup that is not part of the
    sources, so it is a parameter of the constructor. *)
Definition initial_state (html : Page) : State :=
  {| currentPage := 1;
     resultsPerPage := 9;
     allResults := [];
     currentResults := [];
     availableTags := [];
     displayedTags := [];
     page := html;
     requests := [] |}.

Definition showLoading : M unit := modify (on_page (set_hidden loadingIndicator false)).
Definition hideLoading : M unit := modify (on_page (set_hidden loadingIndicator true)).
Definition showResults : M unit := modify (on_page (set_hidden resultsSection false)).
(** [hideResults] also stops the carousel timers; they are in [Timers]. *)
Definition hideResults : M unit := modify (on_page (set_hidden resultsSection true)).
Definition hideError : M unit := modify (on_page (set_hidden errorMessage true)).

Definition showError (message : str) : M unit :=
  modify (on_page (set_textContent errorText message)) ;;
  modify (on_page (set_hidden errorMessage false)).

(** [Math.ceil(this.allResults.length / this.resultsPerPage)] *)
Definition totalPages (s : State) : Z :=
  Js.ceil_div (Z.of_nat (length (allResults s))) (resultsPerPage s).

Definition createResultCard (result : Result) (rank : Z) : Card :=
  {| card_result := result;
     card_rank := rank;
     card_tags := extractTags (summary result) |}.

Definition displayCurrentPage : M unit :=
  modify (on_page (set_resultsContainer Blank)) ;;
  s ← get;
  let startIndex := ((currentPage s - 1) * resultsPerPage s)%Z in
  let endIndex := (startIndex + resultsPerPage s)%Z in
  modify (set_currentResults (Js.slice (allResults s) startIndex endIndex)) ;;
  s ← get;
  modify (on_page (set_resultsContainer
    (Cards (imap (λ index result,
                    createResultCard result (startIndex + Z.of_nat index + 1)%Z)
                 (currentResults s))))).

Definition page_of (p t : Z) : str :=
  Js.lit "Page " ++ Js.of_Z p ++ Js.lit " of " ++ Js.of_Z t.

Definition updatePagination : M unit :=
  s ← get;
  let totalPages := totalPages s in
  if (totalPages <=? 1)%Z then
    modify (on_page (set_hidden pagination true))
  else
    modify (on_page (set_hidden pagination false)) ;;
    modify (on_page (set_disabled prevButton (currentPage s =? 1)%Z)) ;;
    modify (on_page (set_disabled nextButton (currentPage s =? totalPages)%Z)) ;;
    modify (on_page (set_textContent paginationInfo (page_of (currentPage s) totalPages))).

Definition previousPage : M unit :=
  s ← get;
  if (1 <? currentPage s)%Z then
    modify (set_currentPage (currentPage s - 1)) ;;
    displayCurrentPage ;;
    updatePagination
  else mret tt.

Definition nextPage : M unit :=
  s ← get;
  let totalPages := totalPages s in
  if (currentPage s <? totalPages)%Z then
    modify (set_currentPage (currentPage s + 1)) ;;
    displayCurrentPage ;;
    updatePagination
  else mret tt.

Definition quote : Js.char := 34%N.

Definition no_results_text : str :=
  Js.lit "No SREF styles found matching your search. Try different keywords or check the examples above.".

Definition no_similar_text : str := Js.lit "No similar SREF styles found.".

(** The common tail of [displayResults] and [displaySimilarResults]. *)
Definition display_list (title empty_text : str) : M unit :=
  modify (on_page (set_textContent resultsTitle title)) ;;
  modify (on_page (set_resultsContainer Blank)) ;;
  s ← get;
  (if decide (length (allResults s) = 0) then
     modify (on_page (set_resultsContainer (NoResults empty_text)))
   else
     updatePagination ;;
     displayCurrentPage) ;;
  showResults.

Definition displayResults (data : SearchData) : M unit :=
  display_list (Js.lit "Results for " ++ [quote] ++ query data ++ [quote])
               no_results_text.

Definition displaySimilarResults (data : SimilarData) : M unit :=
  display_list (Js.lit "Similar to " ++ reference_sref data) no_similar_text.

Definition search_url : str := Js.lit "/search".
Definition similar_url : str := Js.lit "/similar".
Definition tags_url : str := Js.lit "/tags".

Definition empty_query_text : str := Js.lit "Please enter a search term".

(** [performSearch(query = null)] *)
Definition performSearch (net : Network) (query : option str) : M unit :=
  s ← get;
  let searchQuery := Js.or_else query (Js.trim (searchInput (page s))) in
  if decide (searchQuery = []) then
    showError empty_query_text
  else
    showLoading ;;
    hideError ;;
    hideResults ;;
    try_finally
      (try_catch
         (response ← fetch (mkRequest search_url (Some searchQuery))
                           (post_search net searchQuery);
          data ← json response;
          if negb (ok response) then
            throw (Js.or_else (error data) (Js.lit "Search failed"))
          else
            modify (set_allResults (results (content data))) ;;
            modify (set_currentPage 1) ;;
            displayResults (content data))
         (λ message, showError (Js.lit "Search failed: " ++ message)))
      hideLoading.

(** The global [findSimilarSREFs(srefCode)], with [window.srefSearch]
    initialised. *)
Definition findSimilarSREFs (net : Network) (srefCode : str) : M unit :=
  try_finally
    (try_catch
       (showLoading ;;
        hideError ;;
        hideResults ;;
        response ← fetch (mkRequest similar_url (Some srefCode))
                         (post_similar net srefCode);
        data ← json response;
        if negb (ok response) then
          throw (Js.or_else (error data) (Js.lit "Similar search failed"))
        else
          modify (on_page (set_searchInput (Js.lit "Similar to " ++ srefCode))) ;;
          modify (set_allResults (similar_results (content data))) ;;
          modify (set_currentPage 1) ;;
          displaySimilarResults (content data))
       (λ message, showError (Js.lit "Similar search failed: " ++ message)))
    hideLoading.

(** The globals [searchExample(query)] and [searchByTag(tag)].  Both also
    focus the input; the focus listener only hides the error box, which
    [performSearch] sets again in either branch. *)
Definition searchExample (net : Network) (query : str) : M unit :=
  modify (on_page (set_searchInput query)) ;;
  performSearch net None.

Definition searchByTag (net : Network) (tag : str) : M unit :=
  modify (on_page (set_searchInput tag)) ;;
  performSearch net (Some tag).

(* ===================================================================== *)
(** * Example tags: [loadTags], [displayTags], [shuffleExamples] *)
(* ===================================================================== *)

Definition fallback_tags : list str :=
  [ Js.lit "abstract"; Js.lit "art"; Js.lit "photorealistic"; Js.lit "portrait";
    Js.lit "minimalist"; Js.lit "design"; Js.lit "nature"; Js.lit "landscape";
    Js.lit "geometric"; Js.lit "patterns"; Js.lit "colorful"; Js.lit "painting";
    Js.lit "dark"; Js.lit "moody"; Js.lit "atmosphere" ].

(** The element [exampleTags] is taken to exist in the page. *)
Definition displayTags : M unit :=
  s ← get;
  modify (set_displayedTags (Js.slice (availableTags s) 0 6)) ;;
  s ← get;
  modify (on_page (set_exampleTags (displayedTags s))).

(** [this.availableTags = data.tags; this.displayTags();]  A value that
    is not an array has no usable [slice] and [map]: [displayTags] throws
    a TypeError, and the handler of [loadTags] then overwrites what
    these two statements had assigned. *)
Definition adopt_tags (field : TagsField) : M unit :=
  match field with
  | TagsArray tags => modify (set_availableTags tags) ;; displayTags
  | TagsOther => throw (Js.lit "TypeError")
  end.

Definition loadTags (net : Network) : M unit :=
  try_catch
    (response ← fetch (mkRequest tags_url None) (get_tags net);
     data ← json response;
     if negb (ok response) then
       throw (Js.or_else (error data) (Js.lit "Failed to load tags"))
     else
       adopt_tags (content data))
    (λ _,
       modify (set_availableTags fallback_tags) ;;
       displayTags).

(** A value of [Math.random()]: a fraction [numerator / denominator] in
    the interval from 0 (included) to 1 (excluded). *)
Record Draw := mkDraw {
  numerator : nat;
  denominator : nat;
  below_one : (numerator <? denominator)%nat = true
}.

(** [Math.floor(r * n)] *)
Definition floor_times (r : Draw) (n : nat) : nat :=
  (numerator r * n) `div` denominator r.

(** [[a[i], a[j]] = [a[j], a[i]]]; [None] if an index is outside [a]
    (where JavaScript would read [undefined] and grow the array). *)
Definition swap {A} (a : list A) (i j : nat) : option (list A) :=
  x ← a !! i;
  y ← a !! j;
  Some (<[j := x]> (<[i := y]> a)).

(** The loop [for (let i = ...; i > 0; i--)], entered with counter [i];
    [random k] is the value of the [k]-th call of [Math.random()]. *)
Fixpoint shuffle_loop {A} (random : nat → Draw) (k i : nat) (a : list A)
  : option (list A) :=
  match i with
  | 0 => Some a
  | S i' =>
      let j := floor_times (random k) (i + 1) in
      a' ← swap a i j;
      shuffle_loop random (S k) i' a'
  end.

(** The shuffled copy [[...this.availableTags]]. *)
Definition shuffled_copy {A} (random : nat → Draw) (a : list A) : option (list A) :=
  shuffle_loop random 0 (length a - 1) a.

Definition shuffleExamples (random : nat → Draw) : M unit :=
  s ← get;
  if decide (length (availableTags s) = 0) then mret tt
  else
    match shuffled_copy random (availableTags s) with
    | Some shuffled =>
        modify (set_displayedTags (Js.slice shuffled 0 6)) ;;
        s ← get;
        modify (on_page (set_exampleTags (displayedTags s)))
    | None => throw (Js.lit "index out of range")   (* does not occur *)
    end.

(* ===================================================================== *)
(** * The markup of a card: tags, and the copy button *)
(* ===================================================================== *)

(** One tag of a card, as [createResultCard] writes it into [innerHTML]. *)
Definition tag_span (tag : str) : str :=
  Js.lit "<span class=" ++ [quote] ++ Js.lit "tag" ++ [quote]
  ++ Js.lit " onclick=" ++ [quote] ++ Js.lit "searchByTag('" ++ tag
  ++ Js.lit "')" ++ [quote] ++ Js.lit ">" ++ tag ++ Js.lit "</span>".

(** [tags.map(...).join("")] *)
Definition tagsHtml (result : Result) : str :=
  concat (tag_span <$> extractTags (summary result)).

Module Copy.

(** Elements of a card, as the markup of [createResultCard] nests them:
    the card has four children, and the two buttons are the children of
    [card-top-actions]. *)
Inductive Node :=
| carouselContainer
| cardTopActions
| copyButton
| similarButton
| copyFeedback
| cardBottomTags.

#[global] Instance Node_eq_dec : EqDecision Node.
Proof. solve_decision. Defined.

Definition nextElementSibling (n : Node) : option Node :=
  match n with
  | carouselContainer => Some cardTopActions
  | cardTopActions => Some copyFeedback
  | copyFeedback => Some cardBottomTags
  | cardBottomTags => None
  | copyButton => Some similarButton
  | similarButton => None
  end.

(** The classes [copied] and [show] of the elements, the text on the
    clipboard, and the callbacks waiting for their 2000 ms: each resets
    an element and its feedback. *)
Record Card := mkCard {
  copied : Node → bool;
  show : Node → bool;
  clipboard : option str;
  timeouts : list (Node * Node)
}.

Definition fresh_card : Card :=
  {| copied := λ _, false; show := λ _, false; clipboard := None; timeouts := [] |}.

(** [navigator.clipboard]: missing, or its [writeText] resolves or
    rejects. *)
Inductive Clipboard := NoClipboard | Resolves | Rejects.

#[global] Instance Clipboard_eq_dec : EqDecision Clipboard.
Proof. solve_decision. Defined.

Definition set_copied (n : Node) (b : bool) (c : Card) : Card :=
  {| copied := <[n := b]> (copied c); show := show c;
     clipboard := clipboard c; timeouts := timeouts c |}.

Definition set_show (n : Node) (b : bool) (c : Card) : Card :=
  {| copied := copied c; show := <[n := b]> (show c);
     clipboard := clipboard c; timeouts := timeouts c |}.

Definition set_clipboard (text : str) (c : Card) : Card :=
  {| copied := copied c; show := show c;
     clipboard := Some text; timeouts := timeouts c |}.

Definition setTimeout (element feedback : Node) (c : Card) : Card :=
  {| copied := copied c; show := show c;
     clipboard := clipboard c; timeouts := timeouts c ++ [(element, feedback)] |}.

(** The end of both callbacks: the feedback, and the timer that takes
    it back.  Without a next sibling, [feedback.classList] throws. *)
Definition show_feedback (element : Node) (c : Card) : Card * Outcome unit :=
  match nextElementSibling element with
  | Some feedback =>
      (setTimeout element feedback (set_show feedback true (set_copied element true c)),
       Normal tt)
  | None => (set_copied element true c, Thrown (Js.lit "TypeError"))
  end.

(** The callback of [catch]: the copy through a text area; [copies]
    tells whether [execCommand] copies. *)
Definition fallback (copies : bool) (srefCode : str) (element : Node) (c : Card)
    : Card * Outcome unit :=
  show_feedback element (if copies then set_clipboard srefCode c else c).

(** [copySREF], run until its promise has settled. *)
Definition copySREF (env : Clipboard) (copies : bool) (srefCode : str)
    (element : Node) (c : Card) : Card * Outcome unit :=
  match env with
  | NoClipboard => (c, Thrown (Js.lit "TypeError"))
  | Resolves =>
      match show_feedback element (set_clipboard srefCode c) with
      | (c', Normal _) => (c', Normal tt)
      | (c', Thrown _) => fallback copies srefCode element c'
      end
  | Rejects => fallback copies srefCode element c
  end.

(** The oldest waiting callback runs. *)
Definition timeout (c : Card) : Card :=
  match timeouts c with
  | [] => c
  | (element, feedback) :: rest =>
      {| copied := <[element := false]> (copied c);
         show := <[feedback := false]> (show c);
         clipboard := clipboard c;
         timeouts := rest |}
  end.

(** The copy button of the card is pressed, with [this] as the element;
    a timer runs. *)
Inductive Event :=
| CopyClicked (env : Clipboard) (copies : bool) (srefCode : str)
| TimeoutRuns.

Definition handle (ev : Event) (c : Card) : Card :=
  match ev with
  | CopyClicked env copies srefCode => (copySREF env copies srefCode copyButton c).1
  | TimeoutRuns => timeout c
  end.

Definition run (evs : list Event) (c : Card) : Card :=
  foldl (λ c ev, handle ev c) c evs.

End Copy.

(* ===================================================================== *)
(** * The carousel of a card *)
(* ===================================================================== *)

Module Carousel.

(** What [navigateCarousel] reads and writes in the markup of a card. *)
Record Carousel := mkCarousel {
  images : list str;        (* src of the children of .carousel-images *)
  current : Z;              (* dataset.current, as parseInt reads it *)
  transform : option str;   (* style.transform of .carousel-images *)
  dots : list bool          (* the class active of each .carousel-dot *)
}.

Definition image_src (thumb : str) : str := Js.lit "/static/images/" ++ thumb.

(** The carousel in the markup that [createResultCard] writes. *)
Definition card_carousel (result : Result) : Carousel :=
  {| images := image_src <$> thumbnails result;
     current := 0;
     transform := None;
     dots := imap (λ index _, bool_decide (index = 0)) (thumbnails result) |}.

Definition translateX (index : Z) : str :=
  Js.lit "translateX(-" ++ Js.of_Z (index * 100) ++ Js.lit "%)".

(** The three updates that end [navigateCarousel], and [advanceImage]:
    the position, [dataset.current], and the dots. *)
Definition move_to (newIndex : Z) (c : Carousel) : Carousel :=
  {| images := images c;
     current := newIndex;
     transform := Some (translateX newIndex);
     dots := imap (λ index _, (Z.of_nat index =? newIndex)%Z) (dots c) |}.

Definition navigateCarousel (direction : Z) (c : Carousel) : Carousel :=
  let currentIndex := current c in
  let totalImages := Z.of_nat (length (images c)) in
  let newIndex := (currentIndex + direction)%Z in
  let newIndex := if (newIndex <? 0)%Z then (totalImages - 1)%Z else newIndex in
  let newIndex := if (totalImages <=? newIndex)%Z then 0%Z else newIndex in
  move_to newIndex c.

End Carousel.

(* ===================================================================== *)
(** * The image modal *)
(* ===================================================================== *)

Module Modal.

(** A number used as an index: an integer or [NaN]. *)
Inductive Index := Num (z : Z) | NaN.

#[global] Instance Index_eq_dec : EqDecision Index.
Proof. solve_decision. Defined.

(** [x + z] and [x % n] for an integer [n]: the sign of a remainder is
    that of the dividend, and the remainder by 0 is [NaN]. *)
Definition add (x : Index) (z : Z) : Index :=
  match x with Num a => Num (a + z) | NaN => NaN end.

Definition rem (x : Index) (n : Z) : Index :=
  match x with
  | Num a => if (n =? 0)%Z then NaN else Num (Z.rem a n)
  | NaN => NaN
  end.

(** [i === index] for an array index [i] *)
Definition strict_equal (i : nat) (index : Index) : bool :=
  match index with Num z => (Z.of_nat i =? z)%Z | NaN => false end.

(** One modal: its images, its dots, and the variable [currentIndex] of
    the call of [openImageModal] that made it. *)
Record Modal := mkModal {
  images : list str;        (* src of each image *)
  display : list bool;      (* style.display of each image is block *)
  dots : list bool;         (* the class active of each dot *)
  currentIndex : Index
}.

(** The document: every modal made so far, by order of creation; the
    modals that are children of [document.body]; the modals whose
    [keyHandler] listens for [keydown], in the order of registration. *)
Record Document := mkDocument {
  modals : list Modal;
  body : list nat;
  keydown : list nat
}.

Definition empty_document : Document :=
  {| modals := []; body := []; keydown := [] |}.

Definition showImage (index : Index) (m : Modal) : Modal :=
  {| images := images m;
     display := imap (λ i _, strict_equal i index) (display m);
     dots := imap (λ i _, strict_equal i index) (dots m);
     currentIndex := index |}.

Definition nextImage (m : Modal) : Modal :=
  let nextIndex := rem (add (currentIndex m) 1) (Z.of_nat (length (images m))) in
  showImage nextIndex m.

Definition prevImage (m : Modal) : Modal :=
  let len := Z.of_nat (length (images m)) in
  let prevIndex := rem (add (add (currentIndex m) (-1)) len) len in
  showImage prevIndex m.

(** A function of the closure of modal [id] is run. *)
Definition on_modal (id : nat) (f : Modal → Modal) (d : Document) : Document :=
  {| modals := alter f id (modals d); body := body d; keydown := keydown d |}.

(** [document.body.removeChild(modal)]: a node that is not a child of
    the body makes it throw. *)
Definition removeChild (id : nat) (d : Document) : Document * Outcome unit :=
  if decide (id ∈ body d) then
    ({| modals := modals d;
        body := filter (λ child, child ≠ id) (body d);
        keydown := keydown d |}, Normal tt)
  else (d, Thrown (Js.lit "NotFoundError")).

Definition removeEventListener (id : nat) (d : Document) : Document :=
  {| modals := modals d;
     body := body d;
     keydown := filter (λ listener, listener ≠ id) (keydown d) |}.

Definition openImageModal (srefCode : str) (startIndex : Z) (s : State)
    (d : Document) : Document :=
  match list_find (λ r, sref_code r = srefCode) (allResults s) with
  | None => d
  | Some (_, result) =>
      let shown := imap (λ index _, (Z.of_nat index =? startIndex)%Z)
                        (thumbnails result) in
      let modal := {| images := Carousel.image_src <$> thumbnails result;
                      display := shown;
                      dots := shown;
                      currentIndex := Num startIndex |} in
      let id := length (modals d) in
      {| modals := modals d ++ [modal];
         body := body d ++ [id];
         keydown := keydown d ++ [id] |}
  end.

(** The listener of the close button, and that of the background. *)
Definition close_click (id : nat) (d : Document) : Document * Outcome unit :=
  removeChild id d.

Definition keyHandler (id : nat) (key : str) (d : Document)
    : Document * Outcome unit :=
  if decide (key = Js.lit "Escape") then
    match removeChild id d with
    | (d', Normal _) => (removeEventListener id d', Normal tt)
    | (d', Thrown message) => (d', Thrown message)
    end
  else if decide (key = Js.lit "ArrowLeft") then (on_modal id prevImage d, Normal tt)
  else if decide (key = Js.lit "ArrowRight") then (on_modal id nextImage d, Normal tt)
  else (d, Normal tt).

(** A [keydown] event on the document: the listeners run in the order of
    their registration; what one of them throws is reported and the next
    one runs.  The result is the document and the reported errors. *)
Definition dispatch_keydown (key : str) (d : Document) : Document * list str :=
  foldl (λ acc id,
           match keyHandler id key acc.1 with
           | (d', Normal _) => (d', acc.2)
           | (d', Thrown message) => (d', acc.2 ++ [message])
           end)
        (d, []) (keydown d).

(** What the user can do: a click reaches a modal only while it is in
    the document, and only a dot that exists can be clicked. *)
Inductive Event :=
| Open (s : State) (srefCode : str) (startIndex : Z)
| NextArrow (id : nat)
| PrevArrow (id : nat)
| Dot (id index : nat)
| Close (id : nat)
| Background (id : nat)
| Key (key : str).

Definition handle (ev : Event) (d : Document) : Document :=
  match ev with
  | Open s srefCode startIndex => openImageModal srefCode startIndex s d
  | NextArrow id => if decide (id ∈ body d) then on_modal id nextImage d else d
  | PrevArrow id => if decide (id ∈ body d) then on_modal id prevImage d else d
  | Dot id index =>
      if decide (id ∈ body d) then
        on_modal id (λ m, if decide (index < length (dots m))
                          then showImage (Num (Z.of_nat index)) m else m) d
      else d
  | Close id | Background id =>
      if decide (id ∈ body d) then (close_click id d).1 else d
  | Key key => (dispatch_keydown key d).1
  end.

Definition run (evs : list Event) (d : Document) : Document :=
  foldl (λ d ev, handle ev d) d evs.

End Modal.

(* ===================================================================== *)
(** * The timers of the carousels *)
(* ===================================================================== *)

Module Timers.

(** The callbacks that [startAutoAdvance] hands to the browser; [card]
    is the call of [startAutoAdvance] whose variables they close over. *)
Inductive Callback :=
| InitialWait (card : nat)      (* the timeout of startCycle, 5000 ms *)
| Hold (card : nat)             (* the interval, 3000 ms *)
| CycleWait (card : nat).       (* cycleTimeout, 5000 ms *)

Definition card_of (cb : Callback) : nat :=
  match cb with InitialWait card | Hold card | CycleWait card => card end.

(** The variables of a call of [startAutoAdvance] that went past its
    guard; [totalImages] is the number of dots of the carousel. *)
Record Closure := mkClosure {
  srefCode : str;
  carousel : Carousel.Carousel;
  currentIndex : Z;
  isPaused : bool
}.

(** The closures by order of creation, the timers of the browser that
    have not been cleared (timeouts and intervals draw their ids from
    one counter), and the two maps of the [SREFSearch] object. *)
Record Timers := mkTimers {
  closures : list Closure;
  scheduled : gmap nat Callback;
  next_id : nat;
  autoAdvanceIntervals : gmap str nat;
  autoAdvanceTimeouts : gmap str nat
}.

Definition empty_timers : Timers :=
  {| closures := []; scheduled := ∅; next_id := 0;
     autoAdvanceIntervals := ∅; autoAdvanceTimeouts := ∅ |}.

Definition set_closures (v : list Closure) (t : Timers) : Timers :=
  {| closures := v; scheduled := scheduled t; next_id := next_id t;
     autoAdvanceIntervals := autoAdvanceIntervals t;
     autoAdvanceTimeouts := autoAdvanceTimeouts t |}.

Definition set_intervals (v : gmap str nat) (t : Timers) : Timers :=
  {| closures := closures t; scheduled := scheduled t; next_id := next_id t;
     autoAdvanceIntervals := v;
     autoAdvanceTimeouts := autoAdvanceTimeouts t |}.

Definition set_timeouts (v : gmap str nat) (t : Timers) : Timers :=
  {| closures := closures t; scheduled := scheduled t; next_id := next_id t;
     autoAdvanceIntervals := autoAdvanceIntervals t;
     autoAdvanceTimeouts := v |}.

(** [setTimeout] and [setInterval]: the new id, and the timer table. *)
Definition set_timer (cb : Callback) (t : Timers) : nat * Timers :=
  (next_id t,
   {| closures := closures t;
      scheduled := <[next_id t := cb]> (scheduled t);
      next_id := S (next_id t);
      autoAdvanceIntervals := autoAdvanceIntervals t;
      autoAdvanceTimeouts := autoAdvanceTimeouts t |}).

(** [clearTimeout] and [clearInterval] *)
Definition clear_timer (id : nat) (t : Timers) : Timers :=
  {| closures := closures t;
     scheduled := delete id (scheduled t);
     next_id := next_id t;
     autoAdvanceIntervals := autoAdvanceIntervals t;
     autoAdvanceTimeouts := autoAdvanceTimeouts t |}.

Definition advanceImage (c : Closure) : Closure :=
  if isPaused c then c
  else
    let totalImages := Z.of_nat (length (Carousel.dots (carousel c))) in
    let currentIndex := Z.rem (currentIndex c + 1) totalImages in
    {| srefCode := srefCode c;
       carousel := Carousel.move_to currentIndex (carousel c);
       currentIndex := currentIndex;
       isPaused := isPaused c |}.

Definition startCycle (card : nat) (t : Timers) : Timers :=
  match closures t !! card with
  | None => t
  | Some c =>
      if isPaused c then t
      else
        let '(timeout, t) := set_timer (InitialWait card) t in
        set_timeouts (<[srefCode c := timeout]> (autoAdvanceTimeouts t)) t
  end.

Definition startAutoAdvance (c : Carousel.Carousel) (srefCode : str)
    (t : Timers) : Timers :=
  if decide (length (Carousel.dots c) ≤ 1) then t
  else
    let card := length (closures t) in
    let t := set_closures (closures t ++ [mkClosure srefCode c 0 false]) t in
    startCycle card t.

(** The listeners for [mouseenter] and [mouseleave] on the card. *)
Definition set_paused (card : nat) (b : bool) (t : Timers) : Timers :=
  set_closures
    (alter (λ c, {| srefCode := srefCode c; carousel := carousel c;
                    currentIndex := currentIndex c; isPaused := b |})
           card (closures t)) t.

(** The browser runs the callback of timer [id].  A timeout leaves the
    timer table when it runs, an interval stays. *)
Definition fire (id : nat) (t : Timers) : Timers :=
  match scheduled t !! id with
  | None => t
  | Some (InitialWait card) =>
      let t := clear_timer id t in
      match closures t !! card with
      | None => t
      | Some c =>
          if isPaused c then t
          else
            let '(interval, t) := set_timer (Hold card) t in
            set_intervals (<[srefCode c := interval]> (autoAdvanceIntervals t)) t
      end
  | Some (Hold card) =>
      match closures t !! card with
      | None => t
      | Some c =>
          if isPaused c then t
          else
            let c' := advanceImage c in
            let t := set_closures (<[card := c']> (closures t)) t in
            if (currentIndex c' =? 0)%Z then
              let t := clear_timer id t in
              let t := set_intervals (delete (srefCode c) (autoAdvanceIntervals t)) t in
              let '(cycleTimeout, t) := set_timer (CycleWait card) t in
              set_timeouts (<[srefCode c := cycleTimeout]> (autoAdvanceTimeouts t)) t
            else t
      end
  | Some (CycleWait card) =>
      let t := clear_timer id t in
      match closures t !! card with
      | None => t
      | Some c => if negb (isPaused c) then startCycle card t else t
      end
  end.


Definition stopAllAutoAdvance (t : Timers) : Timers :=
  let t := map_fold (λ _ interval t, clear_timer interval t) t
                    (autoAdvanceIntervals t) in
  let t := set_intervals ∅ t in
  let t := map_fold (λ _ timeout t, clear_timer timeout t) t
                    (autoAdvanceTimeouts t) in
  set_timeouts ∅ t.

(** The loop of [displayCurrentPage], for the timers. *)
Definition start_cards (results : list Result) (t : Timers) : Timers :=
  foldl (λ t result,
           startAutoAdvance (Carousel.card_carousel result) (sref_code result) t)
        t results.

(** An arrow of the carousel of a card is pressed. *)
Definition navigate (card : nat) (direction : Z) (t : Timers) : Timers :=
  set_closures
    (alter (λ c, {| srefCode := srefCode c;
                    carousel := Carousel.navigateCarousel direction (carousel c);
                    currentIndex := currentIndex c; isPaused := isPaused c |})
           card (closures t)) t.

(** What happens to the timers: a page of results is put up, which
    every caller of [displayCurrentPage] does after stopping all timers;
    the results are hidden; a timer runs; the mouse enters or leaves a
    card; an arrow of a carousel is pressed. *)
Inductive Event :=
| PageShown (results : list Result)
| ResultsHidden
| Fires (id : nat)
| MouseEnter (card : nat)
| MouseLeave (card : nat)
| Arrow (card : nat) (direction : Z).

Definition handle (ev : Event) (t : Timers) : Timers :=
  match ev with
  | PageShown results => start_cards results (stopAllAutoAdvance t)
  | ResultsHidden => stopAllAutoAdvance t
  | Fires id => fire id t
  | MouseEnter card => set_paused card true t
  | MouseLeave card => set_paused card false t
  | Arrow card direction => navigate card direction t
  end.

Definition run (evs : list Event) (t : Timers) : Timers :=
  foldl (λ t ev, handle ev t) t evs.

End Timers.

(* ===================================================================== *)
(** * The ranking service *)
(* ===================================================================== *)

#[global] Instance R_eq_dec : EqDecision R := Req_dec_T.

Module Service.

(** Modelled from the spec: the record StyleEntry of the embedding
    store (the store and its loader are not in the sources). *)
Record StyleEntry := mkEntry {
  code : str;
  embedding : list R;
  entry_summary : str;
  entry_thumbnails : list str
}.

(** Modelled from the spec: the store, in the stable order of
    all_entries(). *)
Abbreviation Store := (list StyleEntry).

(** Modelled from the spec: the invariant that codes are unique. *)
Definition unique_codes (store : Store) : Prop := NoDup (code <$> store).

(** Modelled from the spec: get(code); [None] is NotFoundError. *)
Definition get (store : Store) (c : str) : option StyleEntry :=
  snd <$> list_find (λ e, code e = c) store.

(** Modelled from the spec: the dot product of two vectors. *)
Definition dot_product (u v : list R) : R :=
  foldr Rplus 0%R (zip_with Rmult u v).

(** Modelled from the spec: the magnitude of a vector. *)
Definition magnitude (v : list R) : R := sqrt (dot_product v v).

(** Modelled from the spec: a division that reports a zero divisor,
    the error that the ranker has to avoid. *)
Definition divide (a b : R) : option R :=
  if decide (b = 0%R) then None else Some (a / b)%R.

(** Modelled from the spec: the score of the Similarity Ranker (its
    code is not in the sources): the dot product divided by the product
    of the two magnitudes, and zero if either magnitude is zero.
    [None] would be a division by zero. *)
Definition cosine_similarity (q v : list R) : option R :=
  if decide (magnitude q = 0%R ∨ magnitude v = 0%R) then Some 0%R
  else divide (dot_product q v) (magnitude q * magnitude v).

(** Modelled from the spec: the score as a number. *)
Definition score (q v : list R) : R := default 0%R (cosine_similarity q v).

(** Modelled from the spec: an entry with its score. *)
Abbreviation Scored := (StyleEntry * R)%type.

(** Modelled from the spec: insertion into a list sorted by descending
    score; the new element goes before the first one whose score is not
    greater than its own. *)
Fixpoint insert_by_score (x : Scored) (l : list Scored) : list Scored :=
  match l with
  | [] => [x]
  | y :: l' =>
      if Rlt_dec x.2 y.2 then y :: insert_by_score x l' else x :: l
  end.

(** Modelled from the spec: a stable sort, descending by score. *)
Definition sort_by_score (l : list Scored) : list Scored :=
  foldr insert_by_score [] l.

(** Modelled from the spec: the entries that take part in a ranking,
    all but the one to exclude. *)
Definition kept (exclude : option str) (store : Store) : Store :=
  filter (λ e, exclude ≠ Some (code e)) store.

(** Modelled from the spec: an entry scored against the query. *)
Definition with_score (q : list R) (e : StyleEntry) : Scored :=
  (e, score q (embedding e)).

(** Modelled from the spec: rank(query_vector, store, exclude), here
    with the whole entry next to each score. *)
Definition rank_entries (q : list R) (store : Store) (exclude : option str)
  : list Scored :=
  sort_by_score (with_score q <$> kept exclude store).

(** Modelled from the spec: rank(query_vector, store, exclude) as the
    ordered sequence of (code, score). *)
Definition rank (q : list R) (store : Store) (exclude : option str)
  : list (str * R) :=
  (λ p : Scored, (code p.1, p.2)) <$> rank_entries q store exclude.

(** Modelled from the spec: the errors of a request. *)
Inductive Error := EmptyQueryError | NotFoundError | EncoderError.

(** Modelled from the spec: a ranked entry as a QueryResult. *)
Definition package (p : Scored) : Result :=
  {| sref_code := code p.1;
     similarity := p.2;
     summary := entry_summary p.1;
     thumbnails := entry_thumbnails p.1 |}.

(** Modelled from the spec: search_by_text, over a query encoder that
    may fail. *)
Definition search_by_text (encode : str → option (list R)) (store : Store)
    (query_text : str) : Error + list Result :=
  if decide (Js.trim query_text = []) then inl EmptyQueryError
  else match encode query_text with
       | None => inl EncoderError
       | Some q => inr (package <$> rank_entries q store None)
       end.

(** Modelled from the spec: search_by_code, the find-similar entry
    point. *)
Definition search_by_code (store : Store) (reference_code : str)
  : Error + list Result :=
  match get store reference_code with
  | None => inl NotFoundError
  | Some e =>
      inr (package <$> rank_entries (embedding e) store (Some reference_code))
  end.

(** Modelled from the spec: the message of an error reply; the spec asks
    for a readable message and does not fix its wording. *)
Definition error_text (e : Error) : str :=
  match e with
  | EmptyQueryError => Js.lit "No query provided"
  | NotFoundError => Js.lit "SREF code not found"
  | EncoderError => Js.lit "Search failed"
  end.

(** Modelled from the spec: the reply to a request, ok with the results
    or not ok with the message of the error. *)
Definition reply {D} (wrap : list Result → D) (r : Error + list Result)
  : Outcome (Response D) :=
  match r with
  | inr rs => Normal (mkResponse true (Normal (mkData None (wrap rs))))
  | inl e => Normal (mkResponse false (Normal (mkData (Some (error_text e)) (wrap []))))
  end.

(** Modelled from the spec: the three end points as the front end sees
    them, over a store, an encoder and a tag catalog. *)
Definition network (encode : str → option (list R)) (store : Store)
    (catalog : list str) : Network :=
  {| post_search := λ q, reply (mkSearchData q) (search_by_text encode store q);
     post_similar := λ c, reply (mkSimilarData c) (search_by_code store c);
     get_tags := Normal (mkResponse true (Normal (mkData None (TagsArray catalog)))) |}.

End Service.

(* ===================================================================== *)
(** * Runs of the application *)
(* ===================================================================== *)

(** What can happen after the constructor: the user acts, the network
    answers.  The constructor itself ends by requesting the tags. *)
Inductive Event :=
| Submit (net : Network) (query : option str)
| Typed (text : str)
| FindSimilar (net : Network) (srefCode : str)
| ExampleClicked (net : Network) (query : str)
| TagClicked (net : Network) (tag : str)
| PreviousClicked
| NextClicked
| TagsRequested (net : Network)
| ShuffleClicked (random : nat → Draw).

Definition handle (ev : Event) : M unit :=
  match ev with
  | Submit net query => performSearch net query
  | Typed text => modify (on_page (set_searchInput text))
  | FindSimilar net srefCode => findSimilarSREFs net srefCode
  | ExampleClicked net query => searchExample net query
  | TagClicked net tag => searchByTag net tag
  | PreviousClicked => previousPage
  | NextClicked => nextPage
  | TagsRequested net => loadTags net
  | ShuffleClicked random => shuffleExamples random
  end.

Definition run (evs : list Event) (s : State) : State :=
  foldl (λ s ev, exec (handle ev) s) s evs.

(** The states of a session: the constructor, then any events. *)
Inductive reachable : State → Prop :=
| reachable_initial html : reachable (initial_state html)
| reachable_step s ev : reachable s → reachable (exec (handle ev) s).

(* ===================================================================== *)
(** * Notions used to state the properties *)
(* ===================================================================== *)

(** A string that [trim] empties. *)
Definition is_blank (s : str) : bool := forallb Js.is_trimmed_char s.

(** The part of a string before its first space. *)
Fixpoint until_space (s : str) : str :=
  match s with
  | [] => []
  | c :: s' => if (c =? space)%N then [] else c :: until_space s'
  end.

(** The first word of a string when words are separated by white space
    of any kind. *)
Fixpoint until_white_space (s : str) : str :=
  match s with
  | [] => []
  | c :: s' => if Js.is_trimmed_char c then [] else c :: until_white_space s'
  end.

Definition first_white_space_word (s : str) : str :=
  until_white_space (Js.trimStart s).

(** The terms of a summary joined by a comma and a space. *)
Fixpoint join_terms (terms : list str) : str :=
  match terms with
  | [] => []
  | [t] => t
  | t :: ts => t ++ comma :: space :: join_terms ts
  end.

(** The documented summary format. *)
Definition key_themes_summary (terms : list str) : str :=
  key_themes_label ++ join_terms terms.

(** A term without comma and line break. *)
Definition one_line_term (t : str) : Prop :=
  Forall (λ c, c ≠ comma ∧ Js.is_line_terminator c = false) t.

(** A term that is one word of more than two code units. *)
Definition plain_term (t : str) : Prop :=
  2 < length t ∧ Forall (λ c, c ≠ comma ∧ Js.is_trimmed_char c = false) t.

(** The query that [performSearch] goes on with. *)
Definition effective_query (query : option str) (s : State) : str :=
  Js.or_else query (Js.trim (searchInput (page s))).

(** The data of a reply that the handlers accept: the request went
    through, the status is ok and the body parsed. *)
Definition accepted {D} (reply : Outcome (Response D)) : option D :=
  match reply with
  | Normal (mkResponse true (Normal data)) => Some (content data)
  | _ => None
  end.

(** The message that the handlers show for a reply they do not accept. *)
Definition refusal {D} (fallback : str) (reply : Outcome (Response D)) : str :=
  match reply with
  | Thrown message => message
  | Normal (mkResponse _ (Thrown message)) => message
  | Normal (mkResponse _ (Normal data)) => Js.or_else (error data) fallback
  end.

(** The array of tags of an accepted [/tags] reply. *)
Definition accepted_tags (reply : Outcome (Response TagsField)) : option (list str) :=
  match accepted reply with
  | Some (TagsArray tags) => Some tags
  | _ => None
  end.

(** What holds of the pagination fields and of the tags throughout a
    session. *)
Definition page_invariant (s : State) : Prop :=
  resultsPerPage s = 9%Z
  ∧ (1 ≤ currentPage s)%Z
  ∧ (allResults s ≠ [] →
     (currentPage s ≤ totalPages s)%Z
     ∧ hidden (page s) pagination = (totalPages s <=? 1)%Z)
  ∧ (availableTags s = [] → displayedTags s = []).

(** Descending order of the scores. *)
Definition by_score {A} (a b : A * R) : Prop := (b.2 <= a.2)%R.

(** The elements of a list that have the score [sc], in their order. *)
Definition ties {A} (sc : R) (l : list (A * R)) : list (A * R) :=
  filter (λ p, p.2 = sc) l.

(** The store of the worked example of the specification: A = (1,0),
    B = (0,1), C = (1,1). *)
Definition example_store : Service.Store :=
  [ Service.mkEntry (Js.lit "A") [1; 0]%R (Js.lit "Key themes: red") [];
    Service.mkEntry (Js.lit "B") [0; 1]%R (Js.lit "Key themes: blue") [];
    Service.mkEntry (Js.lit "C") [1; 1]%R (Js.lit "Key themes: green") [] ].

(** The codes on the cards that a results container shows. *)
Definition shown_codes (c : Container) : list str :=
  match c with
  | Cards cards => (λ card, sref_code (card_result card)) <$> cards
  | _ => []
  end.

(** A page and results to run the application on. *)
Definition example_page : Page :=
  {| searchInput := [];
     hidden := λ _, true;
     disabled := λ _, false;
     textContent := λ _, [];
     resultsContainer := Blank;
     exampleTags := [] |}.

Definition example_result (n : nat) : Result :=
  {| sref_code := Js.of_Z (Z.of_nat n);
     similarity := 0%R;
     summary := Js.lit "Key themes: painting, flowers";
     thumbnails := [] |}.

Definition example_results (n : nat) : list Result := example_result <$> seq 0 n.

(** A network whose [/search] and [/similar] answer with the given
    results and whose [/tags] answers with the given field. *)
Definition example_network (rs : list Result) (field : TagsField) : Network :=
  {| post_search := λ q, Normal (mkResponse true (Normal (mkData None (mkSearchData q rs))));
     post_similar := λ c, Normal (mkResponse true (Normal (mkData None (mkSimilarData c rs))));
     get_tags := Normal (mkResponse true (Normal (mkData None field))) |}.

(** A network that is down. *)
Definition offline : Network :=
  {| post_search := λ _, Thrown (Js.lit "Failed to fetch");
     post_similar := λ _, Thrown (Js.lit "Failed to fetch");
     get_tags := Thrown (Js.lit "Failed to fetch") |}.

(** The results and the cards that [displayCurrentPage] shows when the
    current page is [p]. *)
Definition page_results (s : State) (p : Z) : list Result :=
  currentResults (exec displayCurrentPage (set_currentPage p s)).

Definition page_cards (s : State) (p : Z) : Container :=
  resultsContainer (page (exec displayCurrentPage (set_currentPage p s))).

(** Two pages, and two states, that cannot be told apart: the fields
    are equal, those that are functions at every argument. *)
Definition same_page (p q : Page) : Prop :=
  searchInput p = searchInput q
  ∧ (∀ e, hidden p e = hidden q e)
  ∧ (∀ b, disabled p b = disabled q b)
  ∧ (∀ t, textContent p t = textContent q t)
  ∧ resultsContainer p = resultsContainer q
  ∧ exampleTags p = exampleTags q.

Definition same_state (s t : State) : Prop :=
  currentPage s = currentPage t
  ∧ resultsPerPage s = resultsPerPage t
  ∧ allResults s = allResults t
  ∧ currentResults s = currentResults t
  ∧ availableTags s = availableTags t
  ∧ displayedTags s = displayedTags t
  ∧ same_page (page s) (page t)
  ∧ requests s = requests t.

(** The part of the state that the result view is made of. *)
Definition same_view (s t : State) : Prop :=
  currentPage s = currentPage t
  ∧ resultsPerPage s = resultsPerPage t
  ∧ allResults s = allResults t
  ∧ currentResults s = currentResults t
  ∧ resultsContainer (page s) = resultsContainer (page t)
  ∧ hidden (page s) pagination = hidden (page t) pagination
  ∧ disabled (page s) = disabled (page t)
  ∧ textContent (page s) paginationInfo = textContent (page t) paginationInfo.

(** The page shows the current page of the result list: the cards, and
    the pagination controls as [updatePagination] sets them. *)
Definition shows_current_page (s : State) : Prop :=
  currentResults s = page_results s (currentPage s)
  ∧ resultsContainer (page s) = page_cards s (currentPage s)
  ∧ hidden (page s) pagination = (totalPages s <=? 1)%Z
  ∧ ((1 < totalPages s)%Z →
     disabled (page s) prevButton = (currentPage s =? 1)%Z
     ∧ disabled (page s) nextButton = (currentPage s =? totalPages s)%Z
     ∧ textContent (page s) paginationInfo
       = page_of (currentPage s) (totalPages s)).

(** What holds of the result view and of the example tags throughout a
    session. *)
Definition view_invariant (s : State) : Prop :=
  (allResults s = [] → currentPage s = 1%Z)
  ∧ (allResults s ≠ [] → shows_current_page s)
  ∧ (∃ shuffled, shuffled ≡ₚ availableTags s
                 ∧ displayedTags s = take 6 shuffled)
  ∧ (availableTags s ≠ [] → exampleTags (page s) = displayedTags s).

(** The index that [navigateCarousel] moves to. *)
Definition wrapped (n x : Z) : Z :=
  let x := if (x <? 0)%Z then (n - 1)%Z else x in
  if (n <=? x)%Z then 0%Z else x.

(** A modal shows image [k] and nothing else. *)
Definition modal_shows (m : Modal.Modal) (k : Z) : Prop :=
  Modal.currentIndex m = Modal.Num k
  ∧ (0 ≤ k < Z.of_nat (length (Modal.images m)))%Z
  ∧ length (Modal.display m) = length (Modal.images m)
  ∧ (∀ i : nat, Modal.display m !! i = Some true ↔ Z.of_nat i = k)
  ∧ Modal.dots m = Modal.display m.

(** The image that is clicked exists in the result that the modal is
    made from. *)
Definition open_in_range (ev : Modal.Event) : Prop :=
  match ev with
  | Modal.Open s srefCode startIndex =>
      ∀ i result,
        list_find (λ r, sref_code r = srefCode) (allResults s) = Some (i, result) →
        (0 ≤ startIndex < Z.of_nat (length (thumbnails result)))%Z
  | _ => True
  end.

(** What holds of the document whatever the user does. *)
Definition document_invariant (d : Modal.Document) : Prop :=
  NoDup (Modal.body d)
  ∧ NoDup (Modal.keydown d)
  ∧ (∀ id, id ∈ Modal.keydown d → id < length (Modal.modals d))
  ∧ (∀ id, id ∈ Modal.body d → id ∈ Modal.keydown d).

(** A modal that has left the document while its [keyHandler] still
    listens. *)
Definition stale (id : nat) (d : Modal.Document) : Prop :=
  (id ∉ Modal.body d) ∧ id ∈ Modal.keydown d ∧ id < length (Modal.modals d).

(** Every modal shows one of its images. *)
Definition all_shown (d : Modal.Document) : Prop :=
  ∀ id m, Modal.modals d !! id = Some m → ∃ k, modal_shows m k.

(** The cards of a page have different codes. *)
Definition distinct_codes (ev : Timers.Event) : Prop :=
  match ev with
  | Timers.PageShown results => NoDup (sref_code <$> results)
  | _ => True
  end.

(** Every timer of the browser is the value of one of the two maps at
    the code of its card. *)
Definition registered (codes : list str) (sched : gmap nat Timers.Callback)
    (next : nat) (intervals timeouts : gmap str nat) : Prop :=
  ∀ id cb,
    sched !! id = Some cb →
    id < next
    ∧ ∃ code,
        codes !! Timers.card_of cb = Some code
        ∧ match cb with
          | Timers.Hold _ => intervals !! code = Some id
          | _ => timeouts !! code = Some id
          end.

(** No two timers belong to cards with the same code. *)
Definition one_per_code (codes : list str) (sched : gmap nat Timers.Callback)
    : Prop :=
  ∀ id1 id2 cb1 cb2 code,
    sched !! id1 = Some cb1 → sched !! id2 = Some cb2 →
    codes !! Timers.card_of cb1 = Some code →
    codes !! Timers.card_of cb2 = Some code →
    id1 = id2.

Definition timers_invariant (t : Timers.Timers) : Prop :=
  registered (Timers.srefCode <$> Timers.closures t) (Timers.scheduled t)
             (Timers.next_id t) (Timers.autoAdvanceIntervals t)
             (Timers.autoAdvanceTimeouts t)
  ∧ one_per_code (Timers.srefCode <$> Timers.closures t) (Timers.scheduled t).

(** No timer belongs to the card. *)
Definition idle (card : nat) (t : Timers.Timers) : Prop :=
  card < length (Timers.closures t)
  ∧ ∀ id cb, Timers.scheduled t !! id = Some cb → Timers.card_of cb ≠ card.

(** The carousel of a card after the timer has moved it to image [j]. *)
Definition advanced (result : Result) (j : nat) : Carousel.Carousel :=
  match j with
  | 0 => Carousel.card_carousel result
  | S _ => Carousel.move_to (Z.of_nat j) (Carousel.card_carousel result)
  end.

(** The state while the interval of the new card runs: [j] images on. *)
Definition holding (result : Result) (t : Timers.Timers) (j : nat) : Timers.Timers :=
  {| Timers.closures :=
       Timers.closures t
       ++ [Timers.mkClosure (sref_code result) (advanced result j) (Z.of_nat j) false];
     Timers.scheduled := {[ S (Timers.next_id t) := Timers.Hold (length (Timers.closures t)) ]};
     Timers.next_id := S (S (Timers.next_id t));
     Timers.autoAdvanceIntervals :=
       <[sref_code result := S (Timers.next_id t)]> (Timers.autoAdvanceIntervals t);
     Timers.autoAdvanceTimeouts :=
       <[sref_code result := Timers.next_id t]> (Timers.autoAdvanceTimeouts t) |}.

(** A result with three images, and a state whose list holds it. *)
Definition example_gallery : Result :=
  {| sref_code := Js.lit "7";
     similarity := 0%R;
     summary := Js.lit "Key themes: painting, flowers";
     thumbnails := [Js.lit "a.png"; Js.lit "b.png"; Js.lit "c.png"] |}.

Definition gallery_state : State :=
  set_allResults [example_gallery] (initial_state example_page).

(** The only marks on a card are those that a press of the copy button
    leaves; every waiting callback is one of that button; without a
    waiting callback nothing is marked. *)
Definition tidy (c : Copy.Card) : Prop :=
  (∀ n, Copy.show c n = true → n = Copy.similarButton)
  ∧ (∀ n, Copy.copied c n = true → n = Copy.copyButton)
  ∧ Forall (λ p, p = (Copy.copyButton, Copy.similarButton)) (Copy.timeouts c)
  ∧ (Copy.timeouts c = [] → ∀ n, Copy.show c n = false ∧ Copy.copied c n = false).

(* ===================================================================== *)
(** * Facts about strings and arrays *)
(* ===================================================================== *)

Section js_facts.

Lemma slice_nonneg {A} (a : list A) (i j : Z) :
  (0 ≤ i)%Z → (i ≤ j)%Z →
  Js.slice a i j = take (Z.to_nat (j - i)) (drop (Z.to_nat i) a).
Proof.
  intros Hi Hj. unfold Js.slice, Js.relative_index.
  destruct (Z.ltb_spec i 0); [lia|].
  destruct (Z.ltb_spec j 0); [lia|].
  destruct (decide (Z.of_nat (length a) ≤ i)%Z) as [Hge|Hlt].
  - rewrite !drop_ge by lia. by rewrite !take_nil.
  - rewrite (Z.min_l i) by lia.
    destruct (decide (j ≤ Z.of_nat (length a))%Z).
    + by rewrite (Z.min_l j) by lia.
    + rewrite (Z.min_r j) by lia.
      rewrite !take_ge; [done| |]; rewrite length_drop; lia.
Qed.

Lemma slice_from_0 {A} (a : list A) (n : nat) :
  Js.slice a 0 (Z.of_nat n) = take n a.
Proof.
  rewrite slice_nonneg by lia. simpl. f_equal. lia.
Qed.

Lemma split_nonempty sep s : Js.split sep s ≠ [].
Proof.
  destruct s as [|c s]; simpl; [done|].
  destruct (c =? sep)%N; [done|]. by destruct (Js.split sep s).
Qed.

Lemma split_no_sep sep s :
  Forall (λ c, c ≠ sep) s → Js.split sep s = [s].
Proof.
  induction 1 as [|c s Hc _ IH]; simpl; [done|].
  destruct (N.eqb_spec c sep); [done|]. by rewrite IH.
Qed.

Lemma split_app sep s rest :
  Forall (λ c, c ≠ sep) s →
  Js.split sep (s ++ sep :: rest) = s :: Js.split sep rest.
Proof.
  induction 1 as [|c s Hc _ IH]; simpl.
  - by rewrite N.eqb_refl.
  - destruct (N.eqb_spec c sep); [done|]. by rewrite IH.
Qed.

(** [s.split(" ")[0]] is the part of [s] before the first space. *)
Lemma split_space_first s :
  Js.first (Js.split space s) = Some (until_space s).
Proof.
  induction s as [|c s IH]; simpl; [done|].
  destruct (c =? space)%N; [done|].
  unfold Js.first in IH.
  destruct (Js.split space s) as [|w ws]; simplify_eq/=; done.
Qed.

Lemma first_word_until_space tag :
  first_word tag = until_space (Js.trim tag).
Proof. unfold first_word. by rewrite split_space_first. Qed.

Lemma trimStart_id s :
  Forall (λ c, Js.is_trimmed_char c = false) s → Js.trimStart s = s.
Proof. destruct 1 as [|c s Hc _]; simpl; [done|]. by rewrite Hc. Qed.

Lemma trim_id s :
  Forall (λ c, Js.is_trimmed_char c = false) s → Js.trim s = s.
Proof.
  intros H. unfold Js.trim, Js.trimEnd.
  rewrite (trimStart_id s H), trimStart_id, reverse_involutive; [done|].
  by apply Forall_reverse.
Qed.

Lemma trimStart_blank s :
  Js.trimStart s = [] ↔ is_blank s = true.
Proof.
  induction s as [|c s IH]; simpl; [done|].
  destruct (Js.is_trimmed_char c); simpl; [done|]. split; done.
Qed.

Lemma trimStart_suffix s : ∃ pre, s = pre ++ Js.trimStart s ∧ is_blank pre = true.
Proof.
  induction s as [|c s (pre & IH & Hpre)]; simpl.
  - by exists [].
  - destruct (Js.is_trimmed_char c) eqn:Hc.
    + exists (c :: pre). simpl. rewrite Hc, Hpre. split; [|done]. by f_equal.
    + by exists [].
Qed.

Lemma is_blank_app s t : is_blank (s ++ t) = is_blank s && is_blank t.
Proof. apply forallb_app. Qed.

Lemma is_blank_reverse s : is_blank (reverse s) = is_blank s.
Proof.
  induction s as [|c s IH]; [done|].
  rewrite reverse_cons, is_blank_app, IH. simpl.
  rewrite andb_true_r. apply andb_comm.
Qed.

(** [trim] empties exactly the blank strings. *)
Lemma trim_blank s : Js.trim s = [] ↔ is_blank s = true.
Proof.
  unfold Js.trim, Js.trimEnd. split.
  - intros H. apply (f_equal reverse) in H. rewrite reverse_involutive in H.
    rewrite reverse_nil in H. apply trimStart_blank in H.
    rewrite is_blank_reverse in H.
    destruct (trimStart_suffix s) as (pre & Hs & Hpre).
    rewrite Hs, is_blank_app, Hpre, H. done.
  - intros H. apply trimStart_blank in H. rewrite H. done.
Qed.

Lemma trimStart_cons_blank c s :
  Js.is_trimmed_char c = true → Js.trimStart (c :: s) = Js.trimStart s.
Proof. simpl. by intros ->. Qed.

Lemma trim_cons_blank c s :
  Js.is_trimmed_char c = true → Js.trim (c :: s) = Js.trim s.
Proof. intros H. unfold Js.trim. by rewrite trimStart_cons_blank. Qed.

Lemma strip_prefix_app p s : Js.strip_prefix p (p ++ s) = Some s.
Proof. induction p as [|a p IH]; simpl; [done|]. by rewrite N.eqb_refl. Qed.

Lemma strip_prefix_Some p s rest :
  Js.strip_prefix p s = Some rest → s = p ++ rest.
Proof.
  revert s. induction p as [|a p IH]; intros [|b s]; simpl; try by intros [= ->].
  destruct (N.eqb_spec a b) as [->|]; [|done]. intros H. f_equal. by apply IH.
Qed.

Lemma dot_plus_one_line s :
  Forall (λ c, Js.is_line_terminator c = false) s → Js.dot_plus s = s.
Proof. induction 1 as [|c s Hc _ IH]; simpl; [done|]. by rewrite Hc, IH. Qed.

Lemma dot_plus_Forall s :
  Forall (λ c, Js.is_line_terminator c = false) (Js.dot_plus s).
Proof.
  induction s as [|c s IH]; simpl; [done|].
  destruct (Js.is_line_terminator c) eqn:Hc; [done|]. by constructor.
Qed.

Lemma includes_cons p c s :
  Js.includes p (c :: s) =
  match Js.strip_prefix p (c :: s) with
  | Some _ => true
  | None => Js.includes p s
  end.
Proof. done. Qed.

Lemma match_key_themes_cons c s :
  match_key_themes (c :: s) =
  match key_themes_here (c :: s) with
  | Some cap => Some cap
  | None => match_key_themes s
  end.
Proof. done. Qed.

(** Where [.+] stops: at the end, or in front of a line terminator. *)
Lemma dot_plus_rest s :
  ∃ post, s = Js.dot_plus s ++ post ∧
          head (Js.is_line_terminator <$> post) ≠ Some false.
Proof.
  induction s as [|x s (post & IH1 & IH2)]; simpl.
  - by exists [].
  - destruct (Js.is_line_terminator x) eqn:Hx.
    + exists (x :: s). simpl. by rewrite Hx.
    + exists post. split; [|done]. simpl. by f_equal.
Qed.

(** A summary without the label has no match. *)
Lemma match_key_themes_includes s :
  Js.includes key_themes_label s = false → match_key_themes s = None.
Proof.
  induction s as [|c s IH]; [done|].
  rewrite includes_cons, match_key_themes_cons. unfold key_themes_here.
  destruct (Js.strip_prefix key_themes_label (c :: s)); [done|]. apply IH.
Qed.

(** [includes] is the containment of a substring. *)
Lemma includes_spec p s :
  Js.includes p s = true ↔ ∃ pre post, s = pre ++ p ++ post.
Proof.
  split.
  - induction s as [|c s IH].
    + simpl. destruct (Js.strip_prefix p []) as [rest|] eqn:Hp; [|done].
      intros _. apply strip_prefix_Some in Hp. by exists [], rest.
    + rewrite includes_cons.
      destruct (Js.strip_prefix p (c :: s)) as [rest|] eqn:Hp.
      * intros _. apply strip_prefix_Some in Hp. by exists [], rest.
      * intros (pre & post & ->)%IH. by exists (c :: pre), post.
  - intros (pre & post & ->). induction pre as [|c pre IH].
    + simpl. destruct (p ++ post) as [|c s] eqn:E.
      * simpl. by rewrite <-E, strip_prefix_app.
      * rewrite includes_cons, <-E, strip_prefix_app. done.
    + rewrite <-app_comm_cons, includes_cons, IH.
      by destruct (Js.strip_prefix p (c :: pre ++ p ++ post)).
Qed.

End js_facts.

(* ===================================================================== *)
(** * Tag extraction *)
(* ===================================================================== *)

Section extract_tags.

Implicit Types (summary tag term : str) (terms : list str).

Lemma extractTags_match summary m1 :
  match_key_themes summary = Some m1 →
  extractTags summary =
  take 5 (filter (λ tag : str, 2 < length tag) (first_word <$> Js.split comma m1)).
Proof. unfold extractTags. intros ->. apply (slice_from_0 _ 5). Qed.

Lemma extractTags_no_match summary :
  match_key_themes summary = None → extractTags summary = default_tags.
Proof. unfold extractTags. by intros ->. Qed.

Lemma match_key_themes_unfold s :
  match_key_themes s =
  match key_themes_here s with
  | Some cap => Some cap
  | None => match s with
            | [] => None
            | _ :: s' => match_key_themes s'
            end
  end.
Proof. by destruct s. Qed.

(** The text after the label, when it is one non-empty line. *)
Lemma match_key_themes_label rest :
  rest ≠ [] →
  Forall (λ c, Js.is_line_terminator c = false) rest →
  match_key_themes (key_themes_label ++ rest) = Some rest.
Proof.
  intros Hne Hline. rewrite match_key_themes_unfold. unfold key_themes_here.
  rewrite strip_prefix_app, dot_plus_one_line by done.
  by destruct rest.
Qed.

(** What a match captures: the line that follows the first occurrence
    of the label that has something after it on its line. *)
Lemma match_key_themes_Some summary m1 :
  match_key_themes summary = Some m1 →
  m1 ≠ [] ∧
  Forall (λ c, Js.is_line_terminator c = false) m1 ∧
  ∃ pre post, summary = pre ++ key_themes_label ++ m1 ++ post ∧
              head (Js.is_line_terminator <$> post) ≠ Some false.
Proof.
  induction summary as [|c s IH]; rewrite match_key_themes_unfold.
  - done.
  - unfold key_themes_here.
    destruct (Js.strip_prefix key_themes_label (c :: s)) as [rest|] eqn:Hp.
    + destruct (Js.dot_plus rest) as [|d cap] eqn:Hd.
      * intros (? & ? & pre & post & -> & ?)%IH. repeat split; [done..|].
        by exists (c :: pre), post.
      * intros [= <-]. split; [done|]. split.
        { rewrite <-Hd. apply dot_plus_Forall. }
        apply strip_prefix_Some in Hp. rewrite Hp, <-Hd.
        destruct (dot_plus_rest rest) as (post & Hpost & Hhead).
        exists [], post. split; [|done]. simpl. by rewrite <-Hpost.
    + intros (? & ? & pre & post & -> & ?)%IH. repeat split; [done..|].
      by exists (c :: pre), post.
Qed.

Lemma join_terms_cons term term' terms :
  join_terms (term :: term' :: terms) =
  term ++ comma :: space :: join_terms (term' :: terms).
Proof. done. Qed.

Lemma join_terms_one_line terms :
  Forall one_line_term terms →
  Forall (λ c, Js.is_line_terminator c = false) (join_terms terms).
Proof.
  induction 1 as [|t ts Ht Hts IH]; [done|].
  destruct ts as [|t' ts].
  - simpl. eapply list.Forall_impl; [exact Ht|]. by intros c [_ ?].
  - rewrite join_terms_cons. apply Forall_app. split.
    + eapply list.Forall_impl; [exact Ht|]. by intros c [_ ?].
    + by repeat constructor.
Qed.

(** Splitting the joined terms at the commas gives the terms back, all
    but the first with the space that followed the comma. *)
Lemma split_join_terms term terms :
  Forall one_line_term (term :: terms) →
  Js.split comma (join_terms (term :: terms)) = term :: (cons space <$> terms).
Proof.
  revert term. induction terms as [|t' ts IH]; intros t Hall.
  - simpl. apply split_no_sep. apply Forall_inv in Hall.
    eapply list.Forall_impl; [exact Hall|]. by intros c [? _].
  - rewrite join_terms_cons, split_app.
    + f_equal.
      change (Js.split comma (space :: join_terms (t' :: ts)))
        with (match Js.split comma (join_terms (t' :: ts)) with
              | w :: ws => (space :: w) :: ws
              | [] => [[space]]
              end).
      rewrite IH by (by apply Forall_inv_tail in Hall). done.
    + apply Forall_inv in Hall.
      eapply list.Forall_impl; [exact Hall|]. by intros c [? _].
Qed.

Lemma first_word_space tag : first_word (space :: tag) = first_word tag.
Proof. unfold first_word. by rewrite trim_cons_blank. Qed.

Lemma first_word_plain term : plain_term term → first_word term = term.
Proof.
  intros [_ Hall]. rewrite first_word_until_space, trim_id.
  - induction Hall as [|c s [_ Hc] _ IH]; simpl; [done|].
    destruct (N.eqb_spec c space) as [->|]; [done|]. by rewrite IH.
  - eapply list.Forall_impl; [exact Hall|]. by intros c [_ ?].
Qed.

Lemma filter_all {A} (P : A → Prop) `{∀ x, Decision (P x)} (l : list A) :
  Forall P l → filter P l = l.
Proof.
  induction 1 as [|x l Hx _ IH]; [done|].
  by rewrite filter_cons_True, IH.
Qed.

(** C7 (as amended). For a summary in the documented format, a label
  followed by terms joined by a comma and a space, [extractTags] keeps of
  each term only what its trimmed text has before the first space, drops
  the words of two code units or fewer, and returns the first five of
  the rest.  It returns the terms themselves when there are at most five
  and each is one word of more than two code units. *)
Theorem extractTags_key_themes terms :
  join_terms terms ≠ [] →
  Forall one_line_term terms →
  extractTags (key_themes_summary terms) =
    take 5 (filter (λ tag : str, 2 < length tag)
              ((λ term, until_space (Js.trim term)) <$> terms))
  ∧ (length terms ≤ 5 → Forall plain_term terms →
     extractTags (key_themes_summary terms) = terms).
Proof.
  intros Hne Hline.
  assert (extractTags (key_themes_summary terms) =
          take 5 (filter (λ tag : str, 2 < length tag) (first_word <$> terms)))
    as Heq.
  { unfold key_themes_summary.
    rewrite (extractTags_match _ (join_terms terms))
      by (apply match_key_themes_label; [done|by apply join_terms_one_line]).
    destruct terms as [|t ts]; [done|].
    rewrite split_join_terms by done.
    do 2 f_equal. rewrite !fmap_cons. f_equal.
    rewrite <-list_fmap_compose. apply list_fmap_ext.
    intros _ x _. apply first_word_space. }
  split.
  - rewrite Heq. do 2 f_equal. apply list_fmap_ext.
    intros _ x _. apply first_word_until_space.
  - intros Hlen Hplain. rewrite Heq.
    assert (first_word <$> terms = terms) as ->.
    { clear -Hplain. induction Hplain as [|t ts Ht _ IH]; [done|].
      by rewrite fmap_cons, first_word_plain, IH. }
    rewrite filter_all.
    + by apply take_ge.
    + eapply list.Forall_impl; [exact Hplain|]. by intros t [? _].
Qed.

Lemma extractTags_key_themes_witness :
  extractTags (key_themes_summary [Js.lit "painting"; Js.lit "flowers"; Js.lit "sky"])
  = [Js.lit "painting"; Js.lit "flowers"; Js.lit "sky"].
Proof.
  apply (extractTags_key_themes [Js.lit "painting"; Js.lit "flowers"; Js.lit "sky"]).
  - vm_compute. discriminate.
  - repeat constructor; vm_compute; discriminate.
  - simpl. lia.
  - repeat constructor; (vm_compute; discriminate) || (simpl; lia).
Defined.

(** C7, as first stated, fails: a sixth term is cut off, and of a term of
  two words only the first is kept. *)
Lemma extractTags_not_the_terms :
  extractTags (key_themes_summary
    [Js.lit "red"; Js.lit "sky"; Js.lit "sea"; Js.lit "sun"; Js.lit "fog"; Js.lit "ice"])
  = [Js.lit "red"; Js.lit "sky"; Js.lit "sea"; Js.lit "sun"; Js.lit "fog"]
  ∧ extractTags (Js.lit "Key themes: oil painting, sky")
    = [Js.lit "oil"; Js.lit "sky"].
Proof. split; vm_compute; reflexivity. Qed.

Lemma extractTags_length summary : length (extractTags summary) ≤ 5.
Proof.
  destruct (match_key_themes summary) as [m1|] eqn:Hm.
  - rewrite (extractTags_match _ _ Hm), length_take. lia.
  - rewrite (extractTags_no_match _ Hm). simpl. lia.
Qed.

Lemma extractTags_long summary :
  Forall (λ tag, 2 < length tag) (extractTags summary).
Proof.
  destruct (match_key_themes summary) as [m1|] eqn:Hm.
  - rewrite (extractTags_match _ _ Hm). apply Forall_take, list.Forall_forall.
    by intros tag [? _]%list_elem_of_filter.
  - rewrite (extractTags_no_match _ Hm). repeat constructor.
Qed.

(** C9 (as amended). [extractTags] returns at most five tags, each of
    more than two code units.  When the pattern matches, each tag is what
    one comma-separated segment of the captured line has, after trimming,
    before its first space (U+0020; other white space does not end the
    word).  When the pattern does not match, and so whenever the summary
    does not contain the label, the result is the list visual, style. *)
Theorem extractTags_tags summary :
  length (extractTags summary) ≤ 5
  ∧ Forall (λ tag, 2 < length tag) (extractTags summary)
  ∧ match match_key_themes summary with
    | Some m1 =>
        Forall (λ tag, ∃ segment, segment ∈ Js.split comma m1
                                  ∧ tag = until_space (Js.trim segment))
               (extractTags summary)
    | None => extractTags summary = default_tags
    end
  ∧ (Js.includes key_themes_label summary = false →
     extractTags summary = default_tags).
Proof.
  split; [apply extractTags_length|].
  split; [apply extractTags_long|].
  split.
  - destruct (match_key_themes summary) as [m1|] eqn:Hm.
    + rewrite (extractTags_match _ _ Hm). apply Forall_take, list.Forall_forall.
      intros tag [_ Htag]%list_elem_of_filter.
      apply list_elem_of_fmap in Htag as (segment & -> & Hseg).
      exists segment. split; [done|]. apply first_word_until_space.
    + by apply extractTags_no_match.
  - intros H. by apply extractTags_no_match, match_key_themes_includes.
Qed.

(** C9, as first stated, fails: a tab does not end the first word, so a
    tag can contain white space. *)
Lemma extractTags_keeps_tab :
  let segment := Js.lit "dark" ++ [9%N] ++ Js.lit "moody" in
  extractTags (key_themes_label ++ segment) = [segment]
  ∧ Js.is_white_space 9%N = true
  ∧ first_white_space_word segment = Js.lit "dark"
  ∧ segment ≠ first_white_space_word segment.
Proof. vm_compute. repeat split; discriminate. Qed.

End extract_tags.

(* ===================================================================== *)
(** * Pagination *)
(* ===================================================================== *)

Section pagination.

Implicit Types (s : State).

(** The ceiling of a quotient by a positive number is the least number
    of groups that hold everything. *)
Lemma ceil_div_spec (a b : Z) :
  (0 < b)%Z →
  (b * (Js.ceil_div a b - 1) < a ≤ b * Js.ceil_div a b)%Z.
Proof.
  intros Hb. unfold Js.ceil_div.
  pose proof (Z.div_mod (- a) b ltac:(lia)).
  pose proof (Z.mod_pos_bound (- a) b Hb). lia.
Qed.

Lemma ceil_div_unique (a b t : Z) :
  (0 < b)%Z → (b * (t - 1) < a ≤ b * t)%Z → Js.ceil_div a b = t.
Proof. intros Hb Ht. pose proof (ceil_div_spec a b Hb). nia. Qed.

Lemma totalPages_spec s :
  (0 < resultsPerPage s)%Z →
  (resultsPerPage s * (totalPages s - 1) < Z.of_nat (length (allResults s))
   ≤ resultsPerPage s * totalPages s)%Z.
Proof. apply ceil_div_spec. Qed.

Lemma totalPages_nonneg s : (0 < resultsPerPage s)%Z → (0 ≤ totalPages s)%Z.
Proof. intros H. pose proof (totalPages_spec s H). nia. Qed.

Lemma totalPages_pos s :
  (0 < resultsPerPage s)%Z → allResults s ≠ [] → (1 ≤ totalPages s)%Z.
Proof.
  intros H Hne. pose proof (totalPages_spec s H).
  destruct (allResults s); [done|]. simpl length in *. nia.
Qed.

(** What [displayCurrentPage] assigns. *)
Lemma displayCurrentPage_currentResults s :
  currentResults (exec displayCurrentPage s) =
  Js.slice (allResults s)
           ((currentPage s - 1) * resultsPerPage s)
           ((currentPage s - 1) * resultsPerPage s + resultsPerPage s).
Proof. reflexivity. Qed.

Lemma displayCurrentPage_cards s :
  resultsContainer (page (exec displayCurrentPage s)) =
  Cards (imap (λ index result,
                 createResultCard result
                   ((currentPage s - 1) * resultsPerPage s + Z.of_nat index + 1))
              (currentResults (exec displayCurrentPage s))).
Proof. reflexivity. Qed.

Lemma displayCurrentPage_keeps s :
  let s' := exec displayCurrentPage s in
  currentPage s' = currentPage s ∧ resultsPerPage s' = resultsPerPage s
  ∧ allResults s' = allResults s ∧ availableTags s' = availableTags s
  ∧ displayedTags s' = displayedTags s ∧ requests s' = requests s
  ∧ hidden (page s') = hidden (page s) ∧ disabled (page s') = disabled (page s)
  ∧ searchInput (page s') = searchInput (page s).
Proof. by repeat split. Qed.

(** What [updatePagination] does to the controls. *)
Lemma updatePagination_hidden s :
  hidden (page (exec updatePagination s)) pagination = (totalPages s <=? 1)%Z.
Proof.
  unfold updatePagination, exec, mbind, M_bind, get. simpl.
  by destruct (totalPages s <=? 1)%Z.
Qed.

Lemma updatePagination_keeps s :
  let s' := exec updatePagination s in
  currentPage s' = currentPage s ∧ resultsPerPage s' = resultsPerPage s
  ∧ allResults s' = allResults s ∧ currentResults s' = currentResults s
  ∧ availableTags s' = availableTags s ∧ displayedTags s' = displayedTags s
  ∧ requests s' = requests s ∧ searchInput (page s') = searchInput (page s)
  ∧ resultsContainer (page s') = resultsContainer (page s).
Proof.
  unfold updatePagination, exec, mbind, M_bind, get. simpl.
  by destruct (totalPages s <=? 1)%Z.
Qed.

Lemma updatePagination_buttons s :
  (1 < totalPages s)%Z →
  let s' := exec updatePagination s in
  disabled (page s') prevButton = (currentPage s =? 1)%Z
  ∧ disabled (page s') nextButton = (currentPage s =? totalPages s)%Z
  ∧ textContent (page s') paginationInfo = page_of (currentPage s) (totalPages s).
Proof.
  intros Ht. unfold updatePagination, exec, mbind, M_bind, get. simpl.
  destruct (Z.leb_spec (totalPages s) 1); [lia|]. done.
Qed.

(** C5. The page size set by the constructor is 9.  With that size and a
    current page [p] of 1 or more, [displayCurrentPage] shows exactly the
    results at positions [(p-1)*9] to [p*9-1] of the full list (as many of
    them as exist, and nine on every page before the last), numbered from
    [(p-1)*9+1]; and the page count of [updatePagination] is the ceiling of
    the number of results over 9. *)
Theorem displayCurrentPage_window s :
  resultsPerPage s = 9%Z →
  (1 ≤ currentPage s)%Z →
  let s' := exec displayCurrentPage s in
  let start := Z.to_nat ((currentPage s - 1) * 9) in
  (∀ html, resultsPerPage (initial_state html) = 9%Z)
  ∧ currentResults s' = take 9 (drop start (allResults s))
  ∧ (∀ i, i < 9 → currentResults s' !! i = allResults s !! (start + i))
  ∧ length (currentResults s') = 9 `min` (length (allResults s) - start)
  ∧ ((currentPage s < totalPages s)%Z → length (currentResults s') = 9)
  ∧ resultsContainer (page s') =
      Cards (imap (λ i result,
                     createResultCard result (Z.of_nat (start + i + 1)))
                  (currentResults s'))
  ∧ allResults s' = allResults s
  ∧ (9 * (totalPages s - 1) < Z.of_nat (length (allResults s)) ≤ 9 * totalPages s)%Z.
Proof.
  intros Hsize Hpage s' start.
  assert (currentResults s' = take 9 (drop start (allResults s))) as Hcur.
  { subst s'. rewrite displayCurrentPage_currentResults, Hsize.
    rewrite slice_nonneg by lia. f_equal. lia. }
  assert (length (currentResults s') = 9 `min` (length (allResults s) - start))
    as Hlen.
  { by rewrite Hcur, length_take, length_drop. }
  pose proof (totalPages_spec s ltac:(lia)) as Htotal. rewrite Hsize in Htotal.
  repeat split; try done.
  - intros i Hi. by rewrite Hcur, lookup_take_lt, lookup_drop.
  - intros Hlast. rewrite Hlen. subst start. lia.
  - subst s'. rewrite displayCurrentPage_cards, Hsize. f_equal.
    apply imap_ext. intros i x _. simpl. f_equal. subst start. lia.
  - lia.
  - lia.
Qed.

Lemma displayCurrentPage_window_witness :
  let s := set_currentPage 2
             (set_allResults (example_results 12) (initial_state example_page)) in
  resultsPerPage s = 9%Z
  ∧ (1 ≤ currentPage s)%Z
  ∧ length (currentResults (exec displayCurrentPage s))
    = 9 `min` (length (allResults s) - Z.to_nat ((currentPage s - 1) * 9)).
Proof.
  intros s.
  assert (resultsPerPage s = 9%Z) as Hsize by reflexivity.
  assert (1 ≤ currentPage s)%Z as Hpage by (simpl; lia).
  split; [exact Hsize|]. split; [exact Hpage|].
  pose proof (displayCurrentPage_window s Hsize Hpage) as (_ & _ & _ & Hlen & _).
  exact Hlen.
Defined.

End pagination.

(* ===================================================================== *)
(** * Searching *)
(* ===================================================================== *)

(** Unfolds the operations of the monad and the show and hide helpers,
    so that a run can be computed. *)
Ltac unfold_monad :=
  unfold exec, outcome, showError, showLoading, hideLoading, hideError,
    hideResults, showResults, fetch, json, try_finally, try_catch, throw,
    lift, modify, get, mbind, M_bind, mret, M_ret in *.

Section searching.

Implicit Types (s : State) (net : Network).

(** What a list display changes, when it starts on page 1. *)
Lemma display_list_effect title empty_text s :
  let s' := exec (display_list title empty_text) s in
  currentPage s' = currentPage s ∧ resultsPerPage s' = resultsPerPage s
  ∧ allResults s' = allResults s ∧ availableTags s' = availableTags s
  ∧ displayedTags s' = displayedTags s ∧ requests s' = requests s
  ∧ searchInput (page s') = searchInput (page s)
  ∧ hidden (page s') errorMessage = hidden (page s) errorMessage
  ∧ hidden (page s') loadingIndicator = hidden (page s) loadingIndicator
  ∧ hidden (page s') resultsSection = false
  ∧ hidden (page s') pagination =
      (if decide (length (allResults s) = 0) then hidden (page s) pagination
       else (totalPages s <=? 1)%Z)
  ∧ currentResults s' =
      (if decide (length (allResults s) = 0) then currentResults s
       else currentResults (exec displayCurrentPage s)).
Proof.
  unfold display_list, exec, mbind, M_bind, modify, get, showResults. simpl.
  destruct (decide (length (allResults s) = 0)); simpl; [done|].
  unfold updatePagination, mbind, M_bind, modify, get. simpl.
  unfold totalPages. simpl.
  destruct (Js.ceil_div _ _ <=? 1)%Z; simpl; done.
Qed.

Lemma display_list_run title empty_text s :
  display_list title empty_text s =
  (exec (display_list title empty_text) s, Normal tt).
Proof.
  unfold display_list, exec, mbind, M_bind, modify, get, showResults. simpl.
  destruct (decide (length (allResults s) = 0)); simpl; [done|].
  unfold updatePagination, mbind, M_bind, modify, get. simpl.
  destruct (totalPages _ <=? 1)%Z; simpl; done.
Qed.

(** An empty query: the message is shown and nothing else happens. *)
Lemma performSearch_empty net query s :
  effective_query query s = [] →
  performSearch net query s =
  (on_page (set_hidden errorMessage false)
     (on_page (set_textContent errorText empty_query_text) s),
   Normal tt).
Proof.
  unfold effective_query. intros Hq. unfold performSearch, mbind, M_bind, get.
  rewrite Hq. by rewrite decide_True.
Qed.

(** The state in which a request has just been sent. *)
Lemma performSearch_run net query s :
  effective_query query s ≠ [] →
  let sent :=
    log_request (mkRequest search_url (Some (effective_query query s)))
      (exec hideResults (exec hideError (exec showLoading s))) in
  performSearch net query s =
  match accepted (post_search net (effective_query query s)) with
  | Some data =>
      (exec hideLoading
         (exec (displayResults data)
            (set_currentPage 1 (set_allResults (results data) sent))),
       Normal tt)
  | None =>
      (exec hideLoading
         (exec (showError
                  (Js.lit "Search failed: "
                   ++ refusal (Js.lit "Search failed")
                        (post_search net (effective_query query s))))
               sent),
       Normal tt)
  end.
Proof.
  unfold effective_query. intros Hq. unfold performSearch.
  unfold_monad. simpl. destruct (decide _) as [E|_]; [done|].
  destruct (post_search net _) as [[[] [[err d]|msg]]|msg]; simpl; try done.
  unfold displayResults. by rewrite display_list_run.
Qed.

(** A query that is sent and whose reply is accepted. *)
Lemma performSearch_accepted net query s data :
  effective_query query s ≠ [] →
  accepted (post_search net (effective_query query s)) = Some data →
  let s' := exec (performSearch net query) s in
  outcome (performSearch net query) s = Normal tt
  ∧ requests s' =
      requests s ++ [mkRequest search_url (Some (effective_query query s))]
  ∧ allResults s' = results data
  ∧ currentPage s' = 1%Z
  ∧ resultsPerPage s' = resultsPerPage s
  ∧ availableTags s' = availableTags s
  ∧ displayedTags s' = displayedTags s
  ∧ searchInput (page s') = searchInput (page s)
  ∧ hidden (page s') errorMessage = true
  ∧ hidden (page s') pagination =
      (if decide (length (results data) = 0) then hidden (page s) pagination
       else (Js.ceil_div (Z.of_nat (length (results data))) (resultsPerPage s) <=? 1)%Z).
Proof.
  intros Hq Hacc. unfold exec at 1, outcome.
  rewrite performSearch_run, Hacc by done. unfold displayResults.
  match goal with
  | |- context [exec (display_list ?t ?e) ?s1] =>
      pose proof (display_list_effect t e s1) as Heff
  end.
  simpl in Heff. destruct Heff as (? & ? & ? & ? & ? & ? & ? & ? & _ & _ & ? & _).
  simpl. repeat split; done.
Qed.

(** A query that is sent and whose reply is not accepted. *)
Lemma performSearch_refused net query s :
  effective_query query s ≠ [] →
  accepted (post_search net (effective_query query s)) = None →
  let s' := exec (performSearch net query) s in
  outcome (performSearch net query) s = Normal tt
  ∧ requests s' =
      requests s ++ [mkRequest search_url (Some (effective_query query s))]
  ∧ allResults s' = allResults s
  ∧ currentPage s' = currentPage s
  ∧ currentResults s' = currentResults s
  ∧ resultsPerPage s' = resultsPerPage s
  ∧ availableTags s' = availableTags s
  ∧ displayedTags s' = displayedTags s
  ∧ searchInput (page s') = searchInput (page s)
  ∧ hidden (page s') pagination = hidden (page s) pagination
  ∧ hidden (page s') errorMessage = false
  ∧ textContent (page s') errorText =
      Js.lit "Search failed: "
      ++ refusal (Js.lit "Search failed") (post_search net (effective_query query s)).
Proof.
  intros Hq Hacc. unfold exec at 1, outcome.
  rewrite performSearch_run, Hacc by done. done.
Qed.

(** C4 (as amended). When [performSearch] is called without a query, or
    with the empty string, and the text of the search box is empty or all
    white space, it shows the message asking for a search term and does
    nothing else: no request is sent, so the service and its store are not
    reached, and the results and the current page stay as they are.
    When the text of the box is not blank, one request is sent with the
    trimmed text.  A query passed as an argument is sent as it is whenever
    it is not the empty string, also when it is all white space. *)
Theorem performSearch_empty_query net query s :
  let s' := exec (performSearch net query) s in
  let text := searchInput (page s) in
  ((query = None ∨ query = Some []) → is_blank text = true →
   outcome (performSearch net query) s = Normal tt
   ∧ s' = on_page (set_hidden errorMessage false)
            (on_page (set_textContent errorText empty_query_text) s)
   ∧ textContent (page s') errorText = empty_query_text
   ∧ hidden (page s') errorMessage = false
   ∧ requests s' = requests s
   ∧ allResults s' = allResults s
   ∧ currentPage s' = currentPage s)
  ∧ ((query = None ∨ query = Some []) → is_blank text = false →
     outcome (performSearch net query) s = Normal tt
     ∧ requests s' = requests s ++ [mkRequest search_url (Some (Js.trim text))])
  ∧ (∀ q, query = Some q → q ≠ [] →
     outcome (performSearch net query) s = Normal tt
     ∧ requests s' = requests s ++ [mkRequest search_url (Some q)]).
Proof.
  intros s' text. subst s'.
  assert (∀ sq, effective_query query s = sq → sq ≠ [] →
            outcome (performSearch net query) s = Normal tt
            ∧ requests (exec (performSearch net query) s)
              = requests s ++ [mkRequest search_url (Some sq)]) as Hsent.
  { intros sq <- Hne.
    destruct (accepted (post_search net (effective_query query s))) as [data|] eqn:Hacc.
    - by destruct (performSearch_accepted net query s data Hne Hacc) as (? & ? & _).
    - by destruct (performSearch_refused net query s Hne Hacc) as (? & ? & _). }
  assert ((query = None ∨ query = Some []) →
          effective_query query s = Js.trim text) as Hbox.
  { by intros [-> | ->]. }
  repeat apply conj.
  - intros Hquery Hblank%trim_blank.
    unfold exec, outcome.
    rewrite performSearch_empty by (by rewrite Hbox).
    done.
  - intros Hquery Hblank. apply Hsent; [by apply Hbox|].
    intros Hempty%trim_blank. congruence.
  - intros q -> Hq. apply Hsent; [|done]. by destruct q.
Qed.

(** C4, as first stated, fails: a query of three spaces passed as an
    argument is sent to the service. *)
Lemma performSearch_sends_spaces :
  is_blank (Js.lit "   ") = true
  ∧ requests (exec (performSearch offline (Some (Js.lit "   ")))
                   (initial_state example_page))
    = [mkRequest search_url (Some (Js.lit "   "))].
Proof. split; vm_compute; reflexivity. Qed.

(** The state in which a find-similar request has just been sent. *)
Lemma findSimilarSREFs_run net srefCode s :
  let sent :=
    log_request (mkRequest similar_url (Some srefCode))
      (exec hideResults (exec hideError (exec showLoading s))) in
  findSimilarSREFs net srefCode s =
  match accepted (post_similar net srefCode) with
  | Some data =>
      (exec hideLoading
         (exec (displaySimilarResults data)
            (set_currentPage 1
               (set_allResults (similar_results data)
                  (on_page (set_searchInput (Js.lit "Similar to " ++ srefCode))
                     sent)))),
       Normal tt)
  | None =>
      (exec hideLoading
         (exec (showError
                  (Js.lit "Similar search failed: "
                   ++ refusal (Js.lit "Similar search failed")
                        (post_similar net srefCode)))
               sent),
       Normal tt)
  end.
Proof.
  unfold findSimilarSREFs. unfold_monad. simpl.
  destruct (post_similar net _) as [[[] [[err d]|msg]]|msg]; simpl; try done.
  unfold displaySimilarResults. by rewrite display_list_run.
Qed.

Lemma findSimilarSREFs_accepted net srefCode s data :
  accepted (post_similar net srefCode) = Some data →
  let s' := exec (findSimilarSREFs net srefCode) s in
  outcome (findSimilarSREFs net srefCode) s = Normal tt
  ∧ requests s' = requests s ++ [mkRequest similar_url (Some srefCode)]
  ∧ allResults s' = similar_results data
  ∧ currentPage s' = 1%Z
  ∧ resultsPerPage s' = resultsPerPage s
  ∧ availableTags s' = availableTags s
  ∧ displayedTags s' = displayedTags s
  ∧ searchInput (page s') = Js.lit "Similar to " ++ srefCode
  ∧ hidden (page s') errorMessage = true
  ∧ hidden (page s') pagination =
      (if decide (length (similar_results data) = 0) then hidden (page s) pagination
       else (Js.ceil_div (Z.of_nat (length (similar_results data)))
                         (resultsPerPage s) <=? 1)%Z).
Proof.
  intros Hacc. unfold exec at 1, outcome.
  rewrite findSimilarSREFs_run, Hacc. unfold displaySimilarResults.
  match goal with
  | |- context [exec (display_list ?t ?e) ?s1] =>
      pose proof (display_list_effect t e s1) as Heff
  end.
  simpl in Heff. destruct Heff as (? & ? & ? & ? & ? & ? & ? & ? & _ & _ & ? & _).
  simpl. repeat split; done.
Qed.

Lemma findSimilarSREFs_refused net srefCode s :
  accepted (post_similar net srefCode) = None →
  let s' := exec (findSimilarSREFs net srefCode) s in
  outcome (findSimilarSREFs net srefCode) s = Normal tt
  ∧ requests s' = requests s ++ [mkRequest similar_url (Some srefCode)]
  ∧ allResults s' = allResults s
  ∧ currentPage s' = currentPage s
  ∧ currentResults s' = currentResults s
  ∧ resultsPerPage s' = resultsPerPage s
  ∧ availableTags s' = availableTags s
  ∧ displayedTags s' = displayedTags s
  ∧ searchInput (page s') = searchInput (page s)
  ∧ hidden (page s') pagination = hidden (page s) pagination
  ∧ hidden (page s') errorMessage = false.
Proof.
  intros Hacc. unfold exec at 1, outcome.
  rewrite findSimilarSREFs_run, Hacc. done.
Qed.

End searching.

(* ===================================================================== *)
(** * The pagination invariant *)
(* ===================================================================== *)

Section session.

Implicit Types (s : State) (net : Network).

Lemma displayCurrentPage_run s :
  displayCurrentPage s = (exec displayCurrentPage s, Normal tt).
Proof. reflexivity. Qed.

Lemma updatePagination_run s :
  updatePagination s = (exec updatePagination s, Normal tt).
Proof.
  unfold updatePagination, exec, mbind, M_bind, modify, get. simpl.
  by destruct (totalPages s <=? 1)%Z.
Qed.

Lemma turn_page_run (p : Z) s :
  (modify (set_currentPage p) ;; displayCurrentPage ;; updatePagination) s =
  (exec updatePagination (exec displayCurrentPage (set_currentPage p s)), Normal tt).
Proof.
  unfold mbind, M_bind, modify.
  by rewrite displayCurrentPage_run, updatePagination_run.
Qed.

Lemma previousPage_run s :
  previousPage s =
  (if (1 <? currentPage s)%Z
   then exec updatePagination
          (exec displayCurrentPage (set_currentPage (currentPage s - 1) s))
   else s,
   Normal tt).
Proof.
  unfold previousPage. unfold mbind at 1, M_bind at 1, get.
  destruct (1 <? currentPage s)%Z; [apply turn_page_run|done].
Qed.

Lemma nextPage_run s :
  nextPage s =
  (if (currentPage s <? totalPages s)%Z
   then exec updatePagination
          (exec displayCurrentPage (set_currentPage (currentPage s + 1) s))
   else s,
   Normal tt).
Proof.
  unfold nextPage. unfold mbind at 1, M_bind at 1, get.
  destruct (currentPage s <? totalPages s)%Z; [apply turn_page_run|done].
Qed.

(** The state after a page turn to page [p]. *)
Lemma turn_page_effect (p : Z) s :
  let s' := exec updatePagination (exec displayCurrentPage (set_currentPage p s)) in
  currentPage s' = p ∧ resultsPerPage s' = resultsPerPage s
  ∧ allResults s' = allResults s ∧ availableTags s' = availableTags s
  ∧ displayedTags s' = displayedTags s ∧ requests s' = requests s
  ∧ totalPages s' = totalPages s
  ∧ hidden (page s') pagination = (totalPages s <=? 1)%Z.
Proof.
  intros s'. subst s'.
  set (s1 := exec displayCurrentPage (set_currentPage p s)).
  destruct (updatePagination_keeps s1) as (-> & H2 & H3 & _ & -> & -> & -> & _).
  rewrite updatePagination_hidden. unfold totalPages. rewrite H2, H3. done.
Qed.

Lemma invariant_frame s s' :
  resultsPerPage s' = resultsPerPage s →
  currentPage s' = currentPage s →
  allResults s' = allResults s →
  hidden (page s') pagination = hidden (page s) pagination →
  availableTags s' = availableTags s →
  displayedTags s' = displayedTags s →
  page_invariant s → page_invariant s'.
Proof.
  unfold page_invariant, totalPages. by intros -> -> -> -> -> ->.
Qed.

Lemma invariant_new_list s s' :
  resultsPerPage s' = resultsPerPage s →
  currentPage s' = 1%Z →
  hidden (page s') pagination =
    (if decide (length (allResults s') = 0) then hidden (page s) pagination
     else (Js.ceil_div (Z.of_nat (length (allResults s'))) (resultsPerPage s) <=? 1)%Z) →
  availableTags s' = availableTags s →
  displayedTags s' = displayedTags s →
  page_invariant s → page_invariant s'.
Proof.
  intros Hsize Hpage Hhidden Htags Hshown (Hnine & _ & _ & Hempty).
  unfold page_invariant. rewrite Hsize, Hpage, Htags, Hshown, Hnine.
  split; [done|]. split; [lia|]. split; [|done].
  intros Hne. split.
  - apply totalPages_pos; [lia|done].
  - rewrite Hhidden. destruct (decide _) as [Hlen|_].
    + by destruct (allResults s').
    + unfold totalPages. by rewrite Hsize.
Qed.

Lemma performSearch_invariant net query s :
  page_invariant s → page_invariant (exec (performSearch net query) s).
Proof.
  intros Hinv. destruct (decide (effective_query query s = [])) as [Hq|Hq].
  - unfold exec. rewrite performSearch_empty by done.
    by apply (invariant_frame s).
  - destruct (accepted (post_search net (effective_query query s)))
      as [data|] eqn:Hacc.
    + destruct (performSearch_accepted net query s data Hq Hacc)
        as (_ & _ & Hall & ? & ? & ? & ? & _ & _ & Hhidden).
      apply (invariant_new_list s); try done. by rewrite Hall.
    + destruct (performSearch_refused net query s Hq Hacc)
        as (_ & _ & ? & ? & _ & ? & ? & ? & _ & ? & _).
      by apply (invariant_frame s).
Qed.

Lemma findSimilarSREFs_invariant net srefCode s :
  page_invariant s → page_invariant (exec (findSimilarSREFs net srefCode) s).
Proof.
  intros Hinv.
  destruct (accepted (post_similar net srefCode)) as [data|] eqn:Hacc.
  - destruct (findSimilarSREFs_accepted net srefCode s data Hacc)
      as (_ & _ & Hall & ? & ? & ? & ? & _ & _ & Hhidden).
    apply (invariant_new_list s); try done. by rewrite Hall.
  - destruct (findSimilarSREFs_refused net srefCode s Hacc)
      as (_ & _ & ? & ? & _ & ? & ? & ? & _ & ? & _).
    by apply (invariant_frame s).
Qed.

Lemma previousPage_invariant s :
  page_invariant s → page_invariant (exec previousPage s).
Proof.
  intros Hinv. unfold exec. rewrite previousPage_run. simpl.
  destruct (Z.ltb_spec 1 (currentPage s)); [|done].
  destruct (turn_page_effect (currentPage s - 1) s)
    as (Hp & Hsize & Hall & Htags & Hshown & _ & Htotal & Hhidden).
  destruct Hinv as (Hnine & Hone & Hrange & Hempty).
  unfold page_invariant.
  rewrite Hp, Hsize, Hall, Htags, Hshown, Htotal, Hhidden.
  split; [done|]. split; [lia|]. split; [|done].
  intros Hne. destruct (Hrange Hne). split; [lia|done].
Qed.

Lemma nextPage_invariant s :
  page_invariant s → page_invariant (exec nextPage s).
Proof.
  intros Hinv. unfold exec. rewrite nextPage_run. simpl.
  destruct (Z.ltb_spec (currentPage s) (totalPages s)); [|done].
  destruct (turn_page_effect (currentPage s + 1) s)
    as (Hp & Hsize & Hall & Htags & Hshown & _ & Htotal & Hhidden).
  destruct Hinv as (Hnine & Hone & Hrange & Hempty).
  unfold page_invariant.
  rewrite Hp, Hsize, Hall, Htags, Hshown, Htotal, Hhidden.
  split; [done|]. split; [lia|]. split; [|done].
  intros Hne. split; [lia|done].
Qed.

End session.

(* ===================================================================== *)
(** * Example tags *)
(* ===================================================================== *)

Section example_tags.

Implicit Types (s : State) (net : Network).

Lemma displayTags_run s :
  displayTags s =
  (on_page (set_exampleTags (take 6 (availableTags s)))
     (set_displayedTags (take 6 (availableTags s)) s),
   Normal tt).
Proof.
  unfold displayTags, mbind, M_bind, modify, get. simpl.
  by rewrite (slice_from_0 _ 6 : Js.slice _ 0 6 = _).
Qed.

(** [loadTags] always completes: it adopts the array of an accepted
    reply, and the built-in list in every other case. *)
Lemma loadTags_run net s :
  loadTags net s =
  (let tags := default fallback_tags (accepted_tags (get_tags net)) in
   on_page (set_exampleTags (take 6 tags))
     (set_displayedTags (take 6 tags)
        (set_availableTags tags (log_request (mkRequest tags_url None) s))),
   Normal tt).
Proof.
  unfold loadTags, adopt_tags. unfold_monad. simpl.
  destruct (get_tags net) as [[[] [[err [tags|]]|msg]]|msg]; simpl.
  all: try rewrite displayTags_run.
  all: by rewrite ?(slice_from_0 _ 6 : Js.slice _ 0 6 = _).
Qed.

Lemma floor_times_lt (r : Draw) (n : nat) : 0 < n → floor_times r n < n.
Proof.
  intros Hn. unfold floor_times.
  pose proof (below_one r) as Hr. apply Nat.ltb_lt in Hr.
  apply Nat.Div0.div_lt_upper_bound. nia.
Qed.

Lemma swap_Some {A} (a : list A) (i j : nat) :
  i < length a → j < length a →
  ∃ a', swap a i j = Some a' ∧ a' ≡ₚ a.
Proof.
  intros [x Hx]%lookup_lt_is_Some [y Hy]%lookup_lt_is_Some.
  unfold swap. rewrite Hx, Hy. simpl. eexists. split; [done|].
  by apply Permutation_insert_swap.
Qed.

(** The loop never leaves the array, and it permutes it. *)
Lemma shuffle_loop_Some {A} (random : nat → Draw) (k i : nat) (a : list A) :
  i ≤ length a - 1 →
  ∃ a', shuffle_loop random k i a = Some a' ∧ a' ≡ₚ a.
Proof.
  revert k a. induction i as [|i IH]; intros k a Hi; simpl.
  - by exists a.
  - pose proof (floor_times_lt (random k) (S (i + 1)) ltac:(lia)) as Hj.
    destruct (swap_Some a (S i) (floor_times (random k) (S (i + 1))))
      as (a' & -> & Hperm); [lia..|].
    simpl. destruct (IH (S k) a') as (a'' & -> & Hperm').
    { rewrite Hperm. lia. }
    exists a''. split; [done|]. by rewrite Hperm'.
Qed.

Lemma shuffled_copy_Some {A} (random : nat → Draw) (a : list A) :
  ∃ shuffled, shuffled_copy random a = Some shuffled ∧ shuffled ≡ₚ a.
Proof. by apply shuffle_loop_Some. Qed.

(** The first [n] elements of a permutation of [a]: a sample of [a]
    without replacement. *)
Lemma sample_of_permutation {A} (n : nat) (a shuffled : list A) :
  shuffled ≡ₚ a →
  let sample := Js.slice shuffled 0 (Z.of_nat n) in
  length sample = n `min` length a
  ∧ (∀ x, x ∈ sample → x ∈ a)
  ∧ (NoDup a → NoDup sample)
  ∧ (length a ≤ n → sample ≡ₚ a).
Proof.
  intros Hperm sample. subst sample. rewrite slice_from_0.
  repeat split.
  - by rewrite length_take, Hperm.
  - intros x Hx. rewrite <-Hperm. by apply (subseteq_take n).
  - intros Hnodup. rewrite <-Hperm in Hnodup.
    eapply sublist_NoDup; [done|apply sublist_take].
  - intros Hlen. rewrite take_ge; [done|]. by rewrite Hperm.
Qed.

Lemma shuffleExamples_run random s :
  shuffleExamples random s =
  (match availableTags s, shuffled_copy random (availableTags s) with
   | _ :: _, Some shuffled =>
       on_page (set_exampleTags (take 6 shuffled))
         (set_displayedTags (take 6 shuffled) s)
   | _, _ => s
   end,
   Normal tt).
Proof.
  unfold shuffleExamples, mbind at 1, M_bind at 1, get.
  destruct (shuffled_copy_Some random (availableTags s)) as (shuffled & -> & _).
  destruct (availableTags s); simpl; [done|].
  unfold mbind, M_bind, modify, get. simpl.
  by rewrite (slice_from_0 _ 6 : Js.slice _ 0 6 = _).
Qed.

Lemma loadTags_invariant net s :
  page_invariant s → page_invariant (exec (loadTags net) s).
Proof.
  intros (Hnine & Hone & Hrange & _). unfold exec. rewrite loadTags_run.
  unfold page_invariant, totalPages. simpl.
  split; [done|]. split; [done|]. split; [exact Hrange|]. by intros ->.
Qed.

Lemma shuffleExamples_invariant random s :
  page_invariant s → page_invariant (exec (shuffleExamples random) s).
Proof.
  intros Hinv. unfold exec. rewrite shuffleExamples_run. simpl.
  destruct (availableTags s) as [|tag tags] eqn:Htags; [done|].
  destruct (shuffled_copy random (tag :: tags)); [|done].
  destruct Hinv as (Hnine & Hone & Hrange & _).
  unfold page_invariant, totalPages. simpl.
  split; [done|]. split; [done|]. split; [exact Hrange|]. by rewrite Htags.
Qed.

(** Every state of a session satisfies the invariant. *)
Lemma reachable_invariant s : reachable s → page_invariant s.
Proof.
  induction 1 as [html|s ev _ IH].
  - by repeat split.
  - destruct ev; simpl.
    + by apply performSearch_invariant.
    + by apply (invariant_frame s).
    + by apply findSimilarSREFs_invariant.
    + apply performSearch_invariant. by apply (invariant_frame s).
    + apply performSearch_invariant. by apply (invariant_frame s).
    + by apply previousPage_invariant.
    + by apply nextPage_invariant.
    + by apply loadTags_invariant.
    + by apply shuffleExamples_invariant.
Qed.

End example_tags.

(* ===================================================================== *)
(** * The properties of the front end *)
(* ===================================================================== *)

Section front_end.

Implicit Types (s : State) (net : Network).

Lemma reachable_run evs s : reachable s → reachable (run evs s).
Proof.
  revert s. induction evs as [|ev evs IH]; intros s Hs; [done|].
  simpl. apply IH. by constructor.
Qed.



(** C6 (as amended). [loadTags] never throws, whatever the network does.
    When the request fails, the body cannot be parsed, the status is not
    ok, or the reply has no array of tags, the built-in list of fifteen
    tags becomes the list of available tags; an accepted array is adopted
    as it is.  So the available tags are empty after loading exactly when
    the service answered with an empty array. *)
Theorem loadTags_fallback net s :
  let s' := exec (loadTags net) s in
  outcome (loadTags net) s = Normal tt
  ∧ (∀ message, get_tags net = Thrown message →
       availableTags s' = fallback_tags)
  ∧ (∀ ok message, get_tags net = Normal (mkResponse ok (Thrown message)) →
       availableTags s' = fallback_tags)
  ∧ (∀ body, get_tags net = Normal (mkResponse false body) →
       availableTags s' = fallback_tags)
  ∧ (∀ err, get_tags net
            = Normal (mkResponse true (Normal (mkData err TagsOther))) →
       availableTags s' = fallback_tags)
  ∧ (∀ err tags, get_tags net
                 = Normal (mkResponse true (Normal (mkData err (TagsArray tags)))) →
       availableTags s' = tags)
  ∧ length fallback_tags = 15
  ∧ (availableTags s' = [] ↔ accepted_tags (get_tags net) = Some [])
  ∧ displayedTags s' = take 6 (availableTags s')
  ∧ exampleTags (page s') = displayedTags s'
  ∧ requests s' = requests s ++ [mkRequest tags_url None]
  ∧ allResults s' = allResults s
  ∧ currentPage s' = currentPage s.
Proof.
  intros s'. subst s'. unfold exec, outcome. rewrite loadTags_run. simpl.
  split; [done|].
  split; [by intros message ->|].
  split; [by intros [] message ->|].
  split; [by intros [[]|] ->|].
  split; [by intros err ->|].
  split; [by intros err tags ->|].
  split; [done|].
  split; [|done].
  destruct (accepted_tags (get_tags net)) as [tags|]; simpl.
  - split; [by intros ->|by intros [= ->]].
  - split; done.
Qed.

(** C6, as first stated, fails: an accepted reply with an empty array of
    tags leaves no tag available. *)
Lemma loadTags_empty_array :
  let net := example_network [] (TagsArray []) in
  outcome (loadTags net) (initial_state example_page) = Normal tt
  ∧ availableTags (exec (loadTags net) (initial_state example_page)) = [].
Proof. split; reflexivity. Qed.

(** C8. [shuffleExamples] never throws and leaves the available tags as
    they are.  On an empty list it does nothing.  Otherwise the
    Fisher-Yates loop stays inside the array and yields a permutation of
    the available tags, and the displayed tags are its first six elements:
    each is an available tag, none is repeated if the available tags are
    distinct, and they are all the available tags when there are six or
    fewer.  The same holds of the first [n] elements for any [n], and, in
    every state of a session, also when the list is empty. *)
Theorem shuffleExamples_sample random s :
  let s' := exec (shuffleExamples random) s in
  let catalog := availableTags s in
  outcome (shuffleExamples random) s = Normal tt
  ∧ availableTags s' = catalog
  ∧ (catalog = [] → s' = s)
  ∧ (catalog ≠ [] →
     ∃ shuffled,
       shuffled_copy random catalog = Some shuffled
       ∧ shuffled ≡ₚ catalog
       ∧ displayedTags s' = Js.slice shuffled 0 6
       ∧ exampleTags (page s') = displayedTags s')
  ∧ (catalog ≠ [] ∨ reachable s →
     length (displayedTags s') = 6 `min` length catalog
     ∧ (∀ tag, tag ∈ displayedTags s' → tag ∈ catalog)
     ∧ (NoDup catalog → NoDup (displayedTags s'))
     ∧ (length catalog ≤ 6 → displayedTags s' ≡ₚ catalog))
  ∧ (∀ n : nat,
     ∃ shuffled,
       shuffled_copy random catalog = Some shuffled
       ∧ let sample := Js.slice shuffled 0 (Z.of_nat n) in
         length sample = n `min` length catalog
         ∧ (∀ tag, tag ∈ sample → tag ∈ catalog)
         ∧ (NoDup catalog → NoDup sample)
         ∧ (length catalog ≤ n → sample ≡ₚ catalog)).
Proof.
  intros s' catalog. subst s' catalog. unfold exec, outcome.
  rewrite shuffleExamples_run. cbn [fst snd].
  destruct (shuffled_copy_Some random (availableTags s)) as (shuffled & Hsh & Hperm).
  rewrite Hsh.
  pose proof (sample_of_permutation 6 _ _ Hperm) as Hsix.
  cbn zeta in Hsix. rewrite slice_from_0 in Hsix.
  split; [done|].
  split; [by destruct (availableTags s) eqn:Htags|].
  split; [by intros ->|].
  split; [|split].
  - intros Hne. exists shuffled.
    destruct (availableTags s); [done|].
    cbn [displayedTags page exampleTags on_page set_displayedTags set_exampleTags].
    by rewrite (slice_from_0 _ 6 : Js.slice _ 0 6 = _).
  - intros Hcase.
    destruct (availableTags s) as [|tag tags] eqn:Htags.
    + destruct Hcase as [?|Hreach]; [done|].
      apply reachable_invariant in Hreach as (_ & _ & _ & Hempty).
      rewrite (Hempty Htags).
      split; [done|]. split; [done|]. split; [constructor|done].
    + exact Hsix.
  - intros n. exists shuffled. split; [done|].
    apply (sample_of_permutation n _ _ Hperm).
Qed.

(** When a search returns no result, [displayResults] shows the message
    and does not run [updatePagination]: controls that an earlier search
    had made visible stay so. *)
Lemma empty_search_keeps_pagination :
  let s := run [Submit (example_network (example_results 20) TagsOther)
                       (Some (Js.lit "blue"));
                Submit (example_network [] TagsOther) (Some (Js.lit "red"))]
               (initial_state example_page) in
  allResults s = []
  ∧ totalPages s = 0%Z
  ∧ hidden (page s) pagination = false
  ∧ resultsContainer (page s) = NoResults no_results_text.
Proof. repeat split; vm_compute; reflexivity. Qed.

Lemma trimStart_snoc (text : str) c :
  Js.is_trimmed_char c = false →
  Js.trimStart (text ++ [c]) = Js.trimStart text ++ [c].
Proof.
  intros Hc. induction text as [|d text IH]; simpl; [by rewrite Hc|].
  by destruct (Js.is_trimmed_char d).
Qed.

(** A trimmed string does not start with white space. *)
Lemma trim_head (text : str) c t :
  Js.trim text = c :: t → Js.is_trimmed_char c = false.
Proof.
  unfold Js.trim, Js.trimEnd.
  destruct (Js.trimStart text) as [|d u] eqn:Hstart; [done|].
  assert (Js.is_trimmed_char d = false) as Hd.
  { clear -Hstart. induction text as [|x text IH]; [done|]. simpl in Hstart.
    destruct (Js.is_trimmed_char x) eqn:Hx; [by apply IH|]. by simplify_eq. }
  rewrite reverse_cons, trimStart_snoc, reverse_app by done.
  by intros [= <- _].
Qed.

(** A tag made by [extractTags] is never blank, so a click on a tag of a
    card always sends a request. *)
Lemma extracted_tag_not_blank summary tag :
  tag ∈ extractTags summary → tag ≠ [] ∧ is_blank tag = false.
Proof.
  intros Hin.
  destruct (match_key_themes summary) as [m1|] eqn:Hm.
  - rewrite (extractTags_match _ _ Hm) in Hin.
    apply subseteq_take, list_elem_of_filter in Hin as [Hlong Hin].
    apply list_elem_of_fmap in Hin as (segment & -> & _).
    rewrite first_word_until_space in *.
    destruct (Js.trim segment) as [|c t] eqn:Htrim; [simpl in Hlong; lia|].
    apply trim_head in Htrim. simpl in *.
    destruct (c =? space)%N; [simpl in Hlong; lia|].
    split; [done|]. simpl. by rewrite Htrim.
  - rewrite (extractTags_no_match _ Hm) in Hin.
    apply elem_of_cons in Hin as [->|Hin]; [done|].
    apply elem_of_cons in Hin as [->|Hin]; [done|].
    by apply elem_of_nil in Hin.
Qed.

Lemma searchByTag_sends net summary tag s :
  tag ∈ extractTags summary →
  requests (exec (searchByTag net tag) s)
  = requests s ++ [mkRequest search_url (Some tag)].
Proof.
  intros [Hne _]%extracted_tag_not_blank.
  set (s1 := on_page (set_searchInput tag) s).
  change (requests (exec (performSearch net (Some tag)) s1)
          = requests s1 ++ [mkRequest search_url (Some tag)]).
  assert (effective_query (Some tag) s1 = tag) as Hq by (by destruct tag).
  assert (effective_query (Some tag) s1 ≠ []) as Hne' by (by rewrite Hq).
  destruct (accepted (post_search net (effective_query (Some tag) s1)))
    as [data|] eqn:Hacc.
  - destruct (performSearch_accepted net (Some tag) s1 data Hne' Hacc)
      as (_ & -> & _). by rewrite Hq.
  - destruct (performSearch_refused net (Some tag) s1 Hne' Hacc)
      as (_ & -> & _). by rewrite Hq.
Qed.

End front_end.

(* ===================================================================== *)
(** * The ranking service *)
(* ===================================================================== *)

Section ranking.

Import Service.
Local Open Scope R_scope.

Implicit Types (q v : list R) (store : Store) (x y : Scored) (l : list Scored).

Lemma dot_product_self_nonneg v : 0 <= dot_product v v.
Proof.
  unfold dot_product. induction v as [|a v IH]; simpl; [lra|]. nra.
Qed.

(** Only the zero vector has magnitude zero. *)
Lemma magnitude_zero v : magnitude v = 0 ↔ Forall (λ a, a = 0) v.
Proof.
  unfold magnitude. split.
  - intros H. apply sqrt_eq_0 in H; [|apply dot_product_self_nonneg].
    induction v as [|a v IH]; [done|].
    pose proof (dot_product_self_nonneg v) as Hv.
    unfold dot_product in *. simpl in H.
    assert (a = 0 ∧ foldr Rplus 0 (zip_with Rmult v v) = 0) as [-> Hrest] by nra.
    constructor; [done|]. by apply IH.
  - intros H. replace (dot_product v v) with 0; [apply sqrt_0|].
    unfold dot_product. induction H as [|a v -> _ IH]; simpl; [done|].
    rewrite <-IH. lra.
Qed.

Lemma magnitude_nonneg v : 0 <= magnitude v.
Proof. apply sqrt_pos. Qed.

(** C2. Here the score function of the ranker is the one the
    specification describes (its code is not part of the sources).  It
    yields a score for every pair of vectors, a division by zero never
    occurs: the score is exactly 0 when either magnitude is 0, which is
    the case of the zero vector only, and otherwise it is the dot product
    divided by the product of the two magnitudes, which is not 0. *)
Theorem cosine_similarity_total q v :
  ∃ sc,
    cosine_similarity q v = Some sc
    ∧ score q v = sc
    ∧ (magnitude q = 0 ∨ magnitude v = 0 → sc = 0)
    ∧ (magnitude q ≠ 0 → magnitude v ≠ 0 →
       magnitude q * magnitude v ≠ 0
       ∧ sc = dot_product q v / (magnitude q * magnitude v))
    ∧ (magnitude v = 0 ↔ Forall (λ a, a = 0) v).
Proof.
  unfold score, cosine_similarity, divide.
  destruct (decide (magnitude q = 0 ∨ magnitude v = 0)) as [Hzero|Hpos].
  - exists 0.
    split; [done|]. split; [done|]. split; [done|].
    split; [|apply magnitude_zero].
    intros Hq Hv. by destruct Hzero.
  - assert (magnitude q * magnitude v ≠ 0) as Hprod.
    { intros [?|?]%Rmult_integral; apply Hpos; auto. }
    rewrite decide_False by done.
    eexists.
    split; [done|]. split; [done|]. split; [done|].
    split; [done|apply magnitude_zero].
Qed.

Lemma insert_by_score_perm x l : insert_by_score x l ≡ₚ x :: l.
Proof.
  induction l as [|y l IH]; simpl; [done|].
  destruct (Rlt_dec x.2 y.2); [|done].
  by rewrite IH, Permutation_swap.
Qed.

Lemma sort_by_score_perm l : sort_by_score l ≡ₚ l.
Proof.
  induction l as [|x l IH]; simpl; [done|].
  by rewrite insert_by_score_perm, IH.
Qed.

Lemma insert_by_score_sorted x l :
  StronglySorted by_score l → StronglySorted by_score (insert_by_score x l).
Proof.
  induction 1 as [|y l Hl IH Hy]; simpl.
  - by repeat constructor.
  - destruct (Rlt_dec x.2 y.2) as [Hlt|Hge].
    + constructor; [done|]. rewrite insert_by_score_perm.
      constructor; [|done]. unfold by_score. lra.
    + constructor; [by constructor|].
      constructor; [unfold by_score; lra|].
      eapply list.Forall_impl; [exact Hy|]. unfold by_score. intros z Hz. simpl in *. lra.
Qed.

Lemma sort_by_score_sorted l : StronglySorted by_score (sort_by_score l).
Proof.
  induction l as [|x l IH]; simpl; [constructor|].
  by apply insert_by_score_sorted.
Qed.

(** Insertion keeps the new element in front of the old ones of the
    same score. *)
Lemma ties_insert_by_score sc x l :
  ties sc (insert_by_score x l) = ties sc (x :: l).
Proof.
  unfold ties. induction l as [|y l IH]; [done|].
  change (insert_by_score x (y :: l))
    with (if Rlt_dec x.2 y.2 then y :: insert_by_score x l else x :: y :: l).
  destruct (Rlt_dec x.2 y.2) as [Hlt|Hge]; [|done].
  rewrite (filter_cons _ y), IH, !(filter_cons _ x), (filter_cons _ y).
  destruct (decide (y.2 = sc)), (decide (x.2 = sc)); try done. lra.
Qed.

(** The sort is stable. *)
Lemma ties_sort_by_score sc l : ties sc (sort_by_score l) = ties sc l.
Proof.
  induction l as [|x l IH]; [done|].
  change (sort_by_score (x :: l)) with (insert_by_score x (sort_by_score l)).
  rewrite ties_insert_by_score. unfold ties in *.
  by rewrite !(filter_cons _ x), IH.
Qed.

(** A list sorted by descending score is determined by its groups of
    equal score. *)
Lemma sorted_ties_unique {A} (l1 l2 : list (A * R)) :
  StronglySorted by_score l1 → StronglySorted by_score l2 →
  (∀ sc, ties sc l1 = ties sc l2) → l1 = l2.
Proof.
  intros H1. revert l2. induction H1 as [|a l1 Hl1 IH Ha]; intros l2 H2 Hties.
  - destruct l2 as [|b l2]; [done|].
    specialize (Hties b.2). unfold ties in Hties.
    by rewrite filter_nil, filter_cons_True in Hties.
  - destruct H2 as [|b l2 Hl2 Hb].
    { specialize (Hties a.2). unfold ties in Hties.
      by rewrite filter_nil, filter_cons_True in Hties. }
    assert (b ∈ a :: l1) as Hin1.
    { assert (b ∈ ties b.2 (a :: l1)) as Hin.
      { rewrite Hties. unfold ties. rewrite filter_cons_True by done. left. }
      by apply list_elem_of_filter in Hin as [_ ?]. }
    assert (a ∈ b :: l2) as Hin2.
    { assert (a ∈ ties a.2 (b :: l2)) as Hin.
      { rewrite <-Hties. unfold ties. rewrite filter_cons_True by done. left. }
      by apply list_elem_of_filter in Hin as [_ ?]. }
    assert (b.2 <= a.2) as Hba.
    { apply elem_of_cons in Hin1 as [->|Hin1]; [lra|].
      by apply (proj1 (list.Forall_forall _ _) Ha). }
    assert (a.2 <= b.2) as Hab.
    { apply elem_of_cons in Hin2 as [->|Hin2]; [lra|].
      by apply (proj1 (list.Forall_forall _ _) Hb). }
    assert (a.2 = b.2) as Heq by lra.
    assert (a = b) as ->.
    { specialize (Hties a.2). unfold ties in Hties.
      rewrite !filter_cons_True in Hties by done. by simplify_eq. }
    f_equal. apply IH; [done|]. intros sc. specialize (Hties sc).
    unfold ties in *. rewrite !(filter_cons _ b) in Hties.
    destruct (decide (b.2 = sc)); by simplify_eq.
Qed.

Lemma rank_entries_perm q store exclude :
  rank_entries q store exclude ≡ₚ with_score q <$> kept exclude store.
Proof. apply sort_by_score_perm. Qed.

Lemma with_score_fst q store : (with_score q <$> store).*1 = store.
Proof. induction store as [|e store IH]; csimpl; [done|]. by rewrite IH. Qed.

Lemma rank_entries_fst q store exclude :
  (rank_entries q store exclude).*1 ≡ₚ kept exclude store.
Proof. by rewrite rank_entries_perm, with_score_fst. Qed.

Lemma rank_codes q store exclude :
  (rank q store exclude).*1 ≡ₚ code <$> kept exclude store.
Proof.
  unfold rank. rewrite <-list_fmap_compose, <-rank_entries_fst.
  by rewrite <-list_fmap_compose.
Qed.

Lemma kept_None store : kept None store = store.
Proof. unfold kept. by apply filter_all, list.Forall_forall. Qed.

Lemma elem_of_kept_codes exclude store c :
  c ∈ code <$> kept exclude store ↔ c ∈ code <$> store ∧ exclude ≠ Some c.
Proof.
  unfold kept. rewrite !list_elem_of_fmap. split.
  - intros (e & -> & [? ?]%list_elem_of_filter). eauto.
  - intros [(e & -> & ?) ?]. exists e. split; [done|].
    by apply list_elem_of_filter.
Qed.

Lemma kept_unique exclude store :
  unique_codes store → NoDup (code <$> kept exclude store).
Proof.
  unfold unique_codes, kept. intros Hnodup.
  eapply sublist_NoDup; [exact Hnodup|].
  apply fmap_sublist, sublist_filter.
Qed.

(** Excluding a code that is in a store with unique codes removes one
    entry. *)
Lemma kept_length c store :
  unique_codes store → c ∈ code <$> store →
  (length (kept (Some c) store) + 1 = length store)%nat.
Proof.
  unfold unique_codes, kept.
  induction store as [|e store IH]; csimpl; intros Hnodup Hin.
  - by apply elem_of_nil in Hin.
  - apply NoDup_cons in Hnodup as [Hnotin Hnodup].
    rewrite filter_cons. destruct (decide (Some c ≠ Some (code e))) as [Hne|Heq].
    + simpl. apply elem_of_cons in Hin as [->|Hin]; [done|].
      by rewrite IH.
    + assert (c = code e) as ->.
      { destruct (decide (c = code e)) as [|Hc]; [done|].
        exfalso. apply Heq. by intros [= ?]. }
      rewrite filter_all; [lia|].
      apply list.Forall_forall. intros e' He' [= Heq'].
      apply Hnotin. rewrite Heq'. by apply list_elem_of_fmap_2.
Qed.

(** C1. Here [rank] is the ranking the specification describes (its code
    is not part of the sources).  The result holds each entry of the
    store once, without those of the excluded code, with its score: as
    many as the store has and, codes being unique, no code twice and one
    entry fewer when the code to exclude is in the store (none fewer when
    it is not).  It is sorted by
    descending score, entries of equal score stand in the order of the
    store, and it is the only list with these two properties, so the
    order is determined by the input. *)
Theorem rank_stable_descending q store exclude :
  let candidates := with_score q <$> kept exclude store in
  let ranked := rank_entries q store exclude in
  rank q store exclude = (λ p : Scored, (code p.1, p.2)) <$> ranked
  ∧ ranked ≡ₚ candidates
  ∧ (unique_codes store → NoDup (rank q store exclude).*1)
  ∧ (∀ c, c ∈ (rank q store exclude).*1 ↔ c ∈ code <$> store ∧ exclude ≠ Some c)
  ∧ (∀ c sc, (c, sc) ∈ rank q store exclude →
       ∃ e, e ∈ store ∧ code e = c ∧ sc = score q (embedding e))
  ∧ (exclude = None → length (rank q store exclude) = length store)
  ∧ (∀ c, unique_codes store → exclude = Some c → c ∈ code <$> store →
       (length (rank q store exclude) + 1 = length store)%nat)
  ∧ (∀ c, exclude = Some c → c ∉ code <$> store →
       length (rank q store exclude) = length store)
  ∧ StronglySorted by_score (rank q store exclude)
  ∧ (∀ sc, ties sc ranked = ties sc candidates)
  ∧ (∀ other, StronglySorted by_score other →
       (∀ sc, ties sc other = ties sc candidates) → other = ranked).
Proof.
  intros candidates ranked.
  assert (length (rank q store exclude) = length (kept exclude store)) as Hlen.
  { unfold rank. by rewrite length_fmap, rank_entries_perm, length_fmap. }
  split; [done|].
  split; [apply rank_entries_perm|].
  split; [intros Hunique; rewrite rank_codes; by apply kept_unique|].
  split; [intros c; rewrite rank_codes; apply elem_of_kept_codes|].
  split; [|split; [|split; [|split; [|split; [|split]]]]].
  - intros c sc Hin. unfold rank in Hin.
    apply list_elem_of_fmap in Hin as ([e sc'] & [= -> ->] & Hin).
    rewrite rank_entries_perm in Hin.
    apply list_elem_of_fmap in Hin as (e' & [= -> ->] & Hin).
    apply list_elem_of_filter in Hin as [_ Hin]. by exists e'.
  - intros ->. by rewrite Hlen, kept_None.
  - intros c Hunique -> Hin. rewrite Hlen. by apply kept_length.
  - intros c -> Hnotin. rewrite Hlen. unfold kept. rewrite filter_all; [done|].
    apply list.Forall_forall. intros e He [= ->].
    apply Hnotin. by apply list_elem_of_fmap_2.
  - unfold rank. eapply StronglySorted_fmap; [|apply sort_by_score_sorted].
    by intros [] [].
  - intros sc. apply ties_sort_by_score.
  - intros other Hsorted Hties. apply sorted_ties_unique; [done| |].
    + apply sort_by_score_sorted.
    + intros sc. rewrite Hties. symmetry. apply ties_sort_by_score.
Qed.

Lemma example_store_unique : unique_codes example_store.
Proof.
  unfold unique_codes, example_store. csimpl.
  repeat (apply NoDup_cons; split); [| |by intros ?%elem_of_nil|constructor];
    rewrite ?elem_of_cons, elem_of_nil; vm_compute; intros H;
    repeat destruct H as [H|H]; done.
Qed.

Lemma rank_stable_descending_witness :
  unique_codes example_store
  ∧ (length (rank [1; 0]%R example_store (Some (Js.lit "B"))) + 1
     = length example_store)%nat.
Proof.
  split; [exact example_store_unique|].
  pose proof (rank_stable_descending [1; 0]%R example_store
                (Some (Js.lit "B")))
    as (_ & _ & _ & _ & _ & _ & Hlength & _).
  apply (Hlength (Js.lit "B") example_store_unique eq_refl).
  unfold example_store. csimpl. right. left.
Defined.

Lemma get_Some store c :
  c ∈ code <$> store →
  ∃ entry, get store c = Some entry ∧ code entry = c ∧ entry ∈ store.
Proof.
  intros (e & -> & He)%list_elem_of_fmap. unfold get.
  destruct (list_find_elem_of (λ e', code e' = code e) store e He eq_refl)
    as [[i entry] Hfind].
  rewrite Hfind. exists entry.
  apply list_find_Some in Hfind as (Hi & Hcode & _).
  split; [done|]. split; [done|]. by eapply list_elem_of_lookup_2.
Qed.

Lemma slice_subseteq {A} (a : list A) (i j : Z) : Js.slice a i j ⊆ a.
Proof.
  unfold Js.slice. etrans; [apply subseteq_take|apply subseteq_drop].
Qed.

Lemma fmap_subseteq {A B} (f : A → B) (l k : list A) :
  l ⊆ k → f <$> l ⊆ f <$> k.
Proof.
  intros Hsub y (x & -> & Hx)%list_elem_of_fmap.
  apply list_elem_of_fmap_2. by apply Hsub.
Qed.

Lemma imap_card_result (f : nat → Result → Card) (l : list Result) :
  (∀ i r, card_result (f i r) = r) → card_result <$> imap f l = l.
Proof.
  revert f. induction l as [|r l IH]; intros f Hf; csimpl; [done|].
  rewrite Hf. f_equal. apply IH. intros i. apply Hf.
Qed.

(** The cards of a page are those of the current results. *)
Lemma displayCurrentPage_shown s :
  shown_codes (resultsContainer (page (exec displayCurrentPage s)))
  = sref_code <$> currentResults (exec displayCurrentPage s).
Proof.
  rewrite displayCurrentPage_cards. unfold shown_codes.
  rewrite (list_fmap_compose card_result sref_code), imap_card_result; done.
Qed.

(** The score of two vectors that are not zero. *)
Lemma score_nonzero q v :
  magnitude q ≠ 0 → magnitude v ≠ 0 →
  score q v = dot_product q v / (magnitude q * magnitude v).
Proof.
  intros Hq Hv. unfold score, cosine_similarity, divide.
  rewrite decide_False by (intros [?|?]; done).
  rewrite decide_False; [done|].
  intros [?|?]%Rmult_integral; done.
Qed.

Lemma magnitude_unit_1 : magnitude [1; 0] = 1.
Proof.
  unfold magnitude, dot_product. simpl.
  replace (1 * 1 + (0 * 0 + 0)) with 1 by lra. apply sqrt_1.
Qed.

Lemma magnitude_unit_2 : magnitude [0; 1] = 1.
Proof.
  unfold magnitude, dot_product. simpl.
  replace (0 * 0 + (1 * 1 + 0)) with 1 by lra. apply sqrt_1.
Qed.

Lemma magnitude_diagonal : magnitude [1; 1] = sqrt 2.
Proof.
  unfold magnitude, dot_product. simpl. f_equal. lra.
Qed.

Lemma sqrt_2_gt_1 : 1 < sqrt 2.
Proof. rewrite <-sqrt_1 at 1. apply sqrt_lt_1; lra. Qed.

(** The worked example of the specification: the query (1,0) ranks A
    (score 1) before C (score 1/sqrt 2) before B (score 0). *)
Lemma rank_example :
  rank [1; 0] example_store None
  = [(Js.lit "A", 1); (Js.lit "C", 1 / (1 * sqrt 2)); (Js.lit "B", 0 / (1 * 1))].
Proof.
  pose proof sqrt_2_gt_1 as Hsqrt.
  unfold rank, rank_entries. rewrite kept_None.
  unfold example_store, with_score. csimpl.
  rewrite !score_nonzero
    by (rewrite ?magnitude_unit_1, ?magnitude_unit_2, ?magnitude_diagonal; lra).
  rewrite magnitude_unit_1, magnitude_unit_2, magnitude_diagonal.
  unfold dot_product. csimpl.
  assert (0 < / sqrt 2 < 1) as Hinv.
  { split; [apply Rinv_0_lt_compat; lra|].
    rewrite <-Rinv_1. apply Rinv_lt_contravar; lra. }
  assert ((1 * 1 + (0 * 1 + 0)) / (1 * sqrt 2) = / sqrt 2) as -> by (field; lra).
  assert ((1 * 0 + (0 * 1 + 0)) / (1 * 1) = 0) as -> by lra.
  assert ((1 * 1 + (0 * 0 + 0)) / (1 * 1) = 1) as -> by lra.
  unfold sort_by_score. simpl.
  repeat (destruct (Rlt_dec _ _); simpl in *; try lra).
  repeat f_equal; try lra. field. lra.
Qed.

(** The second worked example: the entries similar to B are C, then A. *)
Lemma search_by_code_example :
  ∃ results,
    search_by_code example_store (Js.lit "B") = inr results
    ∧ sref_code <$> results = [Js.lit "C"; Js.lit "A"].
Proof.
  pose proof sqrt_2_gt_1 as Hsqrt.
  assert (kept (Some (Js.lit "B")) example_store
          = [mkEntry (Js.lit "A") [1; 0] (Js.lit "Key themes: red") [];
             mkEntry (Js.lit "C") [1; 1] (Js.lit "Key themes: green") []])
    as Hkept.
  { unfold kept, example_store.
    rewrite filter_cons_True by (by vm_compute).
    rewrite filter_cons_False by (intros H; by apply H).
    rewrite filter_cons_True by (by vm_compute). done. }
  assert (get example_store (Js.lit "B")
          = Some (mkEntry (Js.lit "B") [0; 1] (Js.lit "Key themes: blue") []))
    as Hget.
  { destruct (get_Some example_store (Js.lit "B")) as (entry & -> & Hcode & Hin).
    { unfold example_store. csimpl. right. left. }
    unfold example_store in Hin.
    apply elem_of_cons in Hin as [->|Hin]; [by vm_compute in Hcode|].
    apply elem_of_cons in Hin as [->|Hin]; [done|].
    apply elem_of_cons in Hin as [->|Hin]; [by vm_compute in Hcode|].
    by apply elem_of_nil in Hin. }
  unfold search_by_code. rewrite Hget. simpl embedding.
  eexists. split; [done|].
  unfold rank_entries. rewrite Hkept. unfold with_score. csimpl.
  rewrite !score_nonzero
    by (rewrite ?magnitude_unit_1, ?magnitude_unit_2, ?magnitude_diagonal; lra).
  rewrite magnitude_unit_2, ?magnitude_unit_1, magnitude_diagonal.
  unfold dot_product. csimpl.
  assert (0 < / sqrt 2) as Hinv by (apply Rinv_0_lt_compat; lra).
  assert ((0 * 1 + (1 * 1 + 0)) / (1 * sqrt 2) = / sqrt 2) as -> by (field; lra).
  assert ((0 * 1 + (1 * 0 + 0)) / (1 * 1) = 0) as -> by lra.
  unfold sort_by_score. simpl.
  repeat (destruct (Rlt_dec _ _); simpl in *; try lra). done.
Qed.

(** A list display, step by step. *)
Lemma display_list_exec title empty_text s :
  exec (display_list title empty_text) s =
  let s1 := on_page (set_resultsContainer Blank)
              (on_page (set_textContent resultsTitle title) s) in
  exec showResults
    (if decide (length (allResults s) = 0%nat)
     then on_page (set_resultsContainer (NoResults empty_text)) s1
     else exec displayCurrentPage (exec updatePagination s1)).
Proof.
  unfold display_list, exec, mbind, M_bind, modify, get, showResults. simpl.
  destruct (decide (length (allResults s) = 0%nat)); simpl; [done|].
  by rewrite updatePagination_run.
Qed.

(** A list display shows cards of the result list only. *)
Lemma display_list_shown title empty_text s :
  shown_codes (resultsContainer (page (exec (display_list title empty_text) s)))
  ⊆ sref_code <$> allResults s.
Proof.
  rewrite display_list_exec. cbn zeta.
  destruct (decide (length (allResults s) = 0%nat)).
  - simpl. apply list_subseteq_nil.
  - set (s1 := on_page _ _).
    change (resultsContainer (page (exec showResults ?s2)))
      with (resultsContainer (page s2)).
    rewrite displayCurrentPage_shown, displayCurrentPage_currentResults.
    destruct (updatePagination_keeps s1) as (_ & _ & -> & _).
    apply fmap_subseteq, slice_subseteq.
Qed.

(** C3. Here the service is the one the specification describes (its
    code is not part of the sources).  For a code [X] of the store,
    search_by_code answers with the ranking of the store without the
    entry of [X], one entry fewer than the store when codes are unique;
    [findSimilarSREFs] installs that list as the full result list, so the
    exclusion is made on the whole list, before any page is cut from it:
    [X] is on no card that is shown then, in no slice of the list, and on
    no page shown later from this list. *)
Theorem findSimilar_excludes_reference
    (encode : str → option (list R)) (catalog : list str) store (X : str) s :
  X ∈ code <$> store →
  let net := network encode store catalog in
  let s' := exec (findSimilarSREFs net X) s in
  ∃ entry,
    get store X = Some entry
    ∧ code entry = X
    ∧ let ranked := rank_entries (embedding entry) store (Some X) in
      search_by_code store X = inr (package <$> ranked)
      ∧ ranked.*1 ≡ₚ filter (λ e, code e ≠ X) store
      ∧ allResults s' = package <$> ranked
      ∧ (X ∉ sref_code <$> allResults s')
      ∧ (unique_codes store → (length (allResults s') + 1 = length store)%nat)
      ∧ (X ∉ shown_codes (resultsContainer (page s')))
      ∧ (∀ i j, X ∉ (sref_code <$> Js.slice (allResults s') i j))
      ∧ (∀ t, allResults t = allResults s' →
           X ∉ shown_codes (resultsContainer (page (exec displayCurrentPage t)))).
Proof.
  intros Hin net s'.
  destruct (get_Some store X Hin) as (entry & Hget & Hcode & _).
  exists entry. split; [done|]. split; [done|]. cbn zeta.
  set (ranked := rank_entries (embedding entry) store (Some X)).
  assert (search_by_code store X = inr (package <$> ranked)) as Hsearch.
  { unfold search_by_code. by rewrite Hget. }
  assert (accepted (post_similar net X)
          = Some (mkSimilarData X (package <$> ranked))) as Hacc.
  { subst net. simpl. by rewrite Hsearch. }
  assert (sref_code <$> (package <$> ranked) = code <$> ranked.*1) as Hcodes.
  { by rewrite <-!list_fmap_compose. }
  assert (X ∉ (sref_code <$> (package <$> ranked))) as Hnotin.
  { rewrite Hcodes. subst ranked. rewrite rank_entries_fst.
    intros [_ ?]%elem_of_kept_codes. done. }
  destruct (findSimilarSREFs_accepted net X s _ Hacc)
    as (_ & _ & Hall & _).
  fold s' in Hall. simpl in Hall. rewrite Hall.
  split; [done|].
  split.
  { subst ranked. rewrite rank_entries_fst. unfold kept.
    erewrite list_filter_iff; [done|]. intros e. simpl. split.
    - intros Hne Heq. apply Hne. by rewrite Heq.
    - intros Hne [= Heq]. by apply Hne. }
  split; [done|]. split; [done|].
  split.
  { intros Hunique. rewrite length_fmap. subst ranked.
    rewrite rank_entries_perm, length_fmap. by apply kept_length. }
  split.
  { intros Hshown. apply Hnotin.
    subst s'. unfold exec in Hshown. rewrite findSimilarSREFs_run, Hacc in Hshown.
    unfold displaySimilarResults in Hshown.
    apply (display_list_shown _ _ _ X) in Hshown. exact Hshown. }
  split.
  { intros i j Hslice. apply Hnotin.
    by apply (fmap_subseteq _ _ _ (slice_subseteq _ i j)). }
  intros t Ht. rewrite displayCurrentPage_shown, displayCurrentPage_currentResults.
  rewrite Ht. intros Hslice. apply Hnotin.
  revert Hslice. apply fmap_subseteq, slice_subseteq.
Qed.

Lemma findSimilar_excludes_reference_witness :
  let net := network (λ _, None) example_store [] in
  Js.lit "B" ∈ code <$> example_store
  ∧ Js.lit "B" ∉ (sref_code
      <$> allResults (exec (findSimilarSREFs net (Js.lit "B"))
                           (initial_state example_page))).
Proof.
  intros net.
  assert (Js.lit "B" ∈ code <$> example_store) as Hin.
  { unfold example_store. csimpl. right. left. }
  split; [exact Hin|].
  destruct (findSimilar_excludes_reference (λ _, None) [] example_store
              (Js.lit "B") (initial_state example_page) Hin)
    as (entry & _ & _ & _ & _ & _ & Hnotin & _).
  exact Hnotin.
Defined.

End ranking.

(* ===================================================================== *)
(** * Worked examples *)
(* ===================================================================== *)

Section examples.

(** The summaries of the README: a count after a term is dropped with
    the rest of the term, short words are dropped, five tags are kept. *)
Example extractTags_counts :
  extractTags (Js.lit "Key themes: painting (5), background (3), of, flowers, colors, sky, sea")
  = [Js.lit "painting"; Js.lit "background"; Js.lit "flowers"; Js.lit "colors";
     Js.lit "sky"].
Proof. vm_compute. reflexivity. Qed.

Example extractTags_second_line :
  extractTags (Js.lit "SREF 7" ++ [10%N] ++ Js.lit "Key themes: white, black"
               ++ [10%N] ++ Js.lit "more, text")
  = [Js.lit "white"; Js.lit "black"].
Proof. vm_compute. reflexivity. Qed.

Example extractTags_label_only :
  extractTags (Js.lit "Key themes: ") = [Js.lit "visual"; Js.lit "style"].
Proof. vm_compute. reflexivity. Qed.

(** A click on the search button with only spaces in the box. *)
Example blank_box :
  let s := exec (performSearch offline None)
                (on_page (set_searchInput (Js.lit "   ")) (initial_state example_page)) in
  requests s = []
  ∧ textContent (page s) errorText = Js.lit "Please enter a search term"
  ∧ hidden (page s) errorMessage = false.
Proof. repeat split; vm_compute; reflexivity. Qed.

(** A click with text in the box: the text is trimmed and sent; the
    network is down, so the failure is shown. *)
Example padded_box :
  let s := exec (performSearch offline None)
                (on_page (set_searchInput (Js.lit "  blue sky ")) (initial_state example_page)) in
  requests s = [mkRequest (Js.lit "/search") (Some (Js.lit "blue sky"))]
  ∧ textContent (page s) errorText = Js.lit "Search failed: Failed to fetch"
  ∧ hidden (page s) loadingIndicator = true.
Proof. repeat split; vm_compute; reflexivity. Qed.

(** Twenty results: three pages; the third holds the last two. *)
Example three_pages :
  let s := run [Submit (example_network (example_results 20) TagsOther)
                       (Some (Js.lit "blue"));
                NextClicked; NextClicked; NextClicked]
               (initial_state example_page) in
  totalPages s = 3%Z
  ∧ currentPage s = 3%Z
  ∧ sref_code <$> currentResults s = [Js.lit "18"; Js.lit "19"]
  ∧ hidden (page s) pagination = false
  ∧ disabled (page s) nextButton = true
  ∧ textContent (page s) paginationInfo = Js.lit "Page 3 of 3".
Proof. repeat split; vm_compute; reflexivity. Qed.

(** The tags when the network is down, and when the reply has no array. *)
Example tags_offline :
  let s := exec (loadTags offline) (initial_state example_page) in
  availableTags s = fallback_tags
  ∧ displayedTags s
    = [Js.lit "abstract"; Js.lit "art"; Js.lit "photorealistic"; Js.lit "portrait";
       Js.lit "minimalist"; Js.lit "design"].
Proof. repeat split; vm_compute; reflexivity. Qed.

Example tags_not_an_array :
  availableTags (exec (loadTags (example_network [] TagsOther))
                      (initial_state example_page))
  = fallback_tags.
Proof. vm_compute. reflexivity. Qed.

(** A shuffle in which every call of [Math.random()] gives 1/2. *)
Example shuffle_halves :
  let half := mkDraw 1 2 eq_refl in
  shuffled_copy (λ _, half) [Js.lit "a"; Js.lit "b"; Js.lit "c"; Js.lit "d"]
  = Some [Js.lit "a"; Js.lit "d"; Js.lit "b"; Js.lit "c"].
Proof. vm_compute. reflexivity. Qed.

End examples.

(* ===================================================================== *)
(** * The result view across a session *)
(* ===================================================================== *)

Section result_view.

Implicit Types (s t : State) (net : Network).

Lemma same_state_refl s : same_state s s.
Proof. by repeat split. Qed.

Lemma shows_current_page_same_view s t :
  same_view s t → shows_current_page s → shows_current_page t.
Proof.
  intros (Hp & Hn & Hall & Hcur & Hbox & Hhid & Hdis & Htxt).
  unfold shows_current_page, page_results, page_cards, totalPages.
  rewrite displayCurrentPage_cards, !displayCurrentPage_currentResults. simpl.
  by rewrite Hp, Hn, Hall, Hcur, Hbox, Hhid, Hdis, Htxt.
Qed.

Lemma displayCurrentPage_texts s :
  textContent (page (exec displayCurrentPage s)) = textContent (page s).
Proof. reflexivity. Qed.

Lemma updatePagination_hidden_other s e :
  e ≠ pagination →
  hidden (page (exec updatePagination s)) e = hidden (page s) e.
Proof.
  intros He. unfold updatePagination, exec, mbind, M_bind, get. simpl.
  destruct (totalPages s <=? 1)%Z; simpl; by destruct e.
Qed.

Lemma updatePagination_texts_other s x :
  x ≠ paginationInfo →
  textContent (page (exec updatePagination s)) x = textContent (page s) x.
Proof.
  intros Hx. unfold updatePagination, exec, mbind, M_bind, get. simpl.
  destruct (totalPages s <=? 1)%Z; simpl; by destruct x.
Qed.

Lemma updatePagination_single s :
  (totalPages s ≤ 1)%Z →
  disabled (page (exec updatePagination s)) = disabled (page s)
  ∧ textContent (page (exec updatePagination s)) = textContent (page s).
Proof.
  intros Ht. unfold updatePagination, exec, mbind, M_bind, get. simpl.
  destruct (Z.leb_spec (totalPages s) 1); [done|lia].
Qed.

(** After the two display steps, in either order, the page shows the
    current page. *)
Lemma shows_after_turn s :
  shows_current_page (exec updatePagination (exec displayCurrentPage s)).
Proof.
  set (s1 := exec displayCurrentPage s).
  destruct (updatePagination_keeps s1) as (Hp & Hn & Hall & Hcur & _ & _ & _ & _ & Hbox).
  assert (totalPages (exec updatePagination s1) = totalPages s) as Htotal.
  { unfold totalPages. by rewrite Hn, Hall. }
  unfold shows_current_page, page_results, page_cards.
  rewrite displayCurrentPage_cards, !displayCurrentPage_currentResults. simpl.
  rewrite Htotal, Hp, Hn, Hall, Hcur, Hbox.
  split; [done|]. split; [done|].
  split; [by rewrite updatePagination_hidden|].
  intros Hmany. by destruct (updatePagination_buttons s1 Hmany) as (-> & -> & ->).
Qed.

Lemma shows_after_display s :
  shows_current_page (exec displayCurrentPage (exec updatePagination s)).
Proof.
  set (s1 := exec updatePagination s).
  destruct (updatePagination_keeps s) as (Hp & Hn & Hall & _).
  fold s1 in Hp, Hn, Hall.
  assert (totalPages (exec displayCurrentPage s1) = totalPages s) as Htotal.
  { unfold totalPages. simpl. by rewrite Hn, Hall. }
  destruct (displayCurrentPage_keeps s1) as (Hp' & _ & _ & _ & _ & _ & Hhid & Hdis & _).
  unfold shows_current_page, page_results, page_cards.
  rewrite Htotal, Hhid, Hdis, displayCurrentPage_texts, Hp'.
  split; [done|]. split; [done|].
  split; [apply updatePagination_hidden|].
  intros Hmany. rewrite Hp. subst s1.
  by destruct (updatePagination_buttons s Hmany) as (-> & -> & ->).
Qed.

End result_view.

(* ===================================================================== *)
(** * The view invariant *)
(* ===================================================================== *)

Section view_session.

Implicit Types (s t : State) (net : Network).

Lemma view_invariant_frame s t :
  same_view s t →
  availableTags s = availableTags t →
  displayedTags s = displayedTags t →
  exampleTags (page s) = exampleTags (page t) →
  view_invariant s → view_invariant t.
Proof.
  intros Hview Ha Hd He (Hone & Hshows & Htags & Hsync).
  pose proof Hview as (Hp & _ & Hall & _).
  unfold view_invariant. rewrite <-Hp, <-Hall, <-Ha, <-Hd, <-He.
  split; [done|]. split; [|by split].
  intros Hne. apply (shows_current_page_same_view s); [done|by apply Hshows].
Qed.

(** The view after a new list has been installed and displayed. *)
Lemma view_invariant_display title empty_text s s1 :
  currentPage s1 = 1%Z →
  availableTags s1 = availableTags s →
  displayedTags s1 = displayedTags s →
  exampleTags (page s1) = exampleTags (page s) →
  view_invariant s →
  view_invariant (exec hideLoading (exec (display_list title empty_text) s1)).
Proof.
  intros Hp Ha Hd He (_ & _ & Htags & Hsync).
  rewrite display_list_exec. cbn zeta.
  set (s2 := on_page (set_resultsContainer Blank)
               (on_page (set_textContent resultsTitle title) s1)).
  destruct (decide (length (allResults s1) = 0)) as [Hlen|Hlen].
  - split; [done|]. split.
    + intros Hne. simpl in Hne. by destruct (allResults s1).
    + simpl. by rewrite Ha, Hd, He.
  - set (s3 := exec displayCurrentPage (exec updatePagination s2)).
    assert (shows_current_page s3) as Hshows by apply shows_after_display.
    destruct (updatePagination_keeps s2) as (_ & _ & Hall & _ & Ha' & Hd' & _).
    assert (allResults s3 = allResults s1) as Hall3 by (subst s3; simpl; by rewrite Hall).
    apply (view_invariant_frame s3); [by repeat split|done..|].
    split; [intros Hnil; rewrite Hall3 in Hnil; by rewrite Hnil in Hlen|].
    split; [done|].
    assert (availableTags s3 = availableTags s) as -> by (subst s3; simpl; by rewrite Ha').
    assert (displayedTags s3 = displayedTags s) as -> by (subst s3; simpl; by rewrite Hd').
    assert (exampleTags (page s3) = exampleTags (page s)) as ->; [|done].
    subst s3. simpl. rewrite <-He. clear.
    unfold updatePagination, exec, mbind, M_bind, get. simpl.
    by destruct (totalPages s2 <=? 1)%Z.
Qed.

Lemma performSearch_view net query s :
  view_invariant s → view_invariant (exec (performSearch net query) s).
Proof.
  intros Hinv. destruct (decide (effective_query query s = [])) as [Hq|Hq].
  - unfold exec. rewrite performSearch_empty by done.
    apply (view_invariant_frame s); [by repeat split|done..].
  - unfold exec at 1. rewrite performSearch_run by done.
    destruct (accepted _) as [data|]; cbn [fst].
    + unfold displayResults. by apply (view_invariant_display _ _ s).
    + apply (view_invariant_frame s); [by repeat split|done..].
Qed.

Lemma findSimilarSREFs_view net srefCode s :
  view_invariant s → view_invariant (exec (findSimilarSREFs net srefCode) s).
Proof.
  intros Hinv. unfold exec at 1. rewrite findSimilarSREFs_run.
  destruct (accepted _) as [data|]; cbn [fst].
  - unfold displaySimilarResults. by apply (view_invariant_display _ _ s).
  - apply (view_invariant_frame s); [by repeat split|done..].
Qed.

Lemma turn_page_view (p : Z) s :
  allResults s ≠ [] →
  view_invariant s →
  view_invariant (exec updatePagination (exec displayCurrentPage (set_currentPage p s))).
Proof.
  intros Hne (_ & _ & Htags & Hsync).
  set (s1 := exec displayCurrentPage (set_currentPage p s)).
  destruct (updatePagination_keeps s1) as (_ & _ & Hall & _ & Ha & Hd & _).
  assert (exampleTags (page (exec updatePagination s1)) = exampleTags (page s)) as He.
  { unfold updatePagination, exec, mbind, M_bind, get. simpl.
    by destruct (totalPages s1 <=? 1)%Z. }
  unfold view_invariant. rewrite Hall, Ha, Hd, He.
  split; [done|]. split; [|done].
  intros _. apply shows_after_turn.
Qed.

Lemma totalPages_empty s :
  resultsPerPage s = 9%Z → allResults s = [] → totalPages s = 0%Z.
Proof. unfold totalPages. by intros -> ->. Qed.

Lemma previousPage_view s :
  page_invariant s → view_invariant s → view_invariant (exec previousPage s).
Proof.
  intros (Hnine & _) Hinv. unfold exec. rewrite previousPage_run. cbn [fst].
  destruct (Z.ltb_spec 1 (currentPage s)); [|done].
  apply turn_page_view; [|done].
  intros Hnil. destruct Hinv as (Hone & _). rewrite (Hone Hnil) in *. lia.
Qed.

Lemma nextPage_view s :
  page_invariant s → view_invariant s → view_invariant (exec nextPage s).
Proof.
  intros (Hnine & Hge & _) Hinv. unfold exec. rewrite nextPage_run. cbn [fst].
  destruct (Z.ltb_spec (currentPage s) (totalPages s)); [|done].
  apply turn_page_view; [|done].
  intros Hnil. rewrite (totalPages_empty s Hnine Hnil) in *. lia.
Qed.

Lemma loadTags_view net s :
  view_invariant s → view_invariant (exec (loadTags net) s).
Proof.
  intros (Hone & Hshows & _). unfold exec. rewrite loadTags_run. cbn [fst].
  set (tags := default fallback_tags (accepted_tags (get_tags net))).
  split; [done|]. split.
  - intros Hne. apply (shows_current_page_same_view s); [by repeat split|].
    by apply Hshows.
  - split; [by exists tags|done].
Qed.

Lemma shuffleExamples_view random s :
  view_invariant s → view_invariant (exec (shuffleExamples random) s).
Proof.
  intros Hinv. unfold exec. rewrite shuffleExamples_run. cbn [fst].
  destruct (availableTags s) as [|tag tags] eqn:Htags; [done|].
  destruct (shuffled_copy_Some random (tag :: tags)) as (shuffled & -> & Hperm).
  destruct Hinv as (Hone & Hshows & _).
  split; [done|]. split.
  - intros Hne. apply (shows_current_page_same_view s); [by repeat split|].
    by apply Hshows.
  - simpl. rewrite Htags. split; [by exists shuffled|done].
Qed.

(** Every state of a session satisfies the view invariant. *)
Lemma reachable_view s : reachable s → view_invariant s.
Proof.
  induction 1 as [html|s ev Hs IH].
  - split; [done|]. split; [done|]. split; [by exists []|done].
  - pose proof (reachable_invariant s Hs) as Hpage.
    destruct ev; simpl.
    + by apply performSearch_view.
    + apply (view_invariant_frame s); [by repeat split|done..].
    + by apply findSimilarSREFs_view.
    + apply performSearch_view. apply (view_invariant_frame s); [by repeat split|done..].
    + apply performSearch_view. apply (view_invariant_frame s); [by repeat split|done..].
    + by apply previousPage_view.
    + by apply nextPage_view.
    + by apply loadTags_view.
    + by apply shuffleExamples_view.
Qed.

End view_session.


(* ===================================================================== *)
(** * Page turns, pages and example tags *)
(* ===================================================================== *)

Section view_properties.

Implicit Types (s t : State) (net : Network).






End view_properties.

Section view_properties_2.

Implicit Types (s t : State) (net : Network).

(** X6. In every state of a session with more than one page, the
    pagination controls are visible, the previous button is disabled
    exactly on page 1 and the next button exactly on the last page, the
    label names the current page and the page count, and the results and
    cards shown are those of the current page.  A disabled button does
    nothing when its handler runs all the same, and an enabled one moves
    one page. *)
Theorem pagination_controls_agree s :
  reachable s →
  (1 < totalPages s)%Z →
  hidden (page s) pagination = false
  ∧ disabled (page s) prevButton = (currentPage s =? 1)%Z
  ∧ disabled (page s) nextButton = (currentPage s =? totalPages s)%Z
  ∧ textContent (page s) paginationInfo = page_of (currentPage s) (totalPages s)
  ∧ currentResults s = page_results s (currentPage s)
  ∧ resultsContainer (page s) = page_cards s (currentPage s)
  ∧ (disabled (page s) prevButton = true → exec previousPage s = s)
  ∧ (disabled (page s) nextButton = true → exec nextPage s = s)
  ∧ (disabled (page s) prevButton = false →
     currentPage (exec previousPage s) = (currentPage s - 1)%Z)
  ∧ (disabled (page s) nextButton = false →
     currentPage (exec nextPage s) = (currentPage s + 1)%Z).
Proof.
  intros Hs Hmany.
  pose proof (reachable_invariant s Hs) as (Hnine & Hone & Hrange & _).
  pose proof (reachable_view s Hs) as (_ & Hshows & _).
  assert (allResults s ≠ []) as Hne.
  { intros Hnil. rewrite (totalPages_empty s Hnine Hnil) in Hmany. lia. }
  destruct (Hrange Hne) as [Hle _].
  destruct (Hshows Hne) as (Hcur & Hbox & Hhid & Hbuttons).
  destruct (Hbuttons Hmany) as (Hprev & Hnext & Htext).
  split; [rewrite Hhid; by apply Z.leb_gt|].
  split; [done|]. split; [done|]. split; [done|]. split; [done|]. split; [done|].
  rewrite Hprev, Hnext. unfold exec. rewrite previousPage_run, nextPage_run.
  cbn [fst].
  split; [intros ->%Z.eqb_eq; by destruct (Z.ltb_spec 1 1); [lia|]|].
  split; [intros ->%Z.eqb_eq; by rewrite Z.ltb_irrefl|].
  split.
  - intros Hp%Z.eqb_neq. destruct (Z.ltb_spec 1 (currentPage s)); [|lia].
    by destruct (turn_page_effect (currentPage s - 1) s) as (-> & _).
  - intros Hp%Z.eqb_neq.
    destruct (Z.ltb_spec (currentPage s) (totalPages s)); [|lia].
    by destruct (turn_page_effect (currentPage s + 1) s) as (-> & _).
Qed.

Lemma pagination_controls_agree_witness :
  let s := run [Submit (example_network (example_results 20) TagsOther)
                       (Some (Js.lit "blue"));
                NextClicked; NextClicked]
               (initial_state example_page) in
  reachable s
  ∧ (1 < totalPages s)%Z
  ∧ disabled (page s) nextButton = true
  ∧ exec nextPage s = s.
Proof.
  intros s.
  assert (reachable s) as Hs.
  { apply reachable_run. apply reachable_initial. }
  assert (1 < totalPages s)%Z as Hmany by (by vm_compute).
  assert (disabled (page s) nextButton = true) as Hnext by (by vm_compute).
  split; [exact Hs|]. split; [exact Hmany|]. split; [exact Hnext|].
  destruct (pagination_controls_agree s Hs Hmany)
    as (_ & _ & _ & _ & _ & _ & _ & Hstay & _).
  exact (Hstay Hnext).
Defined.

(** X8. In every state of a session with an empty result list the
    current page is 1, the page count is 0, and the two page buttons
    change nothing. *)
Theorem empty_list_page_buttons s :
  reachable s →
  allResults s = [] →
  currentPage s = 1%Z
  ∧ totalPages s = 0%Z
  ∧ exec previousPage s = s
  ∧ exec nextPage s = s.
Proof.
  intros Hs Hnil.
  pose proof (reachable_invariant s Hs) as (Hnine & _).
  pose proof (reachable_view s Hs) as (Hfirst & _).
  pose proof (totalPages_empty s Hnine Hnil) as Htotal.
  split; [by apply Hfirst|]. split; [done|].
  unfold exec. rewrite previousPage_run, nextPage_run, (Hfirst Hnil), Htotal.
  done.
Qed.

Lemma empty_list_page_buttons_witness :
  let s := run [Submit (example_network [] TagsOther) (Some (Js.lit "blue"))]
               (initial_state example_page) in
  reachable s
  ∧ allResults s = []
  ∧ currentPage s = 1%Z
  ∧ totalPages s = 0%Z
  ∧ exec previousPage s = s
  ∧ exec nextPage s = s.
Proof.
  intros s.
  assert (reachable s) as Hs.
  { apply reachable_run. apply reachable_initial. }
  assert (allResults s = []) as Hnil by (by vm_compute).
  split; [exact Hs|]. split; [exact Hnil|].
  exact (empty_list_page_buttons s Hs Hnil).
Defined.

Lemma page_results_take s (p : nat) :
  (0 < resultsPerPage s)%Z →
  page_results s (Z.of_nat (S p))
  = take (Z.to_nat (resultsPerPage s))
         (drop (p * Z.to_nat (resultsPerPage s)) (allResults s)).
Proof.
  intros Hn. unfold page_results. rewrite displayCurrentPage_currentResults.
  simpl. rewrite slice_nonneg by nia. f_equal; [lia|]. f_equal. nia.
Qed.

Lemma chunks_concat {A} (n : nat) (l : list A) (j k : nat) :
  length l ≤ (j + k) * n →
  concat ((λ p, take n (drop (p * n) l)) <$> seq j k) = drop (j * n) l.
Proof.
  revert j. induction k as [|k IH]; intros j Hlen; simpl.
  - rewrite drop_ge; [done|]. lia.
  - rewrite IH by lia. rewrite <-(take_drop n (drop (j * n) l)) at 2.
    rewrite drop_drop. do 2 f_equal. lia.
Qed.

(** X9. For a positive page size, the pages from 1 to the page count,
    one after the other, are the result list: no result is left out,
    none is shown twice.  Result number [k], counted from 0, is on page
    [k / n + 1] at position [k mod n], and its card has rank [k + 1]. *)
Theorem pages_cover s :
  (0 < resultsPerPage s)%Z →
  let n := Z.to_nat (resultsPerPage s) in
  concat ((λ p, page_results s (Z.of_nat p)) <$> seq 1 (Z.to_nat (totalPages s)))
  = allResults s
  ∧ (∀ k result,
       allResults s !! k = Some result →
       page_results s (Z.of_nat (k `div` n + 1)) !! (k `mod` n) = Some result
       ∧ ∃ cards,
           page_cards s (Z.of_nat (k `div` n + 1)) = Cards cards
           ∧ cards !! (k `mod` n)
             = Some (createResultCard result (Z.of_nat (k + 1)))).
Proof.
  intros Hn n.
  assert (0 < n) as Hpos by lia.
  split.
  - pose proof (totalPages_spec s Hn) as [_ Hup].
    pose proof (totalPages_nonneg s Hn) as Hnonneg.
    rewrite <-(fmap_S_seq 0), <-list_fmap_compose.
    erewrite list_fmap_ext; [|intros i p _; apply (page_results_take s p Hn)].
    fold n. rewrite (chunks_concat n (allResults s) 0); [done|]. nia.
  - intros k result Hk.
    assert (page_results s (Z.of_nat (k `div` n + 1)) !! (k `mod` n) = Some result)
      as Hres.
    { replace (k `div` n + 1) with (S (k `div` n)) by lia.
      rewrite page_results_take by done. fold n.
      pose proof (Nat.mod_upper_bound k n ltac:(lia)).
      rewrite lookup_take_lt, lookup_drop by done.
      rewrite <-Hk. f_equal. pose proof (Nat.div_mod k n ltac:(lia)). lia. }
    split; [done|].
    eexists. unfold page_cards. rewrite displayCurrentPage_cards.
    split; [done|]. fold (page_results s (Z.of_nat (k `div` n + 1))).
    rewrite list_lookup_imap, Hres. simpl. do 2 f_equal.
    pose proof (Nat.div_mod k n ltac:(lia)). nia.
Qed.

Lemma pages_cover_witness :
  let s := run [Submit (example_network (example_results 20) TagsOther)
                       (Some (Js.lit "blue"))]
               (initial_state example_page) in
  (0 < resultsPerPage s)%Z
  ∧ concat ((λ p, page_results s (Z.of_nat p)) <$> seq 1 (Z.to_nat (totalPages s)))
    = allResults s.
Proof.
  intros s.
  assert (0 < resultsPerPage s)%Z as Hn by (by vm_compute).
  split; [exact Hn|].
  exact (proj1 (pages_cover s Hn)).
Defined.

(** X10. In every state of a session the displayed example tags
    are six of the available tags, or all of them when there are fewer:
    every displayed tag is available, they are distinct when the available
    tags are, with at most six available tags each is displayed, and when
    tags are available the example tags on the page are the displayed
    ones. *)
Theorem example_tags_invariant s :
  reachable s →
  length (displayedTags s) = 6 `min` length (availableTags s)
  ∧ (∀ tag, tag ∈ displayedTags s → tag ∈ availableTags s)
  ∧ (NoDup (availableTags s) → NoDup (displayedTags s))
  ∧ (length (availableTags s) ≤ 6 → displayedTags s ≡ₚ availableTags s)
  ∧ (availableTags s ≠ [] → exampleTags (page s) = displayedTags s).
Proof.
  intros (_ & _ & (shuffled & Hperm & ->) & Hsync)%reachable_view.
  pose proof (sample_of_permutation 6 _ _ Hperm) as Hsix.
  cbn zeta in Hsix. rewrite slice_from_0 in Hsix.
  destruct Hsix as (? & ? & ? & ?). done.
Qed.

Lemma example_tags_invariant_witness :
  let half := mkDraw 1 2 eq_refl in
  let s := run [TagsRequested offline; ShuffleClicked (λ _, half)]
               (initial_state example_page) in
  reachable s
  ∧ length (displayedTags s) = 6 `min` length (availableTags s)
  ∧ (∀ tag, tag ∈ displayedTags s → tag ∈ availableTags s).
Proof.
  intros half s.
  assert (reachable s) as Hs.
  { apply reachable_run. apply reachable_initial. }
  split; [exact Hs|].
  destruct (example_tags_invariant s Hs) as (Hlen & Hsub & _).
  split; [exact Hlen|exact Hsub].
Defined.

End view_properties_2.


(* ===================================================================== *)
(** * Searches *)
(* ===================================================================== *)

Section search_properties.

Implicit Types (s t : State) (net : Network).

(** X1. Neither [performSearch] nor [findSimilarSREFs] ever throws,
    whatever the network answers.  A search with an empty query sends
    nothing and leaves the loading indicator as it was; a search with
    another query sends exactly one request, whose payload is that query,
    and a find-similar request sends exactly one request, whose payload is
    the code; both end with the loading indicator hidden. *)
Theorem search_never_throws net s :
  (∀ query,
     let s' := exec (performSearch net query) s in
     outcome (performSearch net query) s = Normal tt
     ∧ (effective_query query s = [] →
        requests s' = requests s
        ∧ hidden (page s') loadingIndicator = hidden (page s) loadingIndicator)
     ∧ (effective_query query s ≠ [] →
        requests s'
        = requests s ++ [mkRequest search_url (Some (effective_query query s))]
        ∧ hidden (page s') loadingIndicator = true))
  ∧ (∀ srefCode,
       let s' := exec (findSimilarSREFs net srefCode) s in
       outcome (findSimilarSREFs net srefCode) s = Normal tt
       ∧ requests s' = requests s ++ [mkRequest similar_url (Some srefCode)]
       ∧ hidden (page s') loadingIndicator = true).
Proof.
  split.
  - intros query s'. subst s'. unfold exec, outcome.
    destruct (decide (effective_query query s = [])) as [Hq|Hq].
    + rewrite performSearch_empty by done. done.
    + rewrite performSearch_run by done.
      destruct (accepted _) as [data|]; cbn [fst snd].
      * split; [done|]. split; [done|]. intros _.
        unfold displayResults.
        match goal with
        | |- context [exec (display_list ?t ?e) ?s1] =>
            destruct (display_list_effect t e s1) as (_ & _ & _ & _ & _ & Hr & _)
        end.
        split; [|done]. etrans; [exact Hr|done].
      * done.
  - intros srefCode s'. subst s'. unfold exec, outcome.
    rewrite findSimilarSREFs_run.
    destruct (accepted _) as [data|]; cbn [fst snd]; [|done].
    split; [done|]. unfold displaySimilarResults.
    match goal with
    | |- context [exec (display_list ?t ?e) ?s1] =>
        destruct (display_list_effect t e s1) as (_ & _ & _ & _ & _ & Hr & _)
    end.
    split; [|done]. etrans; [exact Hr|done].
Qed.

(** X3. A search with a non-empty query whose reply is not accepted
    (the request fails, the body cannot be parsed, or the status is not
    ok) keeps the former list, page, page results, cards and pagination
    flag, leaves the results section hidden, and shows the error
    [Search failed: ] followed by the reason: the message of what was
    thrown, or the error text of the reply, or [Search failed] when the
    reply has no error text. *)
Theorem refused_search_keeps_list net query s :
  effective_query query s ≠ [] →
  accepted (post_search net (effective_query query s)) = None →
  let reply := post_search net (effective_query query s) in
  let s' := exec (performSearch net query) s in
  allResults s' = allResults s
  ∧ currentPage s' = currentPage s
  ∧ currentResults s' = currentResults s
  ∧ resultsContainer (page s') = resultsContainer (page s)
  ∧ hidden (page s') pagination = hidden (page s) pagination
  ∧ hidden (page s') resultsSection = true
  ∧ hidden (page s') errorMessage = false
  ∧ textContent (page s') errorText
    = Js.lit "Search failed: " ++ refusal (Js.lit "Search failed") reply
  ∧ (∀ message, reply = Thrown message →
       textContent (page s') errorText = Js.lit "Search failed: " ++ message)
  ∧ (∀ data, reply = Normal (mkResponse false (Normal data)) →
       error data = None ∨ error data = Some [] →
       textContent (page s') errorText = Js.lit "Search failed: Search failed").
Proof.
  intros Hq Hacc reply s'. subst s' reply. unfold exec.
  rewrite performSearch_run, Hacc by done. cbn [fst].
  repeat (split; [done|]).
  split.
  - by intros message ->.
  - intros data -> [Herr|Herr]; simpl; by rewrite Herr.
Qed.

Lemma refused_search_keeps_list_witness :
  let s := initial_state example_page in
  let query := Some (Js.lit "blue") in
  effective_query query s ≠ []
  ∧ accepted (post_search offline (effective_query query s)) = None
  ∧ allResults (exec (performSearch offline query) s) = allResults s.
Proof.
  intros s query.
  assert (effective_query query s ≠ []) as Hq by (by vm_compute).
  assert (accepted (post_search offline (effective_query query s)) = None) as Hacc
    by reflexivity.
  split; [exact Hq|]. split; [exact Hacc|].
  exact (proj1 (refused_search_keeps_list offline query s Hq Hacc)).
Defined.

(** X2. A search with a non-empty query whose reply is accepted
    makes the results of the reply the list, goes to page 1, leaves the
    search box as it is, shows the results section, hides the error and
    names the query of the reply in the title.  With no results the
    container holds the no-results message, while the results of the
    former page and the pagination flag stay; otherwise the page shown is
    the first [resultsPerPage] results and the view agrees with page 1. *)
Theorem accepted_search_shows_first_page net asked s data :
  effective_query asked s ≠ [] →
  accepted (post_search net (effective_query asked s)) = Some data →
  let s' := exec (performSearch net asked) s in
  allResults s' = results data
  ∧ currentPage s' = 1%Z
  ∧ searchInput (page s') = searchInput (page s)
  ∧ hidden (page s') resultsSection = false
  ∧ hidden (page s') errorMessage = true
  ∧ textContent (page s') resultsTitle
    = Js.lit "Results for " ++ [quote] ++ query data ++ [quote]
  ∧ (results data = [] →
     resultsContainer (page s') = NoResults no_results_text
     ∧ currentResults s' = currentResults s
     ∧ hidden (page s') pagination = hidden (page s) pagination)
  ∧ (results data ≠ [] →
     currentResults s' = Js.slice (results data) 0 (resultsPerPage s)
     ∧ shows_current_page s').
Proof.
  intros Hq Hacc s'.
  set (title := Js.lit "Results for " ++ [quote] ++ query data ++ [quote]).
  set (sent := log_request (mkRequest search_url (Some (effective_query asked s)))
                 (exec hideResults (exec hideError (exec showLoading s)))).
  set (s1 := set_currentPage 1 (set_allResults (results data) sent)).
  set (s2 := on_page (set_resultsContainer Blank)
               (on_page (set_textContent resultsTitle title) s1)).
  assert (s' = exec hideLoading (exec showResults
            (if decide (length (results data) = 0)
             then on_page (set_resultsContainer (NoResults no_results_text)) s2
             else exec displayCurrentPage (exec updatePagination s2)))) as ->.
  { subst s'. unfold exec at 1. rewrite performSearch_run, Hacc by done.
    cbn [fst]. unfold displayResults. by rewrite display_list_exec. }
  destruct (decide (length (results data) = 0)) as [Hlen|Hlen].
  - apply length_zero_iff_nil in Hlen.
    split; [done|]. split; [done|]. split; [done|]. split; [done|].
    split; [done|]. split; [done|]. split; [done|].
    intros Hne. by rewrite Hlen in Hne.
  - set (s3 := exec displayCurrentPage (exec updatePagination s2)).
    destruct (updatePagination_keeps s2) as (Hp & Hn & Hall & _ & _ & _ & _ & Hin & _).
    assert (textContent (page (exec updatePagination s2)) resultsTitle = title) as Ht.
    { by rewrite updatePagination_texts_other. }
    assert (hidden (page (exec updatePagination s2)) errorMessage = true) as He.
    { by rewrite updatePagination_hidden_other. }
    split; [exact Hall|].
    split; [exact Hp|].
    split; [exact Hin|].
    split; [done|].
    split; [exact He|].
    split; [exact Ht|].
    split; [intros Hnil; by rewrite Hnil in Hlen|].
    intros _. split.
    + etrans; [apply (displayCurrentPage_currentResults (exec updatePagination s2))|].
      by rewrite Hall, Hp, Hn.
    + apply (shows_current_page_same_view s3); [by repeat split|].
      apply shows_after_display.
Qed.

Lemma accepted_search_shows_first_page_witness :
  let s := initial_state example_page in
  let query := Some (Js.lit "blue") in
  let net := example_network (example_results 20) TagsOther in
  let data := mkSearchData (Js.lit "blue") (example_results 20) in
  effective_query query s ≠ []
  ∧ accepted (post_search net (effective_query query s)) = Some data
  ∧ allResults (exec (performSearch net query) s) = results data.
Proof.
  intros s query net data.
  assert (effective_query query s ≠ []) as Hq by (by vm_compute).
  assert (accepted (post_search net (effective_query query s)) = Some data) as Hacc
    by reflexivity.
  split; [exact Hq|]. split; [exact Hacc|].
  exact (proj1 (accepted_search_shows_first_page net query s data Hq Hacc)).
Defined.




End search_properties.

Section more_properties.

Implicit Types (s t : State) (net : Network).




Lemma until_space_chars (text : str) :
  Forall (λ c, c ≠ space ∧ c ∈ text) (until_space text).
Proof.
  induction text as [|c text IH]; simpl; [done|].
  destruct (N.eqb_spec c space); [done|].
  constructor; [split; [done|left]|].
  eapply list.Forall_impl; [exact IH|]. intros d [? ?]. split; [done|by right].
Qed.

Lemma trimStart_chars (text : str) c : c ∈ Js.trimStart text → c ∈ text.
Proof.
  destruct (trimStart_suffix text) as (pre & Heq & _).
  intros Hc. rewrite Heq. apply elem_of_app. by right.
Qed.

Lemma trim_chars (text : str) c : c ∈ Js.trim text → c ∈ text.
Proof.
  unfold Js.trim, Js.trimEnd.
  intros Hc. rewrite elem_of_reverse in Hc. apply trimStart_chars in Hc.
  rewrite elem_of_reverse in Hc. by apply trimStart_chars.
Qed.

Lemma split_chars sep (text : str) (w : str) :
  w ∈ Js.split sep text → Forall (λ c, c ≠ sep ∧ c ∈ text) w.
Proof.
  revert w. induction text as [|c text IH]; intros w; simpl.
  - intros ->%list_elem_of_singleton. done.
  - destruct (N.eqb_spec c sep) as [->|Hc].
    + intros [->|Hw]%elem_of_cons; [done|].
      eapply list.Forall_impl; [exact (IH w Hw)|].
      intros d [? ?]. split; [done|by right].
    + destruct (Js.split sep text) as [|w0 ws] eqn:Hsplit.
      { by destruct (split_nonempty sep text). }
      intros [->|Hw]%elem_of_cons.
      * constructor; [split; [done|left]|].
        eapply list.Forall_impl; [apply (IH w0); left|].
        intros d [? ?]. split; [done|by right].
      * eapply list.Forall_impl; [apply (IH w); by right|].
        intros d [? ?]. split; [done|by right].
Qed.

(** X11. A tag that [extractTags] returns holds no comma, no space
    and no line terminator, does not begin with white space, and has at
    least three code units. *)
Theorem extracted_tag_chars summary tag :
  tag ∈ extractTags summary →
  Forall (λ c, c ≠ comma ∧ c ≠ space ∧ Js.is_line_terminator c = false) tag
  ∧ head (Js.is_trimmed_char <$> tag) = Some false
  ∧ 2 < length tag.
Proof.
  intros Hin.
  destruct (match_key_themes summary) as [m1|] eqn:Hm.
  - rewrite (extractTags_match _ _ Hm) in Hin.
    apply match_key_themes_Some in Hm as (_ & Hline & _).
    apply subseteq_take, list_elem_of_filter in Hin as [Hlong Hin].
    apply list_elem_of_fmap in Hin as (segment & -> & Hseg).
    rewrite first_word_until_space in *.
    pose proof (split_chars comma m1 segment Hseg) as Hchars.
    split; [|split; [|done]].
    + eapply list.Forall_impl; [apply until_space_chars|].
      intros c [Hsp Hc%trim_chars].
      rewrite list.Forall_forall in Hchars. destruct (Hchars c Hc) as [Hcomma Hm1].
      rewrite list.Forall_forall in Hline. by rewrite (Hline c Hm1).
    + destruct (Js.trim segment) as [|c t] eqn:Htrim; [simpl in Hlong; lia|].
      apply trim_head in Htrim. simpl in *.
      destruct (c =? space)%N; [simpl in Hlong; lia|]. simpl. by rewrite Htrim.
  - rewrite (extractTags_no_match _ Hm) in Hin.
    apply elem_of_cons in Hin as [->|Hin].
    { split; [|split; [done|vm_compute; lia]].
      vm_compute. repeat constructor; done. }
    apply elem_of_cons in Hin as [->|Hin].
    { split; [|split; [done|vm_compute; lia]].
      vm_compute. repeat constructor; done. }
    by apply elem_of_nil in Hin.
Qed.

Lemma extracted_tag_chars_witness :
  let summary := Js.lit "Key themes: painting (5), flowers" in
  let tag := Js.lit "painting" in
  tag ∈ extractTags summary
  ∧ Forall (λ c, c ≠ comma ∧ c ≠ space ∧ Js.is_line_terminator c = false) tag.
Proof.
  intros summary tag.
  assert (tag ∈ extractTags summary) as Hin by (vm_compute; left).
  split; [exact Hin|].
  exact (proj1 (extracted_tag_chars summary tag Hin)).
Defined.

Lemma dot_plus_stop (line rest : str) c :
  Forall (λ c, Js.is_line_terminator c = false) line →
  Js.is_line_terminator c = true →
  Js.dot_plus (line ++ c :: rest) = line.
Proof.
  intros Hline Hc. induction Hline as [|d line Hd _ IH]; simpl.
  - by rewrite Hc.
  - by rewrite Hd, IH.
Qed.

(** X12. Of the text after the label only the first line counts:
    whatever follows the first line terminator does not change the
    tags. *)
Theorem extractTags_first_line (line rest : str) c :
  line ≠ [] →
  Forall (λ c, Js.is_line_terminator c = false) line →
  Js.is_line_terminator c = true →
  extractTags (key_themes_label ++ line ++ c :: rest)
  = extractTags (key_themes_label ++ line).
Proof.
  intros Hne Hline Hc.
  rewrite (extractTags_match (key_themes_label ++ line) line)
    by (by apply match_key_themes_label).
  apply extractTags_match.
  rewrite match_key_themes_unfold. unfold key_themes_here.
  rewrite strip_prefix_app, dot_plus_stop by done. by destruct line.
Qed.

Lemma extractTags_first_line_witness :
  let line := Js.lit "red, blue" in
  let rest := Js.lit "green, and more" in
  line ≠ []
  ∧ Forall (λ c, Js.is_line_terminator c = false) line
  ∧ Js.is_line_terminator 10%N = true
  ∧ extractTags (key_themes_label ++ line ++ 10%N :: rest)
    = extractTags (key_themes_label ++ line).
Proof.
  intros line rest.
  assert (line ≠ []) as Hne by (by vm_compute).
  assert (Forall (λ c, Js.is_line_terminator c = false) line) as Hline.
  { vm_compute. repeat constructor. }
  assert (Js.is_line_terminator 10%N = true) as Hc by reflexivity.
  split; [exact Hne|]. split; [exact Hline|]. split; [exact Hc|].
  exact (extractTags_first_line line rest 10%N Hne Hline Hc).
Defined.

End more_properties.


(* ===================================================================== *)
(** * The carousel *)
(* ===================================================================== *)

Section carousel.

Import Carousel.

Implicit Types (c : Carousel) (result : Result).

Lemma navigateCarousel_move_to direction c :
  navigateCarousel direction c
  = move_to (wrapped (Z.of_nat (length (images c))) (current c + direction)) c.
Proof. done. Qed.

Lemma imap_twice {A B C} (f : nat → B → C) (g : nat → A → B) (l : list A) :
  imap f (imap g l) = imap (λ i x, f i (g i x)) l.
Proof.
  apply list_eq. intros i. rewrite !list_lookup_imap.
  by destruct (l !! i).
Qed.

Lemma move_to_move_to i j c : move_to i (move_to j c) = move_to i c.
Proof. unfold move_to. simpl. by rewrite imap_twice. Qed.

Lemma wrapped_range n x : (0 < n)%Z → (0 ≤ wrapped n x < n)%Z.
Proof.
  intros Hn. unfold wrapped.
  destruct (Z.ltb_spec x 0); destruct (Z.leb_spec n (n - 1));
    try destruct (Z.leb_spec n x); lia.
Qed.

Lemma wrapped_mod n x (direction : Z) :
  (0 ≤ x < n)%Z → direction = 1%Z ∨ direction = (-1)%Z →
  wrapped n (x + direction) = ((x + direction) `mod` n)%Z.
Proof.
  intros Hx Hd. unfold wrapped.
  destruct (Z.ltb_spec (x + direction) 0).
  - destruct (Z.leb_spec n (n - 1)); [lia|].
    assert (x + direction = -1)%Z as -> by lia.
    apply (Z.mod_unique _ _ (-1)); lia.
  - destruct (Z.leb_spec n (x + direction)).
    + assert (x + direction = n)%Z as -> by lia.
      by rewrite Z.mod_same by lia.
    + by rewrite Z.mod_small by lia.
Qed.

Lemma move_to_dots i c (k : nat) :
  dots (move_to i c) !! k = Some true ↔ (k < length (dots c)) ∧ Z.of_nat k = i.
Proof.
  unfold move_to. simpl. rewrite list_lookup_imap.
  destruct (dots c !! k) as [b|] eqn:Hk; simpl.
  - apply lookup_lt_Some in Hk as Hlt.
    destruct (Z.eqb_spec (Z.of_nat k) i); split; [done|done|by intros [=]|by intros [_ ?]].
  - apply lookup_ge_None in Hk. split; [done|lia].
Qed.

(** X13. On a card whose result has thumbnails, after any presses
    of the two arrows the current index is the sum of the directions
    modulo the number of images; it is the index of an image, the only
    active dot is the dot of that image, the images are those of the
    result, and once an arrow has been pressed the position written to
    the style is that of the current index. *)
Theorem carousel_position result (directions : list Z) :
  thumbnails result ≠ [] →
  Forall (λ direction, direction = 1%Z ∨ direction = (-1)%Z) directions →
  let n := length (thumbnails result) in
  let c := foldl (λ c direction, navigateCarousel direction c)
                 (card_carousel result) directions in
  current c = (foldr Z.add 0 directions `mod` Z.of_nat n)%Z
  ∧ (0 ≤ current c < Z.of_nat n)%Z
  ∧ images c = image_src <$> thumbnails result
  ∧ length (dots c) = n
  ∧ (∀ k : nat, dots c !! k = Some true ↔ Z.of_nat k = current c)
  ∧ (directions ≠ [] → transform c = Some (translateX (current c))).
Proof.
  intros Hne Hdirs n c.
  assert (0 < n) as Hn.
  { subst n. destruct (thumbnails result); [done|simpl; lia]. }
  assert (current c = (foldr Z.add 0 directions `mod` Z.of_nat n)%Z
          ∧ images c = image_src <$> thumbnails result
          ∧ length (dots c) = n
          ∧ (∀ k : nat, dots c !! k = Some true ↔ Z.of_nat k = current c)
          ∧ (directions ≠ [] → transform c = Some (translateX (current c))))
    as (Hcur & Himg & Hlen & Hdots & Htr).
  { subst c. induction directions as [|direction directions IH] using rev_ind.
    - simpl. rewrite Z.mod_0_l by lia. split; [done|]. split; [done|].
      split; [by rewrite length_imap|]. split; [|done].
      intros k. rewrite list_lookup_imap.
      destruct (thumbnails result !! k) as [x|] eqn:Hk; simpl.
      + destruct k; simpl; split; (done || lia).
      + apply lookup_ge_None in Hk. split; [done|]. fold n in Hk. lia.
    - apply Forall_app in Hdirs as [Hdirs Hd].
      rewrite list.Forall_singleton in Hd.
      specialize (IH Hdirs).
      rewrite foldl_app. cbn [foldl].
      set (c0 := foldl (λ c direction, navigateCarousel direction c)
                       (card_carousel result) directions) in *.
      destruct IH as (Hcur & Himg & Hlen & Hdots & _).
      assert (0 ≤ current c0 < Z.of_nat n)%Z as Hrange.
      { rewrite Hcur. apply Z.mod_pos_bound. lia. }
      rewrite navigateCarousel_move_to, Himg, length_fmap. fold n.
      rewrite (wrapped_mod _ _ _ Hrange Hd).
      assert (foldr Z.add 0 (directions ++ [direction])
              = (foldr Z.add 0 directions + direction))%Z as ->.
      { clear. induction directions as [|x l IH]; simpl; lia. }
      split.
      { simpl. rewrite Hcur. by rewrite Zplus_mod_idemp_l. }
      split; [done|]. split; [by simpl; rewrite length_imap|].
      split; [|done].
      intros k. rewrite move_to_dots. simpl. rewrite Hcur, Zplus_mod_idemp_l.
      split; [by intros [_ ?]|]. intros Hk. split; [|done].
      rewrite Hlen.
      pose proof (Z.mod_pos_bound (foldr Z.add 0%Z directions + direction)
                                  (Z.of_nat n)) as Hbound.
      lia. }
  split; [done|]. split; [|done].
  rewrite Hcur. apply Z.mod_pos_bound. lia.
Qed.

Lemma carousel_position_witness :
  let directions := [1; 1; -1]%Z in
  let c := foldl (λ c direction, Carousel.navigateCarousel direction c)
                 (Carousel.card_carousel example_gallery) directions in
  thumbnails example_gallery ≠ []
  ∧ Forall (λ direction, direction = 1%Z ∨ direction = (-1)%Z) directions
  ∧ Carousel.current c = 1%Z.
Proof.
  intros directions c.
  assert (thumbnails example_gallery ≠ []) as Hne by done.
  assert (Forall (λ direction, direction = 1%Z ∨ direction = (-1)%Z) directions)
    as Hdirs by (repeat constructor; auto).
  split; [exact Hne|]. split; [exact Hdirs|].
  exact (proj1 (carousel_position example_gallery directions Hne Hdirs)).
Defined.

Lemma navigate_iter (k : nat) (i : Z) c :
  let n := Z.of_nat (length (images c)) in
  (0 ≤ i < n)%Z →
  Nat.iter k (navigateCarousel 1) (move_to i c) = move_to ((i + Z.of_nat k) `mod` n) c.
Proof.
  intros n Hi. induction k as [|k IH].
  - simpl. by rewrite Z.add_0_r, Z.mod_small.
  - simpl. rewrite IH, navigateCarousel_move_to, move_to_move_to. simpl. fold n.
    rewrite wrapped_mod; [|apply Z.mod_pos_bound; lia|by left].
    rewrite Zplus_mod_idemp_l. f_equal. f_equal. lia.
Qed.

(** X14. On a card with images, once an arrow has been pressed,
    forward then back and back then forward change nothing, and as many
    presses forward as there are images come back to the same state. *)
Theorem navigateCarousel_round_trip direction c :
  images c ≠ [] →
  let c' := navigateCarousel direction c in
  navigateCarousel (-1) (navigateCarousel 1 c') = c'
  ∧ navigateCarousel 1 (navigateCarousel (-1) c') = c'
  ∧ Nat.iter (length (images c)) (navigateCarousel 1) c' = c'.
Proof.
  intros Hne c'. subst c'.
  set (n := Z.of_nat (length (images c))).
  assert (0 < n)%Z as Hn.
  { subst n. destruct (images c); [done|simpl; lia]. }
  rewrite (navigateCarousel_move_to direction). fold n.
  pose proof (wrapped_range n (current c + direction) Hn) as Hi.
  set (i := wrapped n (current c + direction)) in *.
  split; [|split].
  - rewrite !navigateCarousel_move_to, !move_to_move_to. simpl. fold n.
    f_equal. rewrite (wrapped_mod n i 1) by (done || by left).
    rewrite (wrapped_mod n _ (-1)); [|apply Z.mod_pos_bound; lia|by right].
    rewrite Zplus_mod_idemp_l. replace (i + 1 + -1)%Z with i by lia.
    by apply Z.mod_small.
  - rewrite !navigateCarousel_move_to, !move_to_move_to. simpl. fold n.
    f_equal. rewrite (wrapped_mod n i (-1)) by (done || by right).
    rewrite (wrapped_mod n _ 1); [|apply Z.mod_pos_bound; lia|by left].
    rewrite Zplus_mod_idemp_l. replace (i + -1 + 1)%Z with i by lia.
    by apply Z.mod_small.
  - rewrite navigate_iter by done. fold n. f_equal.
    rewrite <-(Z.mul_1_l n) at 1. unfold n at 1.
    rewrite Z.mod_add by lia. by apply Z.mod_small.
Qed.

Lemma navigateCarousel_round_trip_witness :
  let c := Carousel.card_carousel example_gallery in
  let c' := Carousel.navigateCarousel 1 c in
  Carousel.images c ≠ []
  ∧ Carousel.navigateCarousel (-1) (Carousel.navigateCarousel 1 c') = c'.
Proof.
  intros c c'.
  assert (Carousel.images c ≠ []) as Hne by done.
  split; [exact Hne|].
  exact (proj1 (navigateCarousel_round_trip 1 c Hne)).
Defined.

(** X15. On a card without thumbnails the arrow back moves to
    index -1 and writes a position that is not a CSS value; the arrow
    forward moves to index 0, also after the arrow back. *)
Theorem navigateCarousel_no_images result :
  thumbnails result = [] →
  let c := card_carousel result in
  current (navigateCarousel (-1) c) = (-1)%Z
  ∧ transform (navigateCarousel (-1) c) = Some (Js.lit "translateX(--100%)")
  ∧ current (navigateCarousel 1 c) = 0%Z
  ∧ current (navigateCarousel 1 (navigateCarousel (-1) c)) = 0%Z.
Proof.
  intros Hnil c. subst c. unfold navigateCarousel, card_carousel.
  rewrite Hnil. simpl. done.
Qed.

Lemma navigateCarousel_no_images_witness :
  let result := example_result 0 in
  thumbnails result = []
  ∧ Carousel.current (Carousel.navigateCarousel (-1) (Carousel.card_carousel result))
    = (-1)%Z.
Proof.
  intros result.
  assert (thumbnails result = []) as Hnil by reflexivity.
  split; [exact Hnil|].
  exact (proj1 (navigateCarousel_no_images result Hnil)).
Defined.

End carousel.


(* ===================================================================== *)
(** * The image modal *)
(* ===================================================================== *)

Section modal.

Implicit Types (m : Modal.Modal) (d : Modal.Document) (s : State).

Lemma list_find_first {A} (P : A → Prop) `{!∀ x, Decision (P x)}
    (before : list A) x (after : list A) :
  Forall (λ y, ¬ P y) before → P x →
  list_find P (before ++ x :: after) = Some (length before, x).
Proof.
  intros Hbefore Hx. apply list_find_Some. split; [|split; [done|]].
  - by rewrite lookup_app_r, Nat.sub_diag by lia.
  - intros j y Hj Hlt. rewrite lookup_app_l in Hj by done.
    rewrite list.Forall_forall in Hbefore. apply Hbefore.
    by eapply list_elem_of_lookup_2.
Qed.

(** X16. [openImageModal] shows the first result of the list that
    has the code, and does nothing when no result has it.  The new modal
    is put in the document and its key handler listens; the image and
    the dot of the start index are the ones shown and active if there is
    such an image, and none is otherwise. *)
Theorem openImageModal_first_match srefCode (startIndex : Z) s d :
  let d' := Modal.openImageModal srefCode startIndex s d in
  (srefCode ∉ sref_code <$> allResults s → d' = d)
  ∧ (∀ before result after,
       allResults s = before ++ result :: after →
       sref_code result = srefCode →
       (srefCode ∉ sref_code <$> before) →
       ∃ modal,
         Modal.modals d' = Modal.modals d ++ [modal]
         ∧ Modal.body d' = Modal.body d ++ [length (Modal.modals d)]
         ∧ Modal.keydown d' = Modal.keydown d ++ [length (Modal.modals d)]
         ∧ Modal.images modal = Carousel.image_src <$> thumbnails result
         ∧ Modal.currentIndex modal = Modal.Num startIndex
         ∧ Modal.dots modal = Modal.display modal
         ∧ length (Modal.display modal) = length (thumbnails result)
         ∧ ∀ k : nat, Modal.display modal !! k = Some true
                      ↔ k < length (thumbnails result) ∧ Z.of_nat k = startIndex).
Proof.
  intros d'. subst d'. unfold Modal.openImageModal. split.
  - intros Hnot.
    destruct (list_find _ _) as [[i result]|] eqn:Hfind; [|done].
    apply list_find_Some in Hfind as (Hi & Hcode & _).
    destruct Hnot. apply list_elem_of_fmap. exists result. split; [done|].
    by eapply list_elem_of_lookup_2.
  - intros before result after Hall Hcode Hbefore.
    rewrite Hall, (list_find_first _ before result after); [|
      |done].
    + eexists. repeat (split; [done|]). simpl.
      split; [by rewrite length_imap|].
      intros k. rewrite list_lookup_imap.
      destruct (thumbnails result !! k) as [x|] eqn:Hk; simpl.
      * apply lookup_lt_Some in Hk.
        destruct (Z.eqb_spec (Z.of_nat k) startIndex);
          split; [done|done|by intros [=]|by intros [_ ?]].
      * apply lookup_ge_None in Hk. split; [done|lia].
    + apply list.Forall_forall. intros y Hy Heq. apply Hbefore.
      apply list_elem_of_fmap. by exists y.
Qed.

Lemma shown_lookup (l : list bool) (k : Z) (n : nat) :
  length l = n →
  (∀ i : nat, l !! i = Some true ↔ Z.of_nat i = k) →
  imap (λ i _, (Z.of_nat i =? k)%Z) l = l.
Proof.
  intros Hlen Hl. apply list_eq. intros i. rewrite list_lookup_imap.
  destruct (l !! i) as [b|] eqn:Hi; simpl; [|done].
  f_equal. destruct (Z.eqb_spec (Z.of_nat i) k) as [Hk|Hk].
  - apply Hl in Hk. congruence.
  - destruct b; [|done]. by apply Hl in Hi.
Qed.

Lemma showImage_shows m (k : Z) :
  length (Modal.display m) = length (Modal.images m) →
  Modal.dots m = Modal.display m →
  (0 ≤ k < Z.of_nat (length (Modal.images m)))%Z →
  modal_shows (Modal.showImage (Modal.Num k) m) k.
Proof.
  intros Hlen Hdots Hk. unfold modal_shows, Modal.showImage. simpl.
  split; [done|]. split; [done|]. split; [by rewrite length_imap|].
  split; [|by rewrite Hdots].
  intros i. rewrite list_lookup_imap.
  destruct (Modal.display m !! i) as [b|] eqn:Hi; simpl.
  - destruct (Z.eqb_spec (Z.of_nat i) k); split; (done || by intros [=]).
  - apply lookup_ge_None in Hi. split; [done|lia].
Qed.

Lemma showImage_same m (k : Z) :
  modal_shows m k → Modal.showImage (Modal.Num k) m = m.
Proof.
  intros (Hcur & Hk & Hlen & Hshown & Hdots).
  destruct m as [images display dots currentIndex]. simpl in *. subst.
  unfold Modal.showImage. simpl. f_equal; by eapply shown_lookup.
Qed.

Lemma showImage_showImage i j m :
  Modal.showImage i (Modal.showImage j m) = Modal.showImage i m.
Proof.
  unfold Modal.showImage. simpl. f_equal; apply list_eq; intros k;
    rewrite !list_lookup_imap; by destruct (_ !! k).
Qed.

Lemma nextImage_showImage m (k : Z) :
  let n := Z.of_nat (length (Modal.images m)) in
  (0 ≤ k < n)%Z →
  Modal.nextImage (Modal.showImage (Modal.Num k) m)
  = Modal.showImage (Modal.Num ((k + 1) `mod` n)) m.
Proof.
  intros n Hk. unfold Modal.nextImage. rewrite showImage_showImage. simpl.
  fold n. destruct (Z.eqb_spec n 0); [lia|].
  by rewrite Z.rem_mod_nonneg by lia.
Qed.

Lemma prevImage_showImage m (k : Z) :
  let n := Z.of_nat (length (Modal.images m)) in
  (0 ≤ k < n)%Z →
  Modal.prevImage (Modal.showImage (Modal.Num k) m)
  = Modal.showImage (Modal.Num ((k - 1) `mod` n)) m.
Proof.
  intros n Hk. unfold Modal.prevImage. rewrite showImage_showImage. simpl.
  fold n. destruct (Z.eqb_spec n 0); [lia|].
  rewrite Z.rem_mod_nonneg by lia. do 2 f_equal.
  replace (k + -1 + n)%Z with (k - 1 + 1 * n)%Z by lia.
  by rewrite Z.mod_add by lia.
Qed.

Lemma nextImage_shows m (k : Z) :
  modal_shows m k →
  Modal.nextImage m
  = Modal.showImage (Modal.Num ((k + 1) `mod` Z.of_nat (length (Modal.images m)))) m.
Proof.
  intros (Hcur & Hk & _). unfold Modal.nextImage. rewrite Hcur. simpl.
  destruct (Z.eqb_spec (Z.of_nat (length (Modal.images m))) 0); [lia|].
  by rewrite Z.rem_mod_nonneg by lia.
Qed.

Lemma prevImage_shows m (k : Z) :
  modal_shows m k →
  Modal.prevImage m
  = Modal.showImage (Modal.Num ((k - 1) `mod` Z.of_nat (length (Modal.images m)))) m.
Proof.
  intros (Hcur & Hk & _). unfold Modal.prevImage. rewrite Hcur. simpl.
  set (n := Z.of_nat (length (Modal.images m))) in *.
  destruct (Z.eqb_spec n 0); [lia|].
  rewrite Z.rem_mod_nonneg by lia. do 2 f_equal.
  replace (k + -1 + n)%Z with (k - 1 + 1 * n)%Z by lia.
  by rewrite Z.mod_add by lia.
Qed.

(** X17. In a modal that shows one image, the arrows move to the next
    and to the previous image, around the ends; one after the other they
    change nothing, and as many steps forward as there are images come
    back to the same state. *)
Theorem modal_arrows m (k : Z) :
  modal_shows m k →
  let n := Z.of_nat (length (Modal.images m)) in
  modal_shows (Modal.nextImage m) ((k + 1) `mod` n)
  ∧ modal_shows (Modal.prevImage m) ((k - 1) `mod` n)
  ∧ Modal.prevImage (Modal.nextImage m) = m
  ∧ Modal.nextImage (Modal.prevImage m) = m
  ∧ Nat.iter (length (Modal.images m)) Modal.nextImage m = m.
Proof.
  intros Hm n.
  pose proof Hm as (Hcur & Hk & Hlen & Hshown & Hdots).
  assert (0 < n)%Z as Hn by lia.
  pose proof (Z.mod_pos_bound (k + 1) n Hn) as Hnext.
  pose proof (Z.mod_pos_bound (k - 1) n Hn) as Hprev.
  rewrite (nextImage_shows m k Hm), (prevImage_shows m k Hm). fold n.
  split; [by apply showImage_shows|]. split; [by apply showImage_shows|].
  rewrite prevImage_showImage, nextImage_showImage by done. fold n.
  split; [|split].
  - rewrite Zminus_mod_idemp_l. replace (k + 1 - 1)%Z with k by lia.
    rewrite Z.mod_small by done. by apply showImage_same.
  - rewrite Zplus_mod_idemp_l. replace (k - 1 + 1)%Z with k by lia.
    rewrite Z.mod_small by done. by apply showImage_same.
  - assert (∀ j : nat, Nat.iter j Modal.nextImage (Modal.showImage (Modal.Num k) m)
                       = Modal.showImage (Modal.Num ((k + Z.of_nat j) `mod` n)) m) as Hiter.
    { induction j as [|j IH].
      - simpl. by rewrite Z.add_0_r, Z.mod_small.
      - simpl. rewrite IH, nextImage_showImage by (apply Z.mod_pos_bound; lia).
        fold n. rewrite Zplus_mod_idemp_l. do 3 f_equal. lia. }
    rewrite <-(showImage_same m k Hm) at 2.
    rewrite Hiter. fold n. rewrite <-(Z.mul_1_l n) at 1.
    rewrite Z.mod_add, Z.mod_small by lia. by apply showImage_same.
Qed.

Lemma modal_arrows_witness :
  let m := {| Modal.images := [Js.lit "a.png"; Js.lit "b.png"];
              Modal.display := [false; true];
              Modal.dots := [false; true];
              Modal.currentIndex := Modal.Num 1 |} in
  modal_shows m 1
  ∧ modal_shows (Modal.nextImage m) 0
  ∧ Modal.prevImage (Modal.nextImage m) = m.
Proof.
  intros m.
  assert (modal_shows m 1) as Hm.
  { split; [reflexivity|]. split; [simpl; lia|]. split; [reflexivity|].
    split; [|reflexivity].
    intros i. destruct i as [|[|i']]; simpl; split; intros H; (done || lia). }
  split; [exact Hm|].
  destruct (modal_arrows m 1 Hm) as (Hnext & _ & Hback & _).
  split; [exact Hnext|exact Hback].
Defined.

End modal.

Section modal_document.

Implicit Types (m : Modal.Modal) (d : Modal.Document) (s : State).

Lemma filter_ext_in {A} (P Q : A → Prop) `{!∀ x, Decision (P x)}
    `{!∀ x, Decision (Q x)} (l : list A) :
  (∀ x, x ∈ l → (P x ↔ Q x)) → filter P l = filter Q l.
Proof.
  induction l as [|x l IH]; intros Hl; [done|].
  rewrite !filter_cons.
  rewrite IH by (intros y Hy; apply Hl; by right).
  destruct (decide (P x)) as [HP|HP], (decide (Q x)) as [HQ|HQ]; try done.
  - destruct HQ. apply Hl; [left|done].
  - destruct HP. apply Hl; [left|done].
Qed.

Lemma filter_none {A} (P : A → Prop) `{!∀ x, Decision (P x)} (l : list A) :
  (∀ x, x ∈ l → ¬ P x) → filter P l = [].
Proof.
  induction l as [|x l IH]; intros Hl; [done|].
  rewrite filter_cons, decide_False by (apply Hl; left).
  apply IH. intros y Hy. apply Hl. by right.
Qed.

(** The effect of one key handler. *)
Lemma keyHandler_escape id d :
  Modal.keyHandler id (Js.lit "Escape") d
  = if decide (id ∈ Modal.body d) then
      ({| Modal.modals := Modal.modals d;
          Modal.body := filter (λ child, child ≠ id) (Modal.body d);
          Modal.keydown := filter (λ listener, listener ≠ id) (Modal.keydown d) |},
       Normal tt)
    else (d, Thrown (Js.lit "NotFoundError")).
Proof.
  unfold Modal.keyHandler, Modal.removeChild.
  rewrite decide_True by done. by destruct (decide (id ∈ Modal.body d)).
Qed.

Lemma keyHandler_cases id key d :
  let d' := (Modal.keyHandler id key d).1 in
  (d' = d)
  ∨ (∃ f, d' = Modal.on_modal id f d
          ∧ (f = Modal.nextImage ∨ f = Modal.prevImage))
  ∨ (id ∈ Modal.body d
     ∧ d' = {| Modal.modals := Modal.modals d;
               Modal.body := filter (λ child, child ≠ id) (Modal.body d);
               Modal.keydown := filter (λ listener, listener ≠ id) (Modal.keydown d) |}).
Proof.
  unfold Modal.keyHandler, Modal.removeChild.
  destruct (decide (key = Js.lit "Escape")).
  - destruct (decide (id ∈ Modal.body d)); simpl; [|by left].
    right. right. done.
  - destruct (decide (key = Js.lit "ArrowLeft")); simpl.
    { right. left. exists Modal.prevImage. split; [done|by right]. }
    destruct (decide (key = Js.lit "ArrowRight")); simpl.
    { right. left. exists Modal.nextImage. split; [done|by left]. }
    by left.
Qed.

(** A property that every key handler keeps is kept by a [keydown]
    event. *)
Lemma dispatch_keydown_keeps (P : Modal.Document → Prop) key d :
  (∀ id d, P d → P (Modal.keyHandler id key d).1) →
  P d → P (Modal.dispatch_keydown key d).1.
Proof.
  intros Hkeeps. unfold Modal.dispatch_keydown.
  assert (∀ listeners d errors,
            P d →
            P (foldl (λ acc id,
                        match Modal.keyHandler id key acc.1 with
                        | (d', Normal _) => (d', acc.2)
                        | (d', Thrown message) => (d', acc.2 ++ [message])
                        end)
                     (d, errors) listeners).1) as Hfold; [|by apply Hfold].
  clear d. induction listeners as [|id listeners IH]; intros d errors Hd; [done|].
  simpl. specialize (Hkeeps id d Hd).
  destruct (Modal.keyHandler id key d) as [d' [[]|message]]; simpl in *;
    by apply IH.
Qed.

Lemma document_invariant_filter id d :
  document_invariant d →
  document_invariant
    {| Modal.modals := Modal.modals d;
       Modal.body := filter (λ child, child ≠ id) (Modal.body d);
       Modal.keydown := filter (λ listener, listener ≠ id) (Modal.keydown d) |}.
Proof.
  intros (Hbody & Hkeys & Hlt & Hsub). unfold document_invariant. simpl.
  split; [by apply NoDup_filter|]. split; [by apply NoDup_filter|].
  split.
  - intros x [_ Hx]%list_elem_of_filter. by apply Hlt.
  - intros x [Hne Hx]%list_elem_of_filter. apply list_elem_of_filter.
    split; [done|by apply Hsub].
Qed.

Lemma document_invariant_on_modal id f d :
  document_invariant d → document_invariant (Modal.on_modal id f d).
Proof.
  intros (Hbody & Hkeys & Hlt & Hsub). unfold document_invariant. simpl.
  by rewrite length_alter.
Qed.

Lemma document_invariant_keyHandler id key d :
  document_invariant d → document_invariant (Modal.keyHandler id key d).1.
Proof.
  intros Hd.
  destruct (keyHandler_cases id key d) as [->|[(f & -> & _)|[_ ->]]];
    [done|by apply document_invariant_on_modal|by apply document_invariant_filter].
Qed.

Lemma document_invariant_handle ev d :
  document_invariant d → document_invariant (Modal.handle ev d).
Proof.
  intros Hd. destruct ev as [s srefCode startIndex|id|id|id index|id|id|key]; simpl.
  - unfold Modal.openImageModal.
    destruct (list_find _ _) as [[i result]|]; [|done].
    destruct Hd as (Hbody & Hkeys & Hlt & Hsub). unfold document_invariant. simpl.
    assert (length (Modal.modals d) ∉ Modal.keydown d) as Hfresh.
    { intros Hin%Hlt. lia. }
    split; [|split; [|split]].
    + apply NoDup_app. split; [done|]. split; [|apply NoDup_singleton].
      intros x Hx ->%list_elem_of_singleton. by apply Hfresh, Hsub.
    + apply NoDup_app. split; [done|]. split; [|apply NoDup_singleton].
      by intros x Hx ->%list_elem_of_singleton.
    + intros x [Hx%Hlt| ->%list_elem_of_singleton]%elem_of_app;
        rewrite length_app; simpl; lia.
    + intros x [Hx%Hsub| ->%list_elem_of_singleton]%elem_of_app;
        apply elem_of_app; [by left|right; by left].
  - destruct (decide _); [by apply document_invariant_on_modal|done].
  - destruct (decide _); [by apply document_invariant_on_modal|done].
  - destruct (decide _); [by apply document_invariant_on_modal|done].
  - unfold Modal.close_click, Modal.removeChild.
    destruct (decide _); [|done]. simpl.
    destruct Hd as (Hbody & Hkeys & Hlt & Hsub). unfold document_invariant. simpl.
    split; [by apply NoDup_filter|]. split; [done|]. split; [done|].
    intros x [_ Hx]%list_elem_of_filter. by apply Hsub.
  - unfold Modal.close_click, Modal.removeChild.
    destruct (decide _); [|done]. simpl.
    destruct Hd as (Hbody & Hkeys & Hlt & Hsub). unfold document_invariant. simpl.
    split; [by apply NoDup_filter|]. split; [done|]. split; [done|].
    intros x [_ Hx]%list_elem_of_filter. by apply Hsub.
  - apply dispatch_keydown_keeps; [|done].
    intros id d' Hd'. by apply document_invariant_keyHandler.
Qed.

Lemma document_invariant_run evs d :
  document_invariant d → document_invariant (Modal.run evs d).
Proof.
  revert d. induction evs as [|ev evs IH]; intros d Hd; [done|].
  simpl. apply IH. by apply document_invariant_handle.
Qed.

Lemma document_invariant_empty : document_invariant Modal.empty_document.
Proof.
  unfold document_invariant. simpl.
  split; [constructor|]. split; [constructor|].
  split; intros id Hid; by apply elem_of_nil in Hid.
Qed.

(** The listeners one after the other, for the key Escape. *)
Lemma escape_fold (listeners : list nat) d (errors : list str) :
  NoDup listeners →
  let r := foldl (λ acc id,
                    match Modal.keyHandler id (Js.lit "Escape") acc.1 with
                    | (d', Normal _) => (d', acc.2)
                    | (d', Thrown message) => (d', acc.2 ++ [message])
                    end)
                 (d, errors) listeners in
  Modal.modals r.1 = Modal.modals d
  ∧ Modal.body r.1 = filter (λ x, x ∉ listeners) (Modal.body d)
  ∧ Modal.keydown r.1
    = filter (λ x, ¬ (x ∈ listeners ∧ x ∈ Modal.body d)) (Modal.keydown d)
  ∧ r.2 = errors ++ replicate (length (filter (λ x, x ∉ Modal.body d) listeners))
                              (Js.lit "NotFoundError").
Proof.
  revert d errors.
  induction listeners as [|id listeners IH]; intros d errors Hnodup.
  - simpl. split; [done|]. split.
    { symmetry. apply filter_all, list.Forall_forall.
      intros x _ Hx. by apply elem_of_nil in Hx. }
    split; [|by rewrite app_nil_r].
    symmetry. apply filter_all, list.Forall_forall.
    intros x _ [Hx _]. by apply elem_of_nil in Hx.
  - apply NoDup_cons in Hnodup as [Hid Hnodup].
    cbn [foldl]. cbn [fst snd]. rewrite keyHandler_escape.
    destruct (decide (id ∈ Modal.body d)) as [Hin|Hout].
    + match goal with
      | |- context [foldl _ (?d1, errors) listeners] =>
          destruct (IH d1 errors Hnodup) as (Hmod & Hbody & Hkeys & Herr)
      end.
      simpl in Hmod, Hbody, Hkeys, Herr.
      split; [exact Hmod|]. split; [|split].
      * etrans; [exact Hbody|]. rewrite list_filter_filter.
        apply filter_ext_in. intros x _. rewrite not_elem_of_cons. tauto.
      * etrans; [exact Hkeys|]. rewrite list_filter_filter.
        apply filter_ext_in. intros x _.
        rewrite list_elem_of_filter, elem_of_cons.
        destruct (decide (x = id)) as [->|Hne]; [tauto|]. tauto.
      * etrans; [exact Herr|]. f_equal. f_equal.
        rewrite filter_cons, decide_False by tauto. f_equal.
        apply filter_ext_in. intros x Hx. rewrite list_elem_of_filter.
        assert (x ≠ id) by (by intros ->). tauto.
    + destruct (IH d (errors ++ [Js.lit "NotFoundError"]) Hnodup)
        as (Hmod & Hbody & Hkeys & Herr).
      simpl in Hmod, Hbody, Hkeys, Herr.
      split; [exact Hmod|]. split; [|split].
      * etrans; [exact Hbody|].
        apply filter_ext_in. intros x Hx. rewrite not_elem_of_cons.
        assert (x ≠ id) by (by intros ->). tauto.
      * etrans; [exact Hkeys|].
        apply filter_ext_in. intros x _. rewrite elem_of_cons.
        destruct (decide (x = id)) as [->|Hne]; tauto.
      * etrans; [exact Herr|].
        rewrite filter_cons, decide_True by done. simpl.
        by rewrite <-app_assoc.
Qed.

(** X18. At any time, the key Escape takes every modal out of the
    document and removes the key handlers of the modals it has taken out.
    The handlers of the modals that had left the document before stay,
    and each of them throws once per press. *)
Theorem escape_closes_all evs :
  let d := Modal.run evs Modal.empty_document in
  let r := Modal.dispatch_keydown (Js.lit "Escape") d in
  Modal.body r.1 = []
  ∧ Modal.modals r.1 = Modal.modals d
  ∧ Modal.keydown r.1 = filter (λ id, id ∉ Modal.body d) (Modal.keydown d)
  ∧ r.2 = replicate (length (Modal.keydown r.1)) (Js.lit "NotFoundError").
Proof.
  intros d r.
  destruct (document_invariant_run evs _ document_invariant_empty)
    as (Hbody & Hkeys & Hlt & Hsub). fold d in Hbody, Hkeys, Hlt, Hsub.
  destruct (escape_fold (Modal.keydown d) d [] Hkeys) as (Hmod & Hb & Hk & Herr).
  fold (Modal.dispatch_keydown (Js.lit "Escape") d) in Hmod, Hb, Hk, Herr.
  fold r in Hmod, Hb, Hk, Herr.
  assert (Modal.keydown r.1 = filter (λ id, id ∉ Modal.body d) (Modal.keydown d)) as Hk'.
  { rewrite Hk. apply filter_ext_in. intros x Hx. tauto. }
  split; [|split; [done|split; [done|]]].
  - rewrite Hb. apply filter_none. intros x Hx%Hsub. tauto.
  - by rewrite Herr, Hk'.
Qed.

Lemma stale_keyHandler id id' key d :
  stale id d → stale id (Modal.keyHandler id' key d).1.
Proof.
  intros (Hout & Hin & Hlt).
  destruct (keyHandler_cases id' key d) as [->|[(f & -> & _)|[Hbody ->]]].
  - done.
  - unfold stale. simpl. by rewrite length_alter.
  - unfold stale. simpl. split; [|split; [|done]].
    + intros [_ ?]%list_elem_of_filter. done.
    + apply list_elem_of_filter. split; [|done]. by intros ->.
Qed.

Lemma stale_handle id ev d : stale id d → stale id (Modal.handle ev d).
Proof.
  intros Hstale. pose proof Hstale as (Hout & Hin & Hlt).
  destruct ev as [s srefCode startIndex|id'|id'|id' index|id'|id'|key]; simpl.
  - unfold Modal.openImageModal.
    destruct (list_find _ _) as [[i result]|]; [|done].
    unfold stale. simpl. split; [|split].
    + intros [?| ->%list_elem_of_singleton]%elem_of_app; [done|lia].
    + apply elem_of_app. by left.
    + rewrite length_app. simpl. lia.
  - destruct (decide _); [|done]. unfold stale. simpl. by rewrite length_alter.
  - destruct (decide _); [|done]. unfold stale. simpl. by rewrite length_alter.
  - destruct (decide _); [|done]. unfold stale. simpl. by rewrite length_alter.
  - unfold Modal.close_click, Modal.removeChild.
    destruct (decide _); [|done].
    unfold stale. simpl. split; [|done]. by intros [_ ?]%list_elem_of_filter.
  - unfold Modal.close_click, Modal.removeChild.
    destruct (decide _); [|done].
    unfold stale. simpl. split; [|done]. by intros [_ ?]%list_elem_of_filter.
  - apply dispatch_keydown_keeps; [|done].
    intros id' d' Hd'. by apply stale_keyHandler.
Qed.

Lemma stale_run id evs d : stale id d → stale id (Modal.run evs d).
Proof.
  revert d. induction evs as [|ev evs IH]; intros d Hd; [done|].
  simpl. apply IH. by apply stale_handle.
Qed.

(** X19. A modal closed with its close button, or by a click on
    its background, leaves its key handler behind: whatever the user does
    afterwards, the modal stays out of the document, the handler keeps
    listening, and every press of Escape makes it throw and leaves it in
    place. *)
Theorem closed_modal_keeps_listening evs id :
  let d := Modal.run evs Modal.empty_document in
  id ∈ Modal.body d →
  Modal.handle (Modal.Close id) d = Modal.handle (Modal.Background id) d
  ∧ ∀ later,
      let d' := Modal.run later (Modal.handle (Modal.Close id) d) in
      (id ∉ Modal.body d')
      ∧ id ∈ Modal.keydown d'
      ∧ Js.lit "NotFoundError" ∈ (Modal.dispatch_keydown (Js.lit "Escape") d').2
      ∧ id ∈ Modal.keydown (Modal.dispatch_keydown (Js.lit "Escape") d').1.
Proof.
  intros d Hin. split; [done|]. intros later d'.
  destruct (document_invariant_run evs _ document_invariant_empty)
    as (Hbody & Hkeys & Hlt & Hsub). fold d in Hbody, Hkeys, Hlt, Hsub.
  assert (stale id (Modal.handle (Modal.Close id) d)) as Hstale.
  { simpl. rewrite decide_True by done.
    unfold Modal.close_click, Modal.removeChild. rewrite decide_True by done.
    unfold stale. simpl. split; [|split].
    - by intros [? _]%list_elem_of_filter.
    - by apply Hsub.
    - by apply Hlt, Hsub. }
  apply (stale_run id later) in Hstale. fold d' in Hstale.
  pose proof Hstale as (Hout & Hlisten & _).
  split; [done|]. split; [done|].
  assert (document_invariant d') as (_ & Hkeys' & _).
  { apply document_invariant_run, document_invariant_handle.
    apply document_invariant_run, document_invariant_empty. }
  destruct (escape_fold (Modal.keydown d') d' [] Hkeys') as (_ & _ & Hk & Herr).
  fold (Modal.dispatch_keydown (Js.lit "Escape") d') in Hk, Herr.
  split.
  - rewrite Herr. simpl.
    assert (id ∈ filter (λ x, x ∉ Modal.body d') (Modal.keydown d')) as Hid.
    { by apply list_elem_of_filter. }
    destruct (filter (λ x, x ∉ Modal.body d') (Modal.keydown d')) as [|x l];
      [by apply elem_of_nil in Hid|].
    simpl. left.
  - rewrite Hk. apply list_elem_of_filter. split; [tauto|done].
Qed.

Lemma closed_modal_keeps_listening_witness :
  let evs := [Modal.Open gallery_state (Js.lit "7") 0] in
  let d := Modal.run evs Modal.empty_document in
  0 ∈ Modal.body d
  ∧ 0 ∈ Modal.keydown (Modal.run [Modal.Key (Js.lit "Escape")]
                                  (Modal.handle (Modal.Close 0) d)).
Proof.
  intros evs d.
  assert (0 ∈ Modal.body d) as Hin by (vm_compute; left).
  split; [exact Hin|].
  destruct (closed_modal_keeps_listening evs 0 Hin) as [_ Hlater].
  exact (proj1 (proj2 (Hlater [Modal.Key (Js.lit "Escape")]))).
Defined.

End modal_document.

Section modal_images.

Implicit Types (m : Modal.Modal) (d : Modal.Document) (s : State).

Lemma all_shown_on_modal id (f : Modal.Modal → Modal.Modal) d :
  (∀ m k, modal_shows m k → ∃ k', modal_shows (f m) k') →
  all_shown d → all_shown (Modal.on_modal id f d).
Proof.
  intros Hf Hd id' m. unfold Modal.on_modal. simpl.
  destruct (decide (id = id')) as [<-|Hne].
  - rewrite list_lookup_alter_eq.
    destruct (Modal.modals d !! id) as [m0|] eqn:Hm0; simpl; [|done].
    intros [= <-]. destruct (Hd id m0 Hm0) as [k Hk]. by eapply Hf.
  - rewrite list_lookup_alter_ne by done. apply Hd.
Qed.

Lemma nextImage_keeps_shown m k : modal_shows m k → ∃ k', modal_shows (Modal.nextImage m) k'.
Proof.
  intros Hm. pose proof Hm as (_ & Hk & Hlen & _ & Hdots).
  eexists. rewrite (nextImage_shows m k Hm).
  apply showImage_shows; [done..|]. apply Z.mod_pos_bound. lia.
Qed.

Lemma prevImage_keeps_shown m k : modal_shows m k → ∃ k', modal_shows (Modal.prevImage m) k'.
Proof.
  intros Hm. pose proof Hm as (_ & Hk & Hlen & _ & Hdots).
  eexists. rewrite (prevImage_shows m k Hm).
  apply showImage_shows; [done..|]. apply Z.mod_pos_bound. lia.
Qed.

Lemma all_shown_keyHandler id key d :
  all_shown d → all_shown (Modal.keyHandler id key d).1.
Proof.
  intros Hd.
  destruct (keyHandler_cases id key d) as [->|[(f & -> & [->| ->])|[_ ->]]].
  - done.
  - apply all_shown_on_modal; [apply nextImage_keeps_shown|done].
  - apply all_shown_on_modal; [apply prevImage_keeps_shown|done].
  - done.
Qed.

Lemma all_shown_handle ev d :
  open_in_range ev → all_shown d → all_shown (Modal.handle ev d).
Proof.
  intros Hev Hd.
  destruct ev as [s srefCode startIndex|id|id|id index|id|id|key]; simpl.
  - unfold Modal.openImageModal.
    destruct (list_find _ _) as [[i result]|] eqn:Hfind; [|done].
    specialize (Hev i result Hfind).
    intros id m. simpl. intros [Hm|[_ Hm]]%lookup_app_Some; [by eapply Hd|].
    apply list_lookup_singleton_Some in Hm as [_ <-].
    exists startIndex. unfold modal_shows. simpl.
    rewrite length_fmap, length_imap.
    split; [done|]. split; [done|]. split; [done|]. split; [|done].
    intros k. rewrite list_lookup_imap.
    destruct (thumbnails result !! k) as [x|] eqn:Hk; simpl.
    + destruct (Z.eqb_spec (Z.of_nat k) startIndex); split; (done || by intros [=]).
    + apply lookup_ge_None in Hk. split; [done|lia].
  - destruct (decide _); [|done].
    apply all_shown_on_modal; [apply nextImage_keeps_shown|done].
  - destruct (decide _); [|done].
    apply all_shown_on_modal; [apply prevImage_keeps_shown|done].
  - destruct (decide _); [|done].
    apply all_shown_on_modal; [|done].
    intros m k Hm. destruct (decide _) as [Hlt|]; [|by exists k].
    pose proof Hm as (_ & _ & Hlen & _ & Hdots).
    eexists. apply showImage_shows; [done..|]. rewrite Hdots, Hlen in Hlt. lia.
  - unfold Modal.close_click, Modal.removeChild. by destruct (decide _).
  - unfold Modal.close_click, Modal.removeChild. by destruct (decide _).
  - apply dispatch_keydown_keeps; [|done].
    intros id d' Hd'. by apply all_shown_keyHandler.
Qed.

(** X20. When every image that is clicked exists in the result
    that the modal is made from, every modal shows exactly one of its
    images at any time, the image of its current index, and its active
    dot is the dot of that image. *)
Theorem modals_show_one_image evs id m :
  Forall open_in_range evs →
  Modal.modals (Modal.run evs Modal.empty_document) !! id = Some m →
  ∃ k : nat,
    Modal.currentIndex m = Modal.Num (Z.of_nat k)
    ∧ k < length (Modal.images m)
    ∧ Modal.display m = <[k := true]> (replicate (length (Modal.images m)) false)
    ∧ Modal.dots m = Modal.display m.
Proof.
  intros Hevs Hm.
  assert (all_shown (Modal.run evs Modal.empty_document)) as Hall.
  { clear Hm. assert (all_shown Modal.empty_document) as Hempty by (by intros ? ?).
    revert Hempty. generalize Modal.empty_document as d.
    induction Hevs as [|ev evs Hev _ IH]; intros d Hd; [done|].
    simpl. apply IH. by apply all_shown_handle. }
  destruct (Hall id m Hm) as (k & Hcur & Hk & Hlen & Hshown & Hdots).
  exists (Z.to_nat k). rewrite Z2Nat.id by lia.
  split; [done|]. split; [lia|]. split; [|done].
  apply list_eq. intros i.
  destruct (decide (i = Z.to_nat k)) as [->|Hne].
  - rewrite list_lookup_insert_eq by (rewrite length_replicate; lia).
    apply Hshown. lia.
  - rewrite list_lookup_insert_ne by done.
    destruct (Modal.display m !! i) as [b|] eqn:Hi.
    + apply lookup_lt_Some in Hi as Hlt. rewrite Hlen in Hlt.
      rewrite lookup_replicate_2 by done.
      destruct b; [|done]. apply Hshown in Hi. lia.
    + apply lookup_ge_None in Hi. rewrite Hlen in Hi.
      symmetry. apply lookup_ge_None. by rewrite length_replicate.
Qed.

Lemma modals_show_one_image_witness :
  let evs := [Modal.Open gallery_state (Js.lit "7") 1; Modal.NextArrow 0;
              Modal.Key (Js.lit "ArrowRight")] in
  let m := {| Modal.images := Carousel.image_src <$> thumbnails example_gallery;
              Modal.display := [true; false; false];
              Modal.dots := [true; false; false];
              Modal.currentIndex := Modal.Num 0 |} in
  Forall open_in_range evs
  ∧ Modal.modals (Modal.run evs Modal.empty_document) !! 0 = Some m
  ∧ ∃ k : nat,
      Modal.currentIndex m = Modal.Num (Z.of_nat k)
      ∧ k < length (Modal.images m)
      ∧ Modal.display m = <[k := true]> (replicate (length (Modal.images m)) false)
      ∧ Modal.dots m = Modal.display m.
Proof.
  intros evs m.
  assert (Forall open_in_range evs) as Hevs.
  { constructor; [|by repeat constructor].
    intros i result Hfind. vm_compute in Hfind.
    injection Hfind as <- <-. simpl. lia. }
  assert (Modal.modals (Modal.run evs Modal.empty_document) !! 0 = Some m) as Hm
    by (vm_compute; reflexivity).
  split; [exact Hevs|]. split; [exact Hm|].
  exact (modals_show_one_image evs 0 m Hevs Hm).
Defined.

End modal_images.


(* ===================================================================== *)
(** * The carousel timers *)
(* ===================================================================== *)

Section timers.

Implicit Types (t : Timers.Timers) (cb : Timers.Callback) (codes : list str)
  (sched : gmap nat Timers.Callback) (intervals timeouts : gmap str nat).

Lemma registered_delete codes sched next intervals timeouts id :
  registered codes sched next intervals timeouts →
  registered codes (delete id sched) next intervals timeouts.
Proof. intros Hreg id' cb [_ Hcb]%lookup_delete_Some. by apply Hreg. Qed.

Lemma one_per_code_delete codes sched id :
  one_per_code codes sched → one_per_code codes (delete id sched).
Proof.
  intros Hone id1 id2 cb1 cb2 code [_ H1]%lookup_delete_Some
    [_ H2]%lookup_delete_Some. by apply Hone.
Qed.

(** The timer [id] of a card is replaced by a new timer of that card. *)
Lemma reschedule codes sched next intervals timeouts intervals' timeouts'
    id card code cb' :
  registered codes sched next intervals timeouts →
  one_per_code codes sched →
  codes !! card = Some code →
  Timers.card_of cb' = card →
  (∀ id2 cb2, sched !! id2 = Some cb2 →
              codes !! Timers.card_of cb2 = Some code → id2 = id) →
  (∀ code', code' ≠ code →
            intervals' !! code' = intervals !! code'
            ∧ timeouts' !! code' = timeouts !! code') →
  match cb' with
  | Timers.Hold _ => intervals' !! code = Some next
  | _ => timeouts' !! code = Some next
  end →
  registered codes (<[next := cb']> (delete id sched)) (S next) intervals' timeouts'
  ∧ one_per_code codes (<[next := cb']> (delete id sched)).
Proof.
  intros Hreg Hone Hcode Hcard Honly Hother Hnew. split.
  - intros id0 cb0 [[<- <-]|[Hne [Hid Hcb]%lookup_delete_Some]]%lookup_insert_Some.
    + split; [lia|]. exists code. by rewrite Hcard.
    + destruct (Hreg id0 cb0 Hcb) as (Hlt & code0 & Hcode0 & Hmap).
      split; [lia|]. exists code0. split; [done|].
      assert (code0 ≠ code) as Hdiff.
      { intros ->. by destruct Hid; symmetry; eapply Honly. }
      destruct (Hother code0 Hdiff) as [-> ->]. done.
  - intros id1 id2 cb1 cb2 code0
      [[<- <-]|[Hne1 [Hid1 Hcb1]%lookup_delete_Some]]%lookup_insert_Some
      [[<- <-]|[Hne2 [Hid2 Hcb2]%lookup_delete_Some]]%lookup_insert_Some
      Hc1 Hc2; [done| | |by eapply Hone].
    + rewrite Hcard, Hcode in Hc1. injection Hc1 as <-.
      by destruct Hid2; symmetry; eapply Honly.
    + rewrite Hcard, Hcode in Hc2. injection Hc2 as <-.
      by destruct Hid1; symmetry; eapply Honly.
Qed.

Lemma codes_alter (f : Timers.Closure → Timers.Closure) card
    (l : list Timers.Closure) :
  (∀ c, Timers.srefCode (f c) = Timers.srefCode c) →
  Timers.srefCode <$> alter f card l = Timers.srefCode <$> l.
Proof.
  intros Hf. apply list_eq. intros i. rewrite !list_lookup_fmap.
  destruct (decide (card = i)) as [<-|Hne].
  - rewrite list_lookup_alter_eq. destruct (l !! card); simpl; [|done].
    by rewrite Hf.
  - by rewrite list_lookup_alter_ne.
Qed.

Lemma codes_insert card (c c' : Timers.Closure) (l : list Timers.Closure) :
  l !! card = Some c → Timers.srefCode c' = Timers.srefCode c →
  Timers.srefCode <$> <[card := c']> l = Timers.srefCode <$> l.
Proof.
  intros Hc Hcode. rewrite list_fmap_insert, Hcode.
  apply list_insert_id. by rewrite list_lookup_fmap, Hc.
Qed.

Lemma advanceImage_code c : Timers.srefCode (Timers.advanceImage c) = Timers.srefCode c.
Proof. unfold Timers.advanceImage. by destruct (Timers.isPaused c). Qed.

(** The timers that a loop of [clearTimeout] leaves. *)
Lemma clear_all (m : gmap str nat) t :
  let t' := map_fold (λ _ id t, Timers.clear_timer id t) t m in
  Timers.closures t' = Timers.closures t
  ∧ Timers.next_id t' = Timers.next_id t
  ∧ Timers.autoAdvanceIntervals t' = Timers.autoAdvanceIntervals t
  ∧ Timers.autoAdvanceTimeouts t' = Timers.autoAdvanceTimeouts t
  ∧ (∀ id, Timers.scheduled t' !! id = None
           ∨ Timers.scheduled t' !! id = Timers.scheduled t !! id)
  ∧ (∀ code id, m !! code = Some id → Timers.scheduled t' !! id = None).
Proof.
  simpl.
  apply (map_fold_weak_ind
           (λ t' m,
              Timers.closures t' = Timers.closures t
              ∧ Timers.next_id t' = Timers.next_id t
              ∧ Timers.autoAdvanceIntervals t' = Timers.autoAdvanceIntervals t
              ∧ Timers.autoAdvanceTimeouts t' = Timers.autoAdvanceTimeouts t
              ∧ (∀ id, Timers.scheduled t' !! id = None
                       ∨ Timers.scheduled t' !! id = Timers.scheduled t !! id)
              ∧ (∀ code id, m !! code = Some id → Timers.scheduled t' !! id = None))).
  - repeat (split; [done|]). split; [by right|].
    intros code id Hcode. by rewrite lookup_empty in Hcode.
  - intros code id m' r Hfresh (Hc & Hn & Hi & Ht & Hsub & Hgone). simpl.
    repeat (split; [done|]). split.
    + intros id'. destruct (decide (id = id')) as [<-|Hne].
      * left. apply lookup_delete_eq.
      * rewrite lookup_delete_ne by done. apply Hsub.
    + intros code' id' [[<- <-]|[Hne Hcode']]%lookup_insert_Some.
      * apply lookup_delete_eq.
      * apply lookup_delete_None. right. by eapply Hgone.
Qed.

Lemma stopAllAutoAdvance_effect t :
  let t' := Timers.stopAllAutoAdvance t in
  Timers.closures t' = Timers.closures t
  ∧ Timers.next_id t' = Timers.next_id t
  ∧ Timers.autoAdvanceIntervals t' = ∅
  ∧ Timers.autoAdvanceTimeouts t' = ∅
  ∧ (∀ id, Timers.scheduled t' !! id = None
           ∨ Timers.scheduled t' !! id = Timers.scheduled t !! id)
  ∧ (∀ code id,
       Timers.autoAdvanceIntervals t !! code = Some id
       ∨ Timers.autoAdvanceTimeouts t !! code = Some id →
       Timers.scheduled t' !! id = None).
Proof.
  unfold Timers.stopAllAutoAdvance.
  destruct (clear_all (Timers.autoAdvanceIntervals t) t)
    as (Hc1 & Hn1 & Hi1 & Ht1 & Hsub1 & Hgone1).
  set (t1 := map_fold _ t (Timers.autoAdvanceIntervals t)) in *.
  destruct (clear_all (Timers.autoAdvanceTimeouts (Timers.set_intervals ∅ t1))
                      (Timers.set_intervals ∅ t1))
    as (Hc2 & Hn2 & Hi2 & Ht2 & Hsub2 & Hgone2).
  set (t2 := map_fold _ (Timers.set_intervals ∅ t1) _) in *.
  simpl in *.
  split; [congruence|]. split; [congruence|]. split; [done|]. split; [done|].
  split.
  - intros id. destruct (Hsub2 id) as [?|H2]; [by left|].
    rewrite H2. apply Hsub1.
  - intros code id [Hi|Ht].
    + destruct (Hsub2 id) as [?|H2]; [done|]. rewrite H2. by eapply Hgone1.
    + eapply Hgone2. by rewrite Ht1.
Qed.

Lemma stopAllAutoAdvance_clears t :
  timers_invariant t → Timers.scheduled (Timers.stopAllAutoAdvance t) = ∅.
Proof.
  intros [Hreg _].
  destruct (stopAllAutoAdvance_effect t) as (_ & _ & _ & _ & Hsub & Hgone).
  apply map_empty. intros id.
  destruct (Hsub id) as [?|Hsame]; [done|].
  destruct (Timers.scheduled t !! id) as [cb|] eqn:Hcb; [|done].
  destruct (Hreg id cb Hcb) as (_ & code & _ & Hmap).
  apply (Hgone code). destruct cb; auto.
Qed.

Lemma timers_invariant_no_timers t :
  Timers.scheduled t = ∅ → timers_invariant t.
Proof.
  intros Hnone. split.
  - intros id cb Hcb. by rewrite Hnone, lookup_empty in Hcb.
  - intros id1 id2 cb1 cb2 code Hcb. by rewrite Hnone, lookup_empty in Hcb.
Qed.

(** [startCycle] for a card whose code no timer has, or only the timer
    [id], which has just run. *)
Lemma startCycle_invariant card c id t :
  timers_invariant t →
  Timers.closures t !! card = Some c →
  (∀ id2 cb2, Timers.scheduled t !! id2 = Some cb2 →
              (Timers.srefCode <$> Timers.closures t) !! Timers.card_of cb2
              = Some (Timers.srefCode c) → id2 = id) →
  timers_invariant (Timers.startCycle card (Timers.clear_timer id t)).
Proof.
  intros [Hreg Hone] Hc Honly. unfold Timers.startCycle. simpl. rewrite Hc.
  destruct (Timers.isPaused c).
  - split; [by apply registered_delete|by apply one_per_code_delete].
  - unfold timers_invariant. simpl.
    apply (reschedule _ _ _ (Timers.autoAdvanceIntervals t)
             (Timers.autoAdvanceTimeouts t) _ _ id card (Timers.srefCode c));
      [done|done| |done|done| |].
    + by rewrite list_lookup_fmap, Hc.
    + intros code' Hne. by rewrite lookup_insert_ne.
    + simpl. apply lookup_insert_eq.
Qed.

Lemma fire_invariant id t : timers_invariant t → timers_invariant (Timers.fire id t).
Proof.
  intros Hinv. pose proof Hinv as [Hreg Hone]. unfold Timers.fire.
  destruct (Timers.scheduled t !! id) as [cb|] eqn:Hcb; [|done].
  destruct (Hreg id cb Hcb) as (Hlt & code & Hcode & Hmap).
  rewrite list_lookup_fmap in Hcode.
  assert (∀ card c, Timers.card_of cb = card → Timers.closures t !! card = Some c →
            ∀ id2 cb2, Timers.scheduled t !! id2 = Some cb2 →
              (Timers.srefCode <$> Timers.closures t) !! Timers.card_of cb2
              = Some (Timers.srefCode c) → id2 = id) as Honly.
  { intros card c <- Hc id2 cb2 Hcb2 Hcode2.
    eapply (Hone id2 id cb2 cb); [done..|].
    by rewrite list_lookup_fmap, Hc. }
  destruct cb as [card|card|card]; simpl in *.
  - destruct (Timers.closures t !! card) as [c|] eqn:Hc; simpl in *;
      [|split; [by apply registered_delete|by apply one_per_code_delete]].
    destruct (Timers.isPaused c);
      [split; [by apply registered_delete|by apply one_per_code_delete]|].
    unfold timers_invariant. simpl.
    apply (reschedule _ _ _ (Timers.autoAdvanceIntervals t)
             (Timers.autoAdvanceTimeouts t) _ _ id card (Timers.srefCode c));
      [done|done| |done| | |].
    + by rewrite list_lookup_fmap, Hc.
    + by eapply Honly.
    + intros code' Hne. by rewrite lookup_insert_ne.
    + simpl. apply lookup_insert_eq.
  - destruct (Timers.closures t !! card) as [c|] eqn:Hc; simpl in *; [|done].
    destruct (Timers.isPaused c) eqn:Hpaused; [done|].
    assert (Timers.srefCode <$> <[card := Timers.advanceImage c]> (Timers.closures t)
            = Timers.srefCode <$> Timers.closures t) as Hcodes.
    { eapply codes_insert; [done|apply advanceImage_code]. }
    destruct (Timers.currentIndex (Timers.advanceImage c) =? 0)%Z.
    + unfold timers_invariant. simpl. rewrite Hcodes.
      apply (reschedule _ _ _ (Timers.autoAdvanceIntervals t)
               (Timers.autoAdvanceTimeouts t) _ _ id card (Timers.srefCode c));
        [done|done| |done| | |].
      * by rewrite list_lookup_fmap, Hc.
      * by eapply Honly.
      * intros code' Hne. by rewrite lookup_insert_ne, lookup_delete_ne.
      * simpl. apply lookup_insert_eq.
    + unfold timers_invariant. simpl. by rewrite Hcodes.
  - destruct (Timers.closures t !! card) as [c|] eqn:Hc; simpl in *;
      [|split; [by apply registered_delete|by apply one_per_code_delete]].
    destruct (Timers.isPaused c) eqn:Hpaused; simpl;
      [split; [by apply registered_delete|by apply one_per_code_delete]|].
    eapply startCycle_invariant; [done..|]. by eapply Honly.
Qed.

Lemma registered_more_codes codes more sched next intervals timeouts :
  registered codes sched next intervals timeouts →
  registered (codes ++ more) sched next intervals timeouts.
Proof.
  intros Hreg id cb Hcb. destruct (Hreg id cb Hcb) as (Hlt & code & Hcode & Hmap).
  split; [done|]. exists code. split; [|done].
  by apply lookup_app_l_Some.
Qed.

Lemma startAutoAdvance_invariant c code t :
  timers_invariant t →
  (∀ id cb, Timers.scheduled t !! id = Some cb →
            (Timers.srefCode <$> Timers.closures t) !! Timers.card_of cb ≠ Some code) →
  let t' := Timers.startAutoAdvance c code t in
  timers_invariant t'
  ∧ ∀ id cb code',
      Timers.scheduled t' !! id = Some cb →
      (Timers.srefCode <$> Timers.closures t') !! Timers.card_of cb = Some code' →
      code' = code
      ∨ (Timers.scheduled t !! id = Some cb
         ∧ (Timers.srefCode <$> Timers.closures t) !! Timers.card_of cb = Some code').
Proof.
  intros [Hreg Hone] Hfresh. unfold Timers.startAutoAdvance.
  destruct (decide (length (Carousel.dots c) ≤ 1)); simpl.
  { split; [done|]. intros id cb code' Hcb Hcode. by right. }
  unfold Timers.startCycle. simpl.
  rewrite lookup_app_r, Nat.sub_diag by done. simpl.
  assert (∀ id cb, Timers.scheduled t !! id = Some cb →
            Timers.card_of cb < length (Timers.closures t)) as Hold.
  { intros id cb Hcb. destruct (Hreg id cb Hcb) as (_ & code0 & Hcode0 & _).
    apply lookup_lt_Some in Hcode0. by rewrite length_fmap in Hcode0. }
  assert (Timers.scheduled t !! Timers.next_id t = None) as Hnext.
  { destruct (Timers.scheduled t !! Timers.next_id t) as [cb|] eqn:Hcb; [|done].
    destruct (Hreg _ cb Hcb) as [? _]. lia. }
  split.
  - unfold timers_invariant. simpl. rewrite fmap_app. simpl.
    rewrite <-(delete_id (Timers.scheduled t) (Timers.next_id t)) by done.
    apply (reschedule _ _ _ (Timers.autoAdvanceIntervals t)
             (Timers.autoAdvanceTimeouts t) _ _ _ (length (Timers.closures t)) code).
    + by apply registered_more_codes.
    + intros id1 id2 cb1 cb2 code0 H1 H2 Hc1 Hc2.
      rewrite lookup_app_l in Hc1 by (rewrite length_fmap; by eapply Hold).
      rewrite lookup_app_l in Hc2 by (rewrite length_fmap; by eapply Hold).
      by eapply Hone.
    + by rewrite lookup_app_r, length_fmap, Nat.sub_diag by (by rewrite length_fmap).
    + done.
    + intros id2 cb2 Hcb2 Hcode2.
      rewrite lookup_app_l in Hcode2 by (rewrite length_fmap; by eapply Hold).
      by destruct (Hfresh id2 cb2 Hcb2).
    + intros code' Hne. by rewrite lookup_insert_ne.
    + simpl. apply lookup_insert_eq.
  - intros id cb code' [[<- <-]|[Hne Hcb]]%lookup_insert_Some Hcode.
    + left. simpl in Hcode. rewrite fmap_app in Hcode.
      rewrite lookup_app_r, length_fmap, Nat.sub_diag in Hcode
        by (by rewrite length_fmap).
      by injection Hcode.
    + right. split; [done|]. rewrite fmap_app in Hcode.
      by rewrite lookup_app_l in Hcode by (rewrite length_fmap; by eapply Hold).
Qed.

Lemma start_cards_invariant results t :
  NoDup (sref_code <$> results) →
  timers_invariant t →
  (∀ id cb code, Timers.scheduled t !! id = Some cb →
     (Timers.srefCode <$> Timers.closures t) !! Timers.card_of cb = Some code →
     code ∉ sref_code <$> results) →
  timers_invariant (Timers.start_cards results t).
Proof.
  revert t. induction results as [|result results IH]; intros t Hnodup Hinv Hfresh;
    [done|].
  simpl in Hnodup. apply NoDup_cons in Hnodup as [Hnew Hnodup].
  unfold Timers.start_cards. cbn [foldl].
  destruct (startAutoAdvance_invariant (Carousel.card_carousel result)
              (sref_code result) t Hinv) as [Hinv' Hcodes].
  { intros id cb Hcb Hcode. apply (Hfresh id cb _ Hcb Hcode). left. }
  apply IH; [done..|].
  intros id cb code Hcb Hcode.
  destruct (Hcodes id cb code Hcb Hcode) as [->|[Hcb' Hcode']]; [done|].
  intros Hin. apply (Hfresh id cb code Hcb' Hcode'). by right.
Qed.

Lemma timers_invariant_closures (f : Timers.Closure → Timers.Closure) card t :
  (∀ c, Timers.srefCode (f c) = Timers.srefCode c) →
  timers_invariant t →
  timers_invariant (Timers.set_closures (alter f card (Timers.closures t)) t).
Proof.
  intros Hf Hinv. unfold timers_invariant. simpl. by rewrite codes_alter.
Qed.

Lemma handle_invariant ev t :
  distinct_codes ev → timers_invariant t → timers_invariant (Timers.handle ev t).
Proof.
  intros Hev Hinv. destruct ev as [results| |id|card|card|card direction]; simpl.
  - pose proof (stopAllAutoAdvance_clears t Hinv) as Hnone.
    apply start_cards_invariant; [done|by apply timers_invariant_no_timers|].
    intros id cb code Hcb. by rewrite Hnone, lookup_empty in Hcb.
  - apply timers_invariant_no_timers. by apply stopAllAutoAdvance_clears.
  - by apply fire_invariant.
  - by apply timers_invariant_closures.
  - by apply timers_invariant_closures.
  - by apply timers_invariant_closures.
Qed.

Lemma run_invariant evs t :
  Forall distinct_codes evs → timers_invariant t →
  timers_invariant (Timers.run evs t).
Proof.
  intros Hevs. revert t. induction Hevs as [|ev evs Hev _ IH]; intros t Ht; [done|].
  simpl. apply IH. by apply handle_invariant.
Qed.



End timers.

Section timers_more.

Implicit Types (t : Timers.Timers) (cb : Timers.Callback) (codes : list str)
  (sched : gmap nat Timers.Callback) (intervals timeouts : gmap str nat).

Lemma clear_all_keeps (m : gmap str nat) t id :
  (∀ code, m !! code ≠ Some id) →
  Timers.scheduled (map_fold (λ _ id t, Timers.clear_timer id t) t m) !! id
  = Timers.scheduled t !! id.
Proof.
  apply (map_fold_weak_ind
           (λ t' m, (∀ code, m !! code ≠ Some id) →
                    Timers.scheduled t' !! id = Timers.scheduled t !! id)).
  - done.
  - intros code id' m' r Hfresh IH Hnot. simpl.
    assert (id' ≠ id) as Hne.
    { intros ->. apply (Hnot code). apply lookup_insert_eq. }
    rewrite lookup_delete_ne by done. apply IH.
    intros code' Hcode'. apply (Hnot code').
    rewrite lookup_insert_ne; [done|]. intros ->. by rewrite Hfresh in Hcode'.
Qed.

Lemma stopAllAutoAdvance_keeps t id :
  (∀ code, Timers.autoAdvanceIntervals t !! code ≠ Some id) →
  (∀ code, Timers.autoAdvanceTimeouts t !! code ≠ Some id) →
  Timers.scheduled (Timers.stopAllAutoAdvance t) !! id = Timers.scheduled t !! id.
Proof.
  intros Hi Ht. unfold Timers.stopAllAutoAdvance. simpl.
  destruct (clear_all (Timers.autoAdvanceIntervals t) t)
    as (_ & _ & _ & Ht1 & _).
  rewrite clear_all_keeps.
  - simpl. by apply clear_all_keeps.
  - simpl. by rewrite Ht1.
Qed.

Lemma card_carousel_dots result :
  length (Carousel.dots (Carousel.card_carousel result))
  = length (thumbnails result).
Proof. unfold Carousel.card_carousel. simpl. by rewrite length_imap. Qed.

Lemma startAutoAdvance_new c code t :
  1 < length (Carousel.dots c) →
  Timers.startAutoAdvance c code t
  = {| Timers.closures := Timers.closures t ++ [Timers.mkClosure code c 0 false];
       Timers.scheduled :=
         <[Timers.next_id t := Timers.InitialWait (length (Timers.closures t))]>
           (Timers.scheduled t);
       Timers.next_id := S (Timers.next_id t);
       Timers.autoAdvanceIntervals := Timers.autoAdvanceIntervals t;
       Timers.autoAdvanceTimeouts :=
         <[code := Timers.next_id t]> (Timers.autoAdvanceTimeouts t) |}.
Proof.
  intros Hdots. unfold Timers.startAutoAdvance.
  rewrite decide_False by lia. unfold Timers.startCycle. simpl.
  by rewrite lookup_app_r, Nat.sub_diag by done.
Qed.

(** X22. When a page consists of two cards with the same code, each
    with more than one image, the timeout of the second card takes the
    place of the first in the map, and stopping all timers leaves the
    timeout of the first card running. *)
Theorem same_code_leaves_a_timer evs r1 r2 :
  Forall distinct_codes evs →
  sref_code r1 = sref_code r2 →
  1 < length (thumbnails r1) →
  1 < length (thumbnails r2) →
  let t := Timers.run evs Timers.empty_timers in
  let t' := Timers.run [Timers.PageShown [r1; r2]; Timers.ResultsHidden] t in
  Timers.scheduled t'
  = {[ Timers.next_id t := Timers.InitialWait (length (Timers.closures t)) ]}.
Proof.
  intros Hevs Hcode H1 H2 t t'.
  assert (timers_invariant t) as Hinv.
  { apply run_invariant; [done|]. by apply timers_invariant_no_timers. }
  pose proof (stopAllAutoAdvance_clears t Hinv) as Hnone.
  destruct (stopAllAutoAdvance_effect t) as (Hc & Hn & Hi & Ht & _).
  subst t'. cbn [Timers.run foldl Timers.handle Timers.start_cards].
  set (t0 := Timers.stopAllAutoAdvance t) in *.
  rewrite !startAutoAdvance_new by (rewrite card_carousel_dots; lia).
  cbn [Timers.closures Timers.scheduled Timers.next_id
       Timers.autoAdvanceIntervals Timers.autoAdvanceTimeouts].
  rewrite Hc, Hn, Hi, Ht, Hnone, Hcode.
  match goal with
  | |- Timers.scheduled (Timers.stopAllAutoAdvance ?u) = _ => set (t1 := u)
  end.
  destruct (stopAllAutoAdvance_effect t1) as (_ & _ & _ & _ & Hsub & Hgone).
  apply map_eq. intros id.
  destruct (decide (id = Timers.next_id t)) as [->|Hfirst].
  - rewrite lookup_singleton_eq, stopAllAutoAdvance_keeps.
    + subst t1. simpl. rewrite lookup_insert_ne by lia. apply lookup_insert_eq.
    + intros code. subst t1. simpl. by rewrite lookup_empty.
    + intros code. subst t1. simpl. rewrite insert_insert_eq.
      intros [[_ ?]|[_ Hempty]]%lookup_insert_Some; [lia|].
      by rewrite lookup_empty in Hempty.
  - rewrite lookup_singleton_ne by done.
    destruct (decide (id = S (Timers.next_id t))) as [->|Hsecond].
    + apply (Hgone (sref_code r2)). right. subst t1. simpl.
      apply lookup_insert_eq.
    + destruct (Hsub id) as [?|Hsame]; [done|]. rewrite Hsame.
      subst t1. simpl. rewrite !lookup_insert_ne by done. apply lookup_empty.
Qed.

Lemma same_code_leaves_a_timer_witness :
  Forall distinct_codes []
  ∧ sref_code example_gallery = sref_code example_gallery
  ∧ 1 < length (thumbnails example_gallery)
  ∧ Timers.scheduled
      (Timers.run [Timers.PageShown [example_gallery; example_gallery];
                   Timers.ResultsHidden] Timers.empty_timers)
    = {[ 0 := Timers.InitialWait 0 ]}.
Proof.
  assert (Forall distinct_codes []) as Hevs by constructor.
  assert (1 < length (thumbnails example_gallery)) as Hmany by (simpl; lia).
  split; [exact Hevs|]. split; [reflexivity|]. split; [exact Hmany|].
  exact (same_code_leaves_a_timer [] example_gallery example_gallery
           Hevs eq_refl Hmany Hmany).
Defined.

Lemma closures_stopAll t :
  Timers.closures (Timers.stopAllAutoAdvance t) = Timers.closures t.
Proof. by destruct (stopAllAutoAdvance_effect t) as (? & _). Qed.

Lemma startAutoAdvance_effect c code t :
  let t' := Timers.startAutoAdvance c code t in
  (∃ more, Timers.closures t' = Timers.closures t ++ more)
  ∧ ∀ id cb, Timers.scheduled t' !! id = Some cb →
             Timers.scheduled t !! id = Some cb
             ∨ length (Timers.closures t) ≤ Timers.card_of cb.
Proof.
  unfold Timers.startAutoAdvance.
  destruct (decide _); simpl.
  { split; [exists []; by rewrite app_nil_r|]. intros id cb Hcb. by left. }
  unfold Timers.startCycle. simpl.
  rewrite lookup_app_r, Nat.sub_diag by done. simpl.
  split; [by eexists|].
  intros id cb [[<- <-]|[_ Hcb]]%lookup_insert_Some; [right; simpl; lia|by left].
Qed.

Lemma start_cards_effect results t :
  let t' := Timers.start_cards results t in
  (∃ more, Timers.closures t' = Timers.closures t ++ more)
  ∧ ∀ id cb, Timers.scheduled t' !! id = Some cb →
             Timers.scheduled t !! id = Some cb
             ∨ length (Timers.closures t) ≤ Timers.card_of cb.
Proof.
  revert t. induction results as [|result results IH]; intros t.
  { simpl. split; [exists []; by rewrite app_nil_r|]. intros id cb Hcb. by left. }
  unfold Timers.start_cards. cbn [foldl].
  destruct (startAutoAdvance_effect (Carousel.card_carousel result)
              (sref_code result) t) as [[more1 Hmore1] Hsched1].
  destruct (IH (Timers.startAutoAdvance (Carousel.card_carousel result)
                  (sref_code result) t)) as [[more2 Hmore2] Hsched2].
  unfold Timers.start_cards in Hmore2, Hsched2. simpl. split.
  - exists (more1 ++ more2). by rewrite Hmore2, Hmore1, <-app_assoc.
  - intros id cb Hcb. destruct (Hsched2 id cb Hcb) as [Hcb1|Hnew].
    + by apply Hsched1.
    + right. rewrite Hmore1, length_app in Hnew. lia.
Qed.

(** What an event does to a card without a timer, when no arrow of the
    card is pressed. *)
Lemma idle_handle card c ev t :
  (∀ direction, ev ≠ Timers.Arrow card direction) →
  idle card t →
  Timers.closures t !! card = Some c →
  idle card (Timers.handle ev t)
  ∧ ∃ c', Timers.closures (Timers.handle ev t) !! card = Some c'
          ∧ Timers.carousel c' = Timers.carousel c
          ∧ Timers.currentIndex c' = Timers.currentIndex c.
Proof.
  intros Harrow [Hlt Hidle] Hc.
  destruct ev as [results| |id|card'|card'|card' direction]; cbn [Timers.handle].
  - destruct (start_cards_effect results (Timers.stopAllAutoAdvance t))
      as [[more Hmore] Hsched].
    destruct (stopAllAutoAdvance_effect t) as (Hclo & _ & _ & _ & Hsub & _).
    rewrite Hclo in Hmore, Hsched. split; [split|].
    + rewrite Hmore, length_app. lia.
    + intros id cb Hcb. destruct (Hsched id cb Hcb) as [Hold|Hnew]; [|lia].
      destruct (Hsub id) as [Hnone|Hsame]; [congruence|].
      apply (Hidle id). congruence.
    + exists c. rewrite Hmore. split; [by apply lookup_app_l_Some|done].
  - destruct (stopAllAutoAdvance_effect t) as (Hclo & _ & _ & _ & Hsub & _).
    split; [split|].
    + by rewrite Hclo.
    + intros id cb Hcb. destruct (Hsub id) as [Hnone|Hsame]; [congruence|].
      apply (Hidle id). congruence.
    + exists c. by rewrite Hclo.
  - unfold Timers.fire, idle.
    destruct (Timers.scheduled t !! id) as [cb|] eqn:Hcb;
      [|split; [done|by exists c]].
    pose proof (Hidle id cb Hcb) as Hne.
    destruct cb as [card'|card'|card']; simpl in *.
    + destruct (Timers.closures t !! card') as [c0|] eqn:Hc0; simpl.
      2:{ split; [|by exists c]. split; [done|].
          intros id' cb' [_ Hcb']%lookup_delete_Some. by eapply Hidle. }
      destruct (Timers.isPaused c0); simpl.
      { split; [|by exists c]. split; [done|].
        intros id' cb' [_ Hcb']%lookup_delete_Some. by eapply Hidle. }
      split; [|by exists c]. split; [done|]. simpl.
      intros id' cb' [[_ <-]|[_ [_ Hcb']%lookup_delete_Some]]%lookup_insert_Some;
        [done|by eapply Hidle].
    + destruct (Timers.closures t !! card') as [c0|] eqn:Hc0; simpl;
        [|split; [done|by exists c]].
      destruct (Timers.isPaused c0); simpl; [split; [done|by exists c]|].
      destruct (Timers.currentIndex (Timers.advanceImage c0) =? 0)%Z; simpl.
      * split; [split|].
        -- by rewrite length_insert.
        -- intros id' cb'
             [[_ <-]|[_ [_ Hcb']%lookup_delete_Some]]%lookup_insert_Some;
             [done|by eapply Hidle].
        -- exists c. by rewrite list_lookup_insert_ne.
      * split; [split|].
        -- by rewrite length_insert.
        -- done.
        -- exists c. by rewrite list_lookup_insert_ne.
    + destruct (Timers.closures t !! card') as [c0|] eqn:Hc0; simpl.
      2:{ split; [|by exists c]. split; [done|].
          intros id' cb' [_ Hcb']%lookup_delete_Some. by eapply Hidle. }
      destruct (Timers.isPaused c0) eqn:Hpaused; simpl.
      { split; [|by exists c]. split; [done|].
        intros id' cb' [_ Hcb']%lookup_delete_Some. by eapply Hidle. }
      unfold Timers.startCycle. simpl. rewrite Hc0, Hpaused. simpl.
      split; [|by exists c]. split; [done|]. simpl.
      intros id' cb' [[_ <-]|[_ [_ Hcb']%lookup_delete_Some]]%lookup_insert_Some;
        [done|by eapply Hidle].
  - split; [split|].
    + simpl. by rewrite length_alter.
    + done.
    + simpl. destruct (decide (card' = card)) as [->|Hne].
      * rewrite list_lookup_alter_eq, Hc. simpl. by eexists.
      * rewrite list_lookup_alter_ne by done. by exists c.
  - split; [split|].
    + simpl. by rewrite length_alter.
    + done.
    + simpl. destruct (decide (card' = card)) as [->|Hne].
      * rewrite list_lookup_alter_eq, Hc. simpl. by eexists.
      * rewrite list_lookup_alter_ne by done. by exists c.
  - assert (card' ≠ card) as Hne by (intros ->; by eapply Harrow).
    split; [split|].
    + simpl. by rewrite length_alter.
    + done.
    + simpl. rewrite list_lookup_alter_ne by done. by exists c.
Qed.

(** X23. A timeout that runs while the mouse is over its card
    ends the automatic advance of that card for good: the card has no
    timer afterwards and never gets one again, also not when the mouse
    leaves, and as long as no arrow of the card is pressed its carousel
    stays as it is. *)
Theorem paused_timeout_ends_advance evs id cb card c later :
  Forall distinct_codes evs →
  let t := Timers.run evs Timers.empty_timers in
  Timers.scheduled t !! id = Some cb →
  cb = Timers.InitialWait card ∨ cb = Timers.CycleWait card →
  Timers.closures t !! card = Some c →
  Timers.isPaused c = true →
  Forall (λ ev, ∀ direction, ev ≠ Timers.Arrow card direction) later →
  let t' := Timers.run later (Timers.fire id t) in
  (∀ id' cb', Timers.scheduled t' !! id' = Some cb' → Timers.card_of cb' ≠ card)
  ∧ ∃ c', Timers.closures t' !! card = Some c'
          ∧ Timers.carousel c' = Timers.carousel c
          ∧ Timers.currentIndex c' = Timers.currentIndex c.
Proof.
  intros Hevs t Hcb Hkind Hc Hpaused Hlater t'.
  assert (timers_invariant t) as [Hreg Hone].
  { apply run_invariant; [done|]. by apply timers_invariant_no_timers. }
  assert (Timers.fire id t = Timers.clear_timer id t) as Hfire.
  { unfold Timers.fire. rewrite Hcb.
    destruct Hkind as [-> | ->]; simpl; by rewrite Hc, Hpaused. }
  assert (idle card (Timers.fire id t)
          ∧ Timers.closures (Timers.fire id t) !! card = Some c) as [Hidle Hc'].
  { rewrite Hfire. split; [split|done].
    - simpl. by eapply lookup_lt_Some.
    - simpl. intros id' cb' [Hne Hcb']%lookup_delete_Some Hcard.
      apply Hne.
      destruct (Hreg id cb Hcb) as (_ & code & Hcode & _).
      apply (Hone id id' cb cb' code); [done..|].
      rewrite Hcard. by destruct Hkind as [-> | ->]. }
  subst t'. clear Hfire Hcb.
  assert (∀ t0 c0,
            idle card t0 → Timers.closures t0 !! card = Some c0 →
            idle card (Timers.run later t0)
            ∧ ∃ c', Timers.closures (Timers.run later t0) !! card = Some c'
                    ∧ Timers.carousel c' = Timers.carousel c0
                    ∧ Timers.currentIndex c' = Timers.currentIndex c0) as Hrun.
  { clear -Hlater. induction Hlater as [|ev later Hev _ IH]; intros t0 c0 Hidle Hc0.
    - split; [done|by exists c0].
    - simpl.
      destruct (idle_handle card c0 ev t0 Hev Hidle Hc0)
        as (Hidle' & c1 & Hc1 & Hcar & Hidx).
      destruct (IH _ c1 Hidle' Hc1) as (Hidle'' & c2 & Hc2 & Hcar2 & Hidx2).
      split; [done|]. exists c2. split; [done|]. split; congruence. }
  destruct (Hrun _ c Hidle Hc') as ([_ Hnone] & Hrest).
  split; [exact Hnone|exact Hrest].
Qed.

Lemma paused_timeout_ends_advance_witness :
  let evs := [Timers.PageShown [example_gallery]; Timers.MouseEnter 0] in
  let t := Timers.run evs Timers.empty_timers in
  let c := Timers.mkClosure (Js.lit "7") (Carousel.card_carousel example_gallery)
                            0 true in
  let later := [Timers.MouseLeave 0; Timers.Fires 1] in
  Forall distinct_codes evs
  ∧ Timers.scheduled t !! 0 = Some (Timers.InitialWait 0)
  ∧ Timers.closures t !! 0 = Some c
  ∧ Forall (λ ev, ∀ direction, ev ≠ Timers.Arrow 0 direction) later
  ∧ ∀ id' cb',
      Timers.scheduled (Timers.run later (Timers.fire 0 t)) !! id' = Some cb' →
      Timers.card_of cb' ≠ 0.
Proof.
  intros evs t c later.
  assert (Forall distinct_codes evs) as Hevs.
  { repeat constructor. simpl. intros Hin. by apply elem_of_nil in Hin. }
  assert (Timers.scheduled t !! 0 = Some (Timers.InitialWait 0)) as Hcb
    by (vm_compute; reflexivity).
  assert (Timers.closures t !! 0 = Some c) as Hc by (vm_compute; reflexivity).
  assert (Forall (λ ev, ∀ direction, ev ≠ Timers.Arrow 0 direction) later) as Hlater.
  { repeat constructor; intros direction; discriminate. }
  split; [exact Hevs|]. split; [exact Hcb|]. split; [exact Hc|].
  split; [exact Hlater|].
  exact (proj1 (paused_timeout_ends_advance evs 0 (Timers.InitialWait 0) 0 c later
                  Hevs Hcb (or_introl eq_refl) Hc eq_refl Hlater)).
Defined.

End timers_more.

Section timers_cycle.

Implicit Types (t : Timers.Timers) (result : Result).

Lemma move_to_again i j (c : Carousel.Carousel) :
  Carousel.move_to i (Carousel.move_to j c) = Carousel.move_to i c.
Proof.
  unfold Carousel.move_to. simpl. f_equal.
  apply list_eq. intros k. rewrite !list_lookup_imap.
  by destruct (Carousel.dots c !! k).
Qed.

Lemma advanced_dots result j :
  length (Carousel.dots (advanced result j)) = length (thumbnails result).
Proof.
  destruct j; simpl; by rewrite ?length_imap.
Qed.

Lemma advanced_next result j (i : Z) :
  Carousel.move_to i (advanced result j)
  = Carousel.move_to i (Carousel.card_carousel result).
Proof. destruct j; [done|]. apply move_to_again. Qed.

Lemma insert_last {A} (l : list A) (x y : A) :
  <[length l := y]> (l ++ [x]) = l ++ [y].
Proof. by rewrite insert_app_r_alt, Nat.sub_diag by done. Qed.

Lemma lookup_last {A} (l : list A) (x : A) : (l ++ [x]) !! length l = Some x.
Proof. by rewrite lookup_app_r, Nat.sub_diag by done. Qed.

Lemma first_timeout result t :
  Timers.scheduled t = ∅ →
  1 < length (thumbnails result) →
  Timers.fire (Timers.next_id t)
    (Timers.startAutoAdvance (Carousel.card_carousel result) (sref_code result) t)
  = holding result t 0.
Proof.
  intros Hnone Hn.
  rewrite startAutoAdvance_new by (by rewrite card_carousel_dots).
  unfold Timers.fire. simpl. rewrite lookup_insert_eq. simpl.
  rewrite lookup_last. simpl. unfold holding. f_equal.
  rewrite Hnone, delete_insert_eq, delete_empty. done.
Qed.

Lemma hold_tick result t (j : nat) :
  S j < length (thumbnails result) →
  Timers.fire (S (Timers.next_id t)) (holding result t j) = holding result t (S j).
Proof.
  intros Hj. unfold Timers.fire, holding. simpl.
  rewrite lookup_singleton_eq. simpl. rewrite lookup_last. simpl.
  unfold Timers.advanceImage. simpl.
  rewrite advanced_dots, Z.rem_small by lia.
  destruct (Z.eqb_spec (Z.of_nat j + 1) 0); [lia|].
  unfold Timers.set_closures. simpl. rewrite insert_last.
  replace (Z.of_nat j + 1)%Z with (Z.of_nat (S j)) by lia.
  by rewrite advanced_next.
Qed.

Lemma hold_ticks result t (j : nat) :
  j < length (thumbnails result) →
  Nat.iter j (Timers.fire (S (Timers.next_id t))) (holding result t 0)
  = holding result t j.
Proof.
  induction j as [|j IH]; intros Hj; [done|].
  simpl. rewrite IH by lia. by apply hold_tick.
Qed.

(** X24. One cycle of a card with [n] images, [n] at least 2, started
    when no other timer is scheduled, while the mouse stays away: starting the card schedules a timeout; when it
    runs, the interval starts; the first [n - 1] runs of the interval
    show the images 1 to [n - 1]; the next run shows image 0 again, ends
    the interval and schedules a timeout, and that timeout schedules the
    first timeout again.  At each moment the card has exactly one
    timer. *)
Theorem one_cycle result t :
  Timers.scheduled t = ∅ →
  let n := length (thumbnails result) in
  1 < n →
  let card := length (Timers.closures t) in
  let id := Timers.next_id t in
  let started :=
    Timers.startAutoAdvance (Carousel.card_carousel result) (sref_code result) t in
  let after j := Nat.iter j (Timers.fire (S id)) (Timers.fire id started) in
  Timers.scheduled started = {[ id := Timers.InitialWait card ]}
  ∧ (∀ j, j < n →
       Timers.scheduled (after j) = {[ S id := Timers.Hold card ]}
       ∧ ∃ c, Timers.closures (after j) !! card = Some c
              ∧ Timers.currentIndex c = Z.of_nat j
              ∧ (0 < j → Carousel.current (Timers.carousel c) = Z.of_nat j))
  ∧ Timers.scheduled (after n) = {[ S (S id) := Timers.CycleWait card ]}
  ∧ (∃ c, Timers.closures (after n) !! card = Some c
          ∧ Timers.currentIndex c = 0%Z
          ∧ Carousel.current (Timers.carousel c) = 0%Z)
  ∧ Timers.scheduled (Timers.fire (S (S id)) (after n))
    = {[ S (S (S id)) := Timers.InitialWait card ]}.
Proof.
  intros Hnone n Hn card id started after.
  assert (∀ j, j < n → after j = holding result t j) as Hafter.
  { intros j Hj. subst after started id. cbn beta.
    rewrite first_timeout by done. by apply hold_ticks. }
  assert (after n
          = {| Timers.closures :=
                 Timers.closures t
                 ++ [Timers.mkClosure (sref_code result)
                       (Carousel.move_to 0 (Carousel.card_carousel result)) 0 false];
               Timers.scheduled := {[ S (S id) := Timers.CycleWait card ]};
               Timers.next_id := S (S (S id));
               Timers.autoAdvanceIntervals :=
                 delete (sref_code result)
                   (<[sref_code result := S id]> (Timers.autoAdvanceIntervals t));
               Timers.autoAdvanceTimeouts :=
                 <[sref_code result := S (S id)]>
                   (<[sref_code result := id]> (Timers.autoAdvanceTimeouts t)) |})
    as Hlast.
  { assert (∀ j, after (S j) = Timers.fire (S id) (after j)) as Hstep by done.
    assert (n = S (n - 1)) as Hm by lia.
    rewrite Hm, Hstep, (Hafter (n - 1)) by lia.
    unfold Timers.fire, holding. simpl.
    rewrite lookup_singleton_eq. simpl. rewrite lookup_last. simpl.
    unfold Timers.advanceImage. simpl.
    rewrite advanced_dots. fold n.
    replace (Z.of_nat (n - 1) + 1)%Z with (Z.of_nat n) by lia.
    rewrite Z.rem_same by lia. simpl.
    unfold Timers.set_closures. simpl. rewrite insert_last, advanced_next.
    f_equal. by rewrite delete_singleton_eq, insert_empty. }
  split; [|split; [|split; [|split]]].
  - subst started. rewrite startAutoAdvance_new by (by rewrite card_carousel_dots).
    simpl. by rewrite Hnone, insert_empty.
  - intros j Hj. rewrite (Hafter j Hj). split; [done|].
    eexists. split; [apply lookup_last|]. split; [done|].
    simpl. intros Hpos. destruct j; [lia|done].
  - by rewrite Hlast.
  - rewrite Hlast. eexists. split; [apply lookup_last|]. done.
  - rewrite Hlast. subst card id. unfold Timers.fire. simpl.
    rewrite lookup_singleton_eq. simpl. rewrite lookup_last. simpl.
    unfold Timers.startCycle. simpl. rewrite lookup_last. simpl.
    by rewrite delete_singleton_eq, insert_empty.
Qed.

Lemma one_cycle_witness :
  Timers.scheduled Timers.empty_timers = ∅
  ∧ 1 < length (thumbnails example_gallery)
  ∧ Timers.scheduled
      (Timers.startAutoAdvance (Carousel.card_carousel example_gallery)
                               (sref_code example_gallery) Timers.empty_timers)
    = {[ 0 := Timers.InitialWait 0 ]}.
Proof.
  assert (1 < length (thumbnails example_gallery)) as Hmany by (simpl; lia).
  split; [reflexivity|]. split; [exact Hmany|].
  exact (proj1 (one_cycle example_gallery Timers.empty_timers eq_refl Hmany)).
Defined.

End timers_cycle.

Section timers_one_card.

Implicit Types (t : Timers.Timers) (cb : Timers.Callback).



End timers_one_card.

(* ===================================================================== *)
(** * The copy button and the markup of a card *)
(* ===================================================================== *)

Section copy_button.

Implicit Types (c : Copy.Card) (n : Copy.Node).

Lemma copySREF_copy_button env copies srefCode c :
  env ≠ Copy.NoClipboard →
  (Copy.copySREF env copies srefCode Copy.copyButton c).1
  = Copy.setTimeout Copy.copyButton Copy.similarButton
      (Copy.set_show Copy.similarButton true
         (Copy.set_copied Copy.copyButton true
            (match env with
             | Copy.Resolves => Copy.set_clipboard srefCode c
             | _ => if copies then Copy.set_clipboard srefCode c else c
             end))).
Proof. by destruct env. Qed.

Lemma tidy_handle ev c : tidy c → tidy (Copy.handle ev c).
Proof.
  intros Hinv. pose proof Hinv as (Hshow & Hcopied & Htimers & Hrest).
  destruct ev as [env copies srefCode|]; simpl.
  - destruct (decide (env = Copy.NoClipboard)) as [->|Henv]; [done|].
    rewrite copySREF_copy_button by done. unfold tidy. simpl.
    split; [|split; [|split]].
    + intros n. destruct (decide (n = Copy.similarButton)) as [->|Hne]; [done|].
      rewrite fn_lookup_insert_ne by done.
      destruct env; [done| |]; try destruct copies; apply Hshow.
    + intros n. destruct (decide (n = Copy.copyButton)) as [->|Hne]; [done|].
      rewrite fn_lookup_insert_ne by done.
      destruct env; [done| |]; try destruct copies; apply Hcopied.
    + apply Forall_app. split; [|by repeat constructor].
      destruct env; [done| |]; try destruct copies; apply Htimers.
    + intros Hnil%(f_equal length). rewrite length_app in Hnil. simpl in Hnil. lia.
  - unfold Copy.timeout.
    destruct (Copy.timeouts c) as [|[element feedback] rest] eqn:Htimeouts;
      [exact Hinv|].
    apply Forall_cons in Htimers as [[= -> ->] Htimers].
    assert (∀ n, <[Copy.similarButton := false]> (Copy.show c) n = false) as Hs.
    { intros n. destruct (decide (n = Copy.similarButton)) as [->|Hne].
      - apply fn_lookup_insert.
      - rewrite fn_lookup_insert_ne by done.
        destruct (Copy.show c n) eqn:Hn; [|done]. by destruct Hne; apply Hshow. }
    assert (∀ n, <[Copy.copyButton := false]> (Copy.copied c) n = false) as Hc.
    { intros n. destruct (decide (n = Copy.copyButton)) as [->|Hne].
      - apply fn_lookup_insert.
      - rewrite fn_lookup_insert_ne by done.
        destruct (Copy.copied c n) eqn:Hn; [|done]. by destruct Hne; apply Hcopied. }
    unfold tidy. simpl. split; [|split; [|split; [done|]]].
    + intros n Hn. by rewrite Hs in Hn.
    + intros n Hn. by rewrite Hc in Hn.
    + intros _ n. by rewrite Hs, Hc.
Qed.

Lemma tidy_run evs c : tidy c → tidy (Copy.run evs c).
Proof.
  revert c. induction evs as [|ev evs IH]; intros c Hc; [done|].
  simpl. apply IH. by apply tidy_handle.
Qed.

(** X26. Whatever is copied and whenever the timers run, the element
    [copy-feedback] of a card never gets the class [show]: pressing the
    copy button marks the button as copied and gives the class [show] to
    the find-similar button, which is the next sibling of the copy
    button, and to nothing else.  Once no timer waits, no element is
    marked.  Without [navigator.clipboard] the press throws and changes
    nothing. *)
Theorem copy_feedback_never_shown evs :
  let c := Copy.run evs Copy.fresh_card in
  Copy.show c Copy.copyFeedback = false
  ∧ (∀ n, Copy.show c n = true → n = Copy.similarButton)
  ∧ (∀ n, Copy.copied c n = true → n = Copy.copyButton)
  ∧ (Copy.timeouts c = [] → ∀ n, Copy.show c n = false ∧ Copy.copied c n = false)
  ∧ (∀ env copies srefCode,
       let r := Copy.copySREF env copies srefCode Copy.copyButton c in
       if decide (env = Copy.NoClipboard) then r = (c, Thrown (Js.lit "TypeError"))
       else r.2 = Normal tt
            ∧ Copy.copied r.1 Copy.copyButton = true
            ∧ Copy.show r.1 Copy.similarButton = true
            ∧ Copy.show r.1 Copy.copyFeedback = false
            ∧ Copy.timeouts r.1 ≠ []
            ∧ (env = Copy.Resolves ∨ copies = true →
               Copy.clipboard r.1 = Some srefCode)).
Proof.
  intros c.
  assert (tidy c) as Hc.
  { apply tidy_run. unfold tidy. simpl. split; [done|]. split; [done|].
    split; [constructor|done]. }
  pose proof Hc as (Hshow & Hcopied & Htimers & Hrest).
  assert (Copy.show c Copy.copyFeedback = false) as Hfeedback.
  { destruct (Copy.show c Copy.copyFeedback) eqn:Hn; [|done].
    by apply Hshow in Hn. }
  split; [done|]. split; [done|]. split; [done|]. split; [done|].
  intros env copies srefCode r. subst r.
  destruct (decide (env = Copy.NoClipboard)) as [->|Henv]; [done|].
  assert (tidy (Copy.handle (Copy.CopyClicked env copies srefCode) c))
    as (Hshow' & _) by (by apply tidy_handle).
  simpl in Hshow'.
  split; [by destruct env|].
  rewrite copySREF_copy_button in * by done. simpl.
  split; [done|]. split; [done|]. split.
  { rewrite fn_lookup_insert_ne by done.
    destruct env; [done| |]; try destruct copies; exact Hfeedback. }
  split.
  { intros Hnil%(f_equal length). rewrite length_app in Hnil. simpl in Hnil. lia. }
  intros [-> | ->]; [done|]. by destruct env.
Qed.

End copy_button.

Section card_markup.

Implicit Types (result : Result) (s : State) (d : Modal.Document).

(** X27. A theme of one word reaches the markup of the card as it is:
    the only tag is the word, and it is written twice into the markup,
    once between single quotes in the [onclick] attribute and once as
    the text of the element, with no character replaced. *)
Theorem tag_markup_unescaped result (w : str) :
  plain_term w →
  summary result = key_themes_label ++ w →
  extractTags (summary result) = [w]
  ∧ tagsHtml result
    = Js.lit "<span class=" ++ [quote] ++ Js.lit "tag" ++ [quote]
      ++ Js.lit " onclick=" ++ [quote] ++ Js.lit "searchByTag('" ++ w
      ++ Js.lit "')" ++ [quote] ++ Js.lit ">" ++ w ++ Js.lit "</span>".
Proof.
  intros Hplain Hsummary.
  assert (extractTags (summary result) = [w]) as Htags.
  { pose proof Hplain as [Hlen Hall].
    rewrite Hsummary, (extractTags_match _ w).
    - rewrite split_no_sep.
      + simpl. rewrite first_word_plain by done.
        by rewrite filter_cons, decide_True by done.
      + eapply list.Forall_impl; [exact Hall|]. by intros c [? _].
    - apply match_key_themes_label.
      + intros ->. simpl in Hlen. lia.
      + eapply list.Forall_impl; [exact Hall|]. intros c [_ Hc].
        unfold Js.is_trimmed_char in Hc. by apply orb_false_elim in Hc as [_ ?]. }
  split; [done|]. unfold tagsHtml. rewrite Htags. simpl.
  by rewrite app_nil_r.
Qed.

Lemma tag_markup_unescaped_witness :
  let w := Js.lit "<img/src=x/onerror=alert(1)>" in
  let result := {| sref_code := Js.lit "7"; similarity := 0%R;
                   summary := key_themes_label ++ w; thumbnails := [] |} in
  plain_term w
  ∧ summary result = key_themes_label ++ w
  ∧ extractTags (summary result) = [w].
Proof.
  intros w result.
  assert (plain_term w) as Hplain.
  { split; [vm_compute; lia|]. apply (bool_decide_unpack _). by vm_compute. }
  split; [exact Hplain|]. split; [reflexivity|].
  exact (proj1 (tag_markup_unescaped result w Hplain eq_refl)).
Defined.



End card_markup.

(* ===================================================================== *)
(** * Find-similar requests *)
(* ===================================================================== *)

Section similar_search.

Implicit Types (s t : State) (net : Network).

(** X29. A find-similar request whose reply is accepted makes the
    results of the reply the list, goes to page 1, writes [Similar to ]
    and the code into the search box, names the reference of the reply
    in the title and shows the results section; with no results the
    container holds the no-similar message and the pagination flag
    stays, otherwise the first page is shown.  A reply that is not
    accepted keeps the list, the page, the cards and the search box,
    leaves the results section hidden and shows
    [Similar search failed: ] followed by the reason. *)
Theorem similar_search_outcomes net srefCode s :
  let reply := post_similar net srefCode in
  let s' := exec (findSimilarSREFs net srefCode) s in
  (∀ data,
     accepted reply = Some data →
     allResults s' = similar_results data
     ∧ currentPage s' = 1%Z
     ∧ searchInput (page s') = Js.lit "Similar to " ++ srefCode
     ∧ textContent (page s') resultsTitle = Js.lit "Similar to " ++ reference_sref data
     ∧ hidden (page s') resultsSection = false
     ∧ hidden (page s') errorMessage = true
     ∧ (similar_results data = [] →
        resultsContainer (page s') = NoResults no_similar_text
        ∧ currentResults s' = currentResults s
        ∧ hidden (page s') pagination = hidden (page s) pagination)
     ∧ (similar_results data ≠ [] →
        currentResults s' = Js.slice (similar_results data) 0 (resultsPerPage s)
        ∧ shows_current_page s'))
  ∧ (accepted reply = None →
     allResults s' = allResults s
     ∧ currentPage s' = currentPage s
     ∧ currentResults s' = currentResults s
     ∧ resultsContainer (page s') = resultsContainer (page s)
     ∧ searchInput (page s') = searchInput (page s)
     ∧ hidden (page s') resultsSection = true
     ∧ hidden (page s') errorMessage = false
     ∧ textContent (page s') errorText
       = Js.lit "Similar search failed: "
         ++ refusal (Js.lit "Similar search failed") reply).
Proof.
  intros reply s'. split.
  - intros data Hacc.
    set (title := Js.lit "Similar to " ++ reference_sref data).
    set (sent := log_request (mkRequest similar_url (Some srefCode))
                   (exec hideResults (exec hideError (exec showLoading s)))).
    set (s1 := set_currentPage 1
                 (set_allResults (similar_results data)
                    (on_page (set_searchInput (Js.lit "Similar to " ++ srefCode)) sent))).
    set (s2 := on_page (set_resultsContainer Blank)
                 (on_page (set_textContent resultsTitle title) s1)).
    assert (s' = exec hideLoading (exec showResults
              (if decide (length (similar_results data) = 0)
               then on_page (set_resultsContainer (NoResults no_similar_text)) s2
               else exec displayCurrentPage (exec updatePagination s2)))) as ->.
    { subst s' reply. unfold exec at 1. rewrite findSimilarSREFs_run, Hacc.
      cbn [fst]. unfold displaySimilarResults. by rewrite display_list_exec. }
    destruct (decide (length (similar_results data) = 0)) as [Hlen|Hlen].
    + apply length_zero_iff_nil in Hlen.
      split; [done|]. split; [done|]. split; [done|]. split; [done|].
      split; [done|]. split; [done|]. split; [done|].
      intros Hne. by rewrite Hlen in Hne.
    + set (s3 := exec displayCurrentPage (exec updatePagination s2)).
      destruct (updatePagination_keeps s2) as (Hp & Hn & Hall & _ & _ & _ & _ & Hin & _).
      assert (textContent (page (exec updatePagination s2)) resultsTitle = title) as Ht.
      { by rewrite updatePagination_texts_other. }
      assert (hidden (page (exec updatePagination s2)) errorMessage = true) as He.
      { by rewrite updatePagination_hidden_other. }
      split; [exact Hall|].
      split; [exact Hp|].
      split; [exact Hin|].
      split; [exact Ht|].
      split; [done|].
      split; [exact He|].
      split; [intros Hnil; by rewrite Hnil in Hlen|].
      intros _. split.
      * etrans; [apply (displayCurrentPage_currentResults (exec updatePagination s2))|].
        by rewrite Hall, Hp, Hn.
      * apply (shows_current_page_same_view s3); [by repeat split|].
        apply shows_after_display.
  - intros Hacc. subst s' reply. unfold exec.
    rewrite findSimilarSREFs_run, Hacc. cbn [fst]. done.
Qed.

End similar_search.
